(** * Sardonic: the sequence planner, the effect pipeline, the concat
      descriptor and the overlay compositor of [sardonic.js]

    A shallow embedding of the class [Sardonic].  JavaScript numbers that
    carry times, durations and angles are modelled as exact rationals
    ([Q], compared with [==]); numbers that are integers in the program
    (glitch level, pixel size, margin) are modelled as [Z].  The calls to
    [Math.random()] read an explicit stream [random : nat -> Q] through a
    counter that the code threads from one call to the next.  The
    [while] loop of the planner runs on fuel; the theorems give the fuel
    that suffices.

    Exact rationals leave out the rounding of the double precision
    arithmetic in which the code computes.  Where a property depends on
    it (the sum of the durations, the end of the loop, the loop count of
    the overlay) the planner and the loop count are modelled a second
    time on doubles, in the modules [Double] and [Binary64], and the
    property is proved there. *)

From Stdlib Require Import ZArith QArith Qround Qabs Lqa Lia.
From Stdlib Require Import List Bool Ascii String Permutation Sorted.
From Stdlib Require Import DecimalString DecimalZ DecimalPos.
Import ListNotations.

(* ================================================================= *)
(** ** JavaScript values and library functions used by the class      *)
(* ================================================================= *)

Module JS.

(** What a method call ends in: a returned value, a thrown exception,
    or (for the fuelled loop) no answer within the given fuel. *)
Inductive error : Type :=
| TypeError
| Error (message : string).

Inductive run (A : Type) : Type :=
| Returned (a : A)
| Threw (e : error)
| OutOfFuel.
Arguments Returned {A} a.
Arguments Threw {A} e.
Arguments OutOfFuel {A}.

Definition run_map {A B : Type} (f : A -> B) (r : run A) : run B :=
  match r with
  | Returned a => Returned (f a)
  | Threw e => Threw e
  | OutOfFuel => OutOfFuel
  end.

(** Truthiness, for [a || b] on option fields: [undefined], [0] and the
    empty string are falsy. *)
Class Falsy (A : Type) := falsy : A -> bool.
#[export] Instance Falsy_Z : Falsy Z := fun z => Z.eqb z 0.
#[export] Instance Falsy_Q : Falsy Q := fun q => Qeq_bool q 0.
#[export] Instance Falsy_string : Falsy string := fun s => String.eqb s ""%string.

Definition or_default {A : Type} `{Falsy A} (o : option A) (d : A) : A :=
  match o with
  | Some v => if falsy v then d else v
  | None => d
  end.

(** Comparison operators on numbers. *)
Definition num_lt (x y : Q) : bool := negb (Qle_bool y x).
Definition num_le (x y : Q) : bool := Qle_bool x y.

(** [arr[i]] for a number [i] that is an integer: [undefined] (here
    [None]) outside [0 .. length-1]. *)
Definition array_get {A : Type} (arr : list A) (i : Z) : option A :=
  if (i <? 0)%Z then None else nth_error arr (Z.to_nat i).

(** [Math.ceil] and [Math.floor]. *)
Definition Math_floor (x : Q) : Z := Qfloor x.
Definition Math_ceil (x : Q) : Z := Qceiling x.

(** [arr.join(sep)] on an array of strings. *)
Fixpoint join (sep : string) (arr : list string) : string :=
  match arr with
  | [] => ""%string
  | [x] => x
  | x :: rest => (x ++ sep ++ join sep rest)%string
  end.

(** [String(n)] for an integer [n]. *)
Definition Z_toString (z : Z) : string :=
  NilEmpty.string_of_int (Z.to_int z).

(** Node's POSIX [path.basename(p)] with one argument: trailing slashes
    are dropped, then the text after the last remaining slash is kept. *)
Definition is_slash (c : ascii) : bool := Ascii.eqb c "/".

Fixpoint drop_while (p : ascii -> bool) (l : list ascii) : list ascii :=
  match l with
  | [] => []
  | c :: l' => if p c then drop_while p l' else l
  end.

Fixpoint take_while (p : ascii -> bool) (l : list ascii) : list ascii :=
  match l with
  | [] => []
  | c :: l' => if p c then c :: take_while p l' else []
  end.

Definition basename (p : string) : string :=
  let r := drop_while is_slash (rev (list_ascii_of_string p)) in
  string_of_list_ascii (rev (take_while (fun c => negb (is_slash c)) r)).

End JS.
Import JS.

(* ================================================================= *)
(** ** The class, its constructor and the planner                      *)
(* ================================================================= *)

Record Options : Type := mkOptions {
  opt_framePattern : option string;
  opt_frameDir : option string;
  opt_output : option string;
  opt_size : option Z;
  opt_duration : option Q;
  opt_maxFrameDuration : option Q;
  opt_minFrameDuration : option Q;
  opt_maxRotation : option Q;
  opt_glitchLevel : option Z
}.

Record Sardonic : Type := mkSardonic {
  framePattern : string;
  frameDir : string;
  outputFile : string;
  size : Z;
  totalDuration : Q;
  maxFrameDuration : Q;
  minFrameDuration : Q;
  maxRotation : Q;
  glitchLevel : Z;
  frames : list string
}.

Definition constructor (options : Options) : Sardonic :=
  {| framePattern := or_default (opt_framePattern options) "w-*.jpg"%string;
     frameDir := or_default (opt_frameDir options) "./samples"%string;
     outputFile := or_default (opt_output options) "sardonic.mp4"%string;
     size := or_default (opt_size options) 320%Z;
     totalDuration := or_default (opt_duration options) 15;
     maxFrameDuration := or_default (opt_maxFrameDuration options) 2;
     minFrameDuration := or_default (opt_minFrameDuration options) (1 # 10);
     maxRotation := or_default (opt_maxRotation options) 15;
     glitchLevel := or_default (opt_glitchLevel options) 0%Z;
     frames := [] |}.

(** One element of the array that [generateSequence] returns. *)
Record Item : Type := mkItem {
  frame : string;
  duration : Q;
  rotation : Q;
  frameName : string
}.

Section Planner.

(** The values that successive calls of [Math.random()] return. *)
Variable random : nat -> Q.

(** Each method that draws takes the number of draws made so far and
    returns it advanced. *)
Definition randomDuration (this : Sardonic) (k : nat) : Q * nat :=
  let range := maxFrameDuration this - minFrameDuration this in
  (minFrameDuration this + random k * range, S k).

Definition randomRotation (this : Sardonic) (k : nat) : Q * nat :=
  ((random k * 2 - 1) * maxRotation this, S k).

(** The body of the [while] loop: the item it pushes and the draw
    counter afterwards.  [path.basename(undefined)] throws a
    [TypeError], which is what happens when [this.frames[...]] is
    [undefined]. *)
Definition iteration (this : Sardonic) (k : nat) (currentTime : Q)
  : run (Item * nat) :=
  let remaining := totalDuration this - currentTime in
  let '(duration, k1) :=
    if num_le remaining (maxFrameDuration this) then (remaining, k)
    else
      let '(d, k') := randomDuration this k in
      if num_lt (totalDuration this) (currentTime + d)
      then (totalDuration this - currentTime, k')
      else (d, k') in
  let frame :=
    array_get (frames this)
      (Math_floor (random k1 * inject_Z (Z.of_nat (List.length (frames this))))) in
  let '(rotation, k3) := randomRotation this (S k1) in
  match frame with
  | None => Threw TypeError
  | Some f => Returned (mkItem f duration rotation (basename f), k3)
  end.

(** The loop.  Beside the array [sequence] the model records, with each
    pushed item, the value that the variable [currentTime] holds when the
    item is pushed: the time at which the item starts. *)
Fixpoint generateSequence_loop (this : Sardonic) (fuel : nat) (k : nat)
    (currentTime : Q) (sequence : list (Q * Item)) : run (list (Q * Item)) :=
  match fuel with
  | O => OutOfFuel
  | S fuel' =>
      if num_lt currentTime (totalDuration this) then
        match iteration this k currentTime with
        | Returned (item, k') =>
            generateSequence_loop this fuel' k'
              (currentTime + duration item)
              (sequence ++ [(currentTime, item)])
        | Threw e => Threw e
        | OutOfFuel => OutOfFuel
        end
      else Returned sequence
  end.

Definition generateSequence_timed (this : Sardonic) (fuel : nat)
  : run (list (Q * Item)) :=
  generateSequence_loop this fuel 0 0 [].

Definition generateSequence (this : Sardonic) (fuel : nat)
  : run (list Item) :=
  run_map (map snd) (generateSequence_timed this fuel).

End Planner.

(** The three ways an iteration of the planner chooses its duration at
    time [t] with [k] draws made: the rest of the time, the rest of the
    time because the draw would pass the end, or the draw. *)
Inductive chosen (random : nat -> Q) (this : Sardonic) (k : nat) (t d : Q) : Prop :=
| chosen_rest :
    totalDuration this - t <= maxFrameDuration this ->
    d = totalDuration this - t -> chosen random this k t d
| chosen_clamped :
    maxFrameDuration this < totalDuration this - t ->
    totalDuration this <
      t + (minFrameDuration this
           + random k * (maxFrameDuration this - minFrameDuration this)) ->
    d = totalDuration this - t -> chosen random this k t d
| chosen_drawn :
    maxFrameDuration this < totalDuration this - t ->
    t + d <= totalDuration this ->
    d = minFrameDuration this
        + random k * (maxFrameDuration this - minFrameDuration this) ->
    chosen random this k t d.

(** Fuel that suffices when [minFrameDuration] is positive. *)
Definition iterations_bound (this : Sardonic) : nat :=
  S (Z.to_nat (Qceiling (totalDuration this / minFrameDuration this))).


(** The configuration of the end-to-end example: three frames, five
    seconds, durations between one and two seconds. *)
Definition sample : Sardonic :=
  {| framePattern := "w-*.jpg"%string; frameDir := "samples"%string;
     outputFile := "sardonic.mp4"%string;
     size := 128; totalDuration := 5; maxFrameDuration := 2; minFrameDuration := 1;
     maxRotation := 15; glitchLevel := 1;
     frames := ["samples/w-1.jpg"; "samples/w-2.jpg"; "samples/w-3.jpg"]%string |}.

(** A fixed stream of draws for examples: 0, 1/7, ..., 6/7, 0, ... *)
Definition sevenths (n : nat) : Q := Z.of_nat (n mod 7) # 7.

(** [Math.random()] returns a number in [0,1). *)
Definition unit_draws (random : nat -> Q) : Prop :=
  forall i, 0 <= random i /\ random i < 1.

(** The inputs of the planner's contract: a non-empty frame list, a
    positive total duration, bounds with [0 < minDur <= maxDur].  The code
    does not check them. *)
Record valid_input (this : Sardonic) : Prop := {
  valid_frames : frames this <> [];
  valid_total : 0 < totalDuration this;
  valid_min : 0 < minFrameDuration this;
  valid_min_max : minFrameDuration this <= maxFrameDuration this
}.

(** Time-contiguity of a timed sequence: the first item starts at [t0],
    each item starts where the one before it ended, the last ends at [t1]. *)
Fixpoint chain (t0 : Q) (tr : list (Q * Item)) (t1 : Q) : Prop :=
  match tr with
  | [] => t0 == t1
  | (st, it) :: tr' => st == t0 /\ chain (t0 + duration it) tr' t1
  end.

Definition durations (tr : list (Q * Item)) : list Q :=
  map (fun p => duration (snd p)) tr.

Definition Qnat (n : nat) : Q := inject_Z (Z.of_nat n).

(** Two configurations outside the contract: bounds in the wrong order,
    and a negative minimum. *)
Definition inverted_bounds : Sardonic :=
  {| framePattern := framePattern sample; frameDir := frameDir sample;
     outputFile := outputFile sample; size := size sample;
     totalDuration := 5; maxFrameDuration := 2; minFrameDuration := 3;
     maxRotation := maxRotation sample; glitchLevel := glitchLevel sample;
     frames := frames sample |}.

Definition negative_min : Sardonic :=
  {| framePattern := framePattern sample; frameDir := frameDir sample;
     outputFile := outputFile sample; size := size sample;
     totalDuration := 1; maxFrameDuration := 2; minFrameDuration := -1;
     maxRotation := maxRotation sample; glitchLevel := glitchLevel sample;
     frames := frames sample |}.

(** The same negative minimum with five seconds to fill. *)
Definition negative_min_long : Sardonic :=
  {| framePattern := framePattern sample; frameDir := frameDir sample;
     outputFile := outputFile sample; size := size sample;
     totalDuration := 5; maxFrameDuration := 2; minFrameDuration := -1;
     maxRotation := maxRotation sample; glitchLevel := glitchLevel sample;
     frames := frames sample |}.

(** Time-contiguity stated on positions: the first item starts at 0 and
    every later item starts where the item before it ends. *)
Definition contiguous_from_zero (tr : list (Q * Item)) : Prop :=
  (forall a, nth_error tr 0 = Some a -> fst a == 0) /\
  (forall i a b,
      nth_error tr i = Some a -> nth_error tr (S i) = Some b ->
      fst b == fst a + duration (snd a)).

(* ================================================================= *)
(** ** Text: line feeds, [toFixed], prefixes                            *)
(* ================================================================= *)

Module Text.

Definition LF_char : ascii := ascii_of_nat 10.
Definition LF : string := String LF_char EmptyString.

Fixpoint zeros (n : nat) : string :=
  match n with
  | O => EmptyString
  | S n' => String "0" (zeros n')
  end.

Definition pad_start (width : nat) (s : string) : string :=
  (zeros (width - String.length s) ++ s)%string.

(** [x.toFixed(digits)] on the exact value of [x], for [|x| < 10^21]
    (beyond that JavaScript switches to exponent notation): the integer
    [n] nearest to [|x| * 10^digits], the larger one on a tie, printed with
    the decimal point [digits] places from the right and the sign of [x]
    in front. *)
Definition toFixed (x : Q) (digits : nat) : string :=
  let sign := if num_lt x 0 then "-"%string else ""%string in
  let n := Qfloor (Qabs x * inject_Z (10 ^ Z.of_nat digits) + (1 # 2)) in
  let m := Z_toString n in
  match digits with
  | O => (sign ++ m)%string
  | S _ =>
      let m := pad_start (S digits) m in
      let k := String.length m in
      (sign ++ substring 0 (k - digits) m ++ "." ++ substring (k - digits) digits m)%string
  end.

(** [s.split("\n")]. *)
Fixpoint split_lines (s : string) : list string :=
  match s with
  | EmptyString => [EmptyString]
  | String c r =>
      if Ascii.eqb c LF_char then EmptyString :: split_lines r
      else match split_lines r with
           | l :: ls => String c l :: ls
           | [] => [String c EmptyString]
           end
  end.

Fixpoint strip_prefix (p s : string) : option string :=
  match p, s with
  | EmptyString, _ => Some s
  | String a p', String b s' => if Ascii.eqb a b then strip_prefix p' s' else None
  | String _ _, EmptyString => None
  end.

Fixpoint no_newline (s : string) : bool :=
  match s with
  | EmptyString => true
  | String c r => negb (Ascii.eqb c LF_char) && no_newline r
  end.

Fixpoint drop_last (s : string) : string :=
  match s with
  | EmptyString => EmptyString
  | String c EmptyString => EmptyString
  | String c r => String c (drop_last r)
  end.

(** The text between the single quotes of ['text']. *)
Definition unquote (s : string) : string :=
  match s with
  | String "'" r => drop_last r
  | _ => s
  end.

End Text.
Import Text.

(* ================================================================= *)
(** ** Effect pipeline: per-frame transform and temporal filter graph   *)
(* ================================================================= *)

(** The argument list that [createRotatedFrame] hands to [convert]. *)
Definition createRotatedFrame_args (this : Sardonic) (inputFrame : string)
    (rotation : Q) (index : nat) : list string :=
  let outputFrame := ("/tmp/sardonic-" ++ Z_toString (Z.of_nat index) ++ ".png")%string in
  let square := (Z_toString (size this) ++ "x" ++ Z_toString (size this))%string in
  let args :=
    [ inputFrame;
      "-resize"; (square ++ "^");
      "-gravity"; "center";
      "-extent"; square;
      "-background"; "none";
      "-rotate"; toFixed rotation 2;
      "-gravity"; "center";
      "-extent"; square ]%string in
  let args :=
    if (1 <=? glitchLevel this)%Z
    then args ++ ["-modulate"; "100,110,100"]%string else args in
  let args :=
    if (2 <=? glitchLevel this)%Z
    then args ++ ["-attenuate"; "0.3"; "+noise"; "Impulse"]%string else args in
  let args :=
    if (3 <=? glitchLevel this)%Z
    then args ++ ["-channel"; "R"; "-evaluate"; "add"; "5"]%string else args in
  args ++ [outputFrame].

(** An item with the handle of its rotated frame ([{...item, rotatedFrame}]). *)
Record Prepared : Type := mkPrepared {
  prepared_item : Item;
  rotatedFrame : string
}.

Section Render.

(** The exit status of the external [convert] run on an argument list. *)
Variable convert : list string -> Z.

Definition createRotatedFrame (this : Sardonic) (inputFrame : string)
    (rotation : Q) (index : nat) : run string :=
  let outputFrame := ("/tmp/sardonic-" ++ Z_toString (Z.of_nat index) ++ ".png")%string in
  if (convert (createRotatedFrame_args this inputFrame rotation index) =? 0)%Z
  then Returned outputFrame
  else Threw (Error ("ImageMagick failed for frame " ++ Z_toString (Z.of_nat index))%string).

(** The [for] loop of [prepareFrames], from index [i] on. *)
Fixpoint prepareFrames_from (this : Sardonic) (i : nat) (sequence : list Item)
    (preparedFrames : list Prepared) : run (list Prepared) :=
  match sequence with
  | [] => Returned preparedFrames
  | item :: rest =>
      match createRotatedFrame this (frame item) (rotation item) i with
      | Returned rotated =>
          prepareFrames_from this (S i) rest
            (preparedFrames ++ [mkPrepared item rotated])
      | Threw e => Threw e
      | OutOfFuel => OutOfFuel
      end
  end.

Definition prepareFrames (this : Sardonic) (sequence : list Item)
  : run (list Prepared) :=
  prepareFrames_from this 0 sequence [].

End Render.

(** The array [filters] as it stands when [buildGlitchFilter] reaches
    [filters.join(',')]. *)
Definition glitchFilters (this : Sardonic) : list string :=
  let filters := ["format=yuva420p"%string] in
  let filters :=
    if (1 <=? glitchLevel this)%Z
    then filters ++
         [ "split[a][b]";
           "[a]geq='r=r(X,Y):g=g(X,Y):b=b(X,Y):a=if(not(mod(Y\,3))\,255\,a(X,Y))'[scanlines]";
           "[b][scanlines]overlay" ]%string
    else filters in
  let filters :=
    if (2 <=? glitchLevel this)%Z
    then filters ++ ["noise=alls=10:allf=t+u"%string]
    else filters in
  let filters :=
    if (3 <=? glitchLevel this)%Z
    then filters ++
         [ "split[main][dup]";
           "[dup]lutrgb=r=0:b=0,crop=iw-4:ih:2:0[green]";
           "[main][green]overlay=0:0" ]%string
    else filters in
  filters.

Definition buildGlitchFilter (this : Sardonic) : string :=
  if (glitchLevel this =? 0)%Z then "format=yuva420p"%string
  else join "," (glitchFilters this).

(** The four stages the specification names, in its order, each with the
    filter-chain elements that realise it. *)
Definition stage_format : list string := ["format=yuva420p"%string].
Definition stage_scanlines : list string :=
  [ "split[a][b]";
    "[a]geq='r=r(X,Y):g=g(X,Y):b=b(X,Y):a=if(not(mod(Y\,3))\,255\,a(X,Y))'[scanlines]";
    "[b][scanlines]overlay" ]%string.
Definition stage_noise : list string := ["noise=alls=10:allf=t+u"%string].
Definition stage_chromatic : list string :=
  [ "split[main][dup]";
    "[dup]lutrgb=r=0:b=0,crop=iw-4:ih:2:0[green]";
    "[main][green]overlay=0:0" ]%string.
Definition stage_order : list (list string) :=
  [stage_format; stage_scanlines; stage_noise; stage_chromatic].

(** The level in [0,3] nearest to an integer level. *)
Definition nearest_level (level : Z) : Z :=
  if (level <? 0)%Z then 0%Z else if (3 <? level)%Z then 3%Z else level.

(** The same configuration at another glitch level. *)
Definition at_level (this : Sardonic) (level : Z) : Sardonic :=
  {| framePattern := framePattern this; frameDir := frameDir this;
     outputFile := outputFile this; size := size this;
     totalDuration := totalDuration this;
     maxFrameDuration := maxFrameDuration this;
     minFrameDuration := minFrameDuration this;
     maxRotation := maxRotation this; glitchLevel := level;
     frames := frames this |}.

(* ================================================================= *)
(** ** Concat descriptor                                                *)
(* ================================================================= *)

Definition concatPath : string := "/tmp/sardonic-concat.txt".

(** [createConcatFile]: the path it returns and the text it writes
    there.  On an empty array [lastFrame] is [undefined] and reading
    [lastFrame.rotatedFrame] throws before anything is written. *)
Definition createConcatFile (preparedFrames : list Prepared)
  : run (string * string) :=
  let content :=
    fold_left
      (fun content item =>
         let content := (content ++ "file '" ++ rotatedFrame item ++ "'" ++ LF)%string in
         (content ++ "duration " ++ toFixed (duration (prepared_item item)) 3 ++ LF)%string)
      preparedFrames ""%string in
  match array_get preparedFrames (Z.of_nat (List.length preparedFrames) - 1) with
  | None => Threw TypeError
  | Some lastFrame =>
      Returned (concatPath,
                (content ++ "file '" ++ rotatedFrame lastFrame ++ "'" ++ LF)%string)
  end.

(** How the concat text reads back, as the encoder takes it: a [file]
    line opens an entry, a [duration] line gives the open entry its
    duration, other lines (the empty one after the last line feed)
    carry nothing. *)
Record ConcatEntry : Type := mkEntry {
  entry_handle : string;
  entry_duration : option string
}.

Definition directive (acc : list ConcatEntry) (line : string) : list ConcatEntry :=
  match strip_prefix "file " line with
  | Some f => mkEntry (unquote f) None :: acc
  | None =>
      match strip_prefix "duration " line with
      | Some d =>
          match acc with
          | e :: acc' => mkEntry (entry_handle e) (Some d) :: acc'
          | [] => []
          end
      | None => acc
      end
  end.

Definition read_concat (content : string) : list ConcatEntry :=
  rev (fold_left directive (split_lines content) []).

(** The text of the items [preparedFrames], followed by [rest]. *)
Fixpoint concat_text (preparedFrames : list Prepared) (rest : string) : string :=
  match preparedFrames with
  | [] => rest
  | item :: more =>
      (("file '" ++ rotatedFrame item ++ "'") ++ LF ++
       ("duration " ++ toFixed (duration (prepared_item item)) 3) ++ LF ++
       concat_text more rest)%string
  end.


(** The entry that an item contributes to the descriptor: its handle
    with its duration as printed, to three decimals. *)
Definition entry_of (item : Prepared) : ConcatEntry :=
  mkEntry (rotatedFrame item) (Some (toFixed (duration (prepared_item item)) 3)).

Definition two_prepared : list Prepared :=
  [ mkPrepared (mkItem "samples/w-1.jpg" (3 # 2) (-45 # 7) "w-1.jpg") "/tmp/sardonic-0.png";
    mkPrepared (mkItem "samples/w-2.jpg" (7 # 2) (15 # 7) "w-2.jpg") "/tmp/sardonic-1.png" ].

(* ================================================================= *)
(** ** Overlay compositor                                               *)
(* ================================================================= *)

(** A number that may be [NaN] (what [parseFloat] returns). *)
Inductive number : Type :=
| NaN
| Num (q : Q).

(** The duration probe: [execSync] throws, or its output is parsed. *)
Inductive probe : Type :=
| ProbeFailed
| ProbeOutput (parsed : number).

(** [inputDuration] after the [try]/[catch]: it keeps its initial 0 when
    the probe throws. *)
Definition inputDuration (p : probe) : number :=
  match p with
  | ProbeFailed => Num 0
  | ProbeOutput parsed => parsed
  end.

(** [inputDuration > 0 ? Math.ceil(inputDuration / this.totalDuration) : 50];
    a comparison with [NaN] is false. *)
Definition loopCount (this : Sardonic) (inputDuration : number) : Z :=
  match inputDuration with
  | Num d =>
      if num_lt 0 d then Math_ceil (d / totalDuration this) else 50%Z
  | NaN => 50%Z
  end.

Record OverlayOptions : Type := mkOverlayOptions {
  opt_position : option string;
  opt_margin : option Z;
  opt_overlay_output : option string
}.

(** What the variables [x] and [y] hold: a string or the number [margin]. *)
Inductive value : Type :=
| Str (s : string)
| Int (z : Z).

(** A value inside a template literal. *)
Definition interpolate (v : value) : string :=
  match v with
  | Str s => s
  | Int z => Z_toString z
  end.

(** The [switch] on [position]. *)
Definition overlayPosition (position : string) (margin : Z) : value * value :=
  if (position =? "bottom-right")%string then
    (Str ("main_w-overlay_w-" ++ Z_toString margin),
     Str ("main_h-overlay_h-" ++ Z_toString margin))
  else if (position =? "bottom-left")%string then
    (Int margin, Str ("main_h-overlay_h-" ++ Z_toString margin))
  else if (position =? "top-right")%string then
    (Str ("main_w-overlay_w-" ++ Z_toString margin), Int margin)
  else if (position =? "top-left")%string then
    (Int margin, Int margin)
  else
    (Str ("main_w-overlay_w-" ++ Z_toString margin),
     Str ("main_h-overlay_h-" ++ Z_toString margin)).

Definition recognised (position : string) : bool :=
  (position =? "bottom-right")%string || (position =? "bottom-left")%string
  || (position =? "top-right")%string || (position =? "top-left")%string.

(** [array.filter(arg => arg !== undefined)], with [None] for [undefined]. *)
Fixpoint filter_defined (args : list (option string)) : list string :=
  match args with
  | [] => []
  | Some a :: rest => a :: filter_defined rest
  | None :: rest => filter_defined rest
  end.

Definition overlay_filter (x y : value) : string :=
  ("[0:v]fps=25[base];[1:v]fps=25[overlay];[base][overlay]overlay="
   ++ interpolate x ++ ":" ++ interpolate y ++ ":shortest=0:format=auto")%string.

Section Overlay.

(** [n.toString()] for a number that need not be an integer. *)
Variable Number_toString : Q -> string.

(** The argument list that [overlayOnVideo] hands to [ffmpeg]. *)
Definition overlayOnVideo_args (this : Sardonic) (inputVideo : string)
    (options : OverlayOptions) (p : probe) : list string :=
  let position := or_default (opt_position options) "bottom-right"%string in
  let margin := or_default (opt_margin options) 20%Z in
  let outputVideo :=
    or_default (opt_overlay_output options) "output-with-sardonic.mp4"%string in
  let inputDuration := inputDuration p in
  let '(x, y) := overlayPosition position margin in
  let loopCount := loopCount this inputDuration in
  filter_defined
    [ Some "-i"; Some inputVideo;
      Some "-stream_loop"; Some (Z_toString (loopCount - 1));
      Some "-i"; Some (outputFile this);
      Some "-filter_complex"; Some (overlay_filter x y);
      Some "-c:v"; Some "h264";
      Some "-c:a"; Some "copy";
      Some "-preset"; Some "medium";
      Some "-crf"; Some "23";
      Some "-t";
      match inputDuration with
      | Num d => if num_lt 0 d then Some (Number_toString d) else None
      | NaN => None
      end;
      Some "-y";
      Some outputVideo ]%string.

End Overlay.

(** A clip of fifteen seconds. *)
Definition clip15 : Sardonic :=
  {| framePattern := framePattern sample; frameDir := frameDir sample;
     outputFile := outputFile sample; size := size sample;
     totalDuration := 15; maxFrameDuration := maxFrameDuration sample;
     minFrameDuration := minFrameDuration sample;
     maxRotation := maxRotation sample; glitchLevel := glitchLevel sample;
     frames := frames sample |}.

(* ================================================================= *)
(** ** Reading the position expressions                                 *)
(* ================================================================= *)

(** The compositor resolves [x] and [y] against the frame sizes.  This
    is the part of its expression language that the code emits: the four
    size names, decimal integers, and minus, binary or unary. *)
Module Expr.

Record Dimensions : Type := mkDimensions {
  main_w : Z;
  main_h : Z;
  overlay_w : Z;
  overlay_h : Z
}.

Definition lookup (env : Dimensions) (name : string) : option Z :=
  if (name =? "main_w")%string then Some (main_w env)
  else if (name =? "main_h")%string then Some (main_h env)
  else if (name =? "overlay_w")%string then Some (overlay_w env)
  else if (name =? "overlay_h")%string then Some (overlay_h env)
  else None.

Inductive token : Type :=
| TIdent (name : string)
| TNum (digits : string)
| TMinus.

Inductive pending : Type :=
| PNone
| PIdent (name : string)
| PNum (digits : string).

Definition flush (p : pending) : list token :=
  match p with
  | PNone => []
  | PIdent name => [TIdent name]
  | PNum digits => [TNum digits]
  end.

Definition is_digit (c : ascii) : bool :=
  let n := nat_of_ascii c in (48 <=? n)%nat && (n <=? 57)%nat.

Definition is_letter (c : ascii) : bool :=
  let n := nat_of_ascii c in
  ((97 <=? n)%nat && (n <=? 122)%nat) || Ascii.eqb c "_".

Fixpoint lex (p : pending) (s : string) : option (list token) :=
  match s with
  | EmptyString => Some (flush p)
  | String c r =>
      if is_digit c then
        match p with
        | PNum digits => lex (PNum (digits ++ String c "")) r
        | PIdent name => lex (PIdent (name ++ String c "")) r
        | PNone => lex (PNum (String c "")) r
        end
      else if is_letter c then
        match p with
        | PIdent name => lex (PIdent (name ++ String c "")) r
        | PNone => lex (PIdent (String c "")) r
        | PNum _ => None
        end
      else if Ascii.eqb c "-" then
        option_map (fun ts => flush p ++ TMinus :: ts) (lex PNone r)
      else None
  end.

Definition number_value (digits : string) : option Z :=
  option_map Z.of_uint (NilEmpty.uint_of_string digits).

(** Left to right: [acc] is the value so far, [sign] the sign under which
    the next operand is added, [operand_due] whether an operand must come
    next. *)
Fixpoint eval_tokens (env : Dimensions) (acc sign : Z) (operand_due : bool)
    (ts : list token) : option Z :=
  match ts with
  | [] => if operand_due then None else Some acc
  | TMinus :: ts' =>
      if operand_due then eval_tokens env acc (- sign) true ts'
      else eval_tokens env acc (-1) true ts'
  | TNum digits :: ts' =>
      if operand_due then
        match number_value digits with
        | Some n => eval_tokens env (acc + sign * n) 1 false ts'
        | None => None
        end
      else None
  | TIdent name :: ts' =>
      if operand_due then
        match lookup env name with
        | Some n => eval_tokens env (acc + sign * n) 1 false ts'
        | None => None
        end
      else None
  end.

Definition eval (env : Dimensions) (e : string) : option Z :=
  match lex PNone e with
  | Some ts => eval_tokens env 0 1 true ts
  | None => None
  end.

(** The tokens of a printed integer. *)
Definition int_tokens (z : Z) : list token :=
  match Z.to_int z with
  | Decimal.Pos d => [TNum (NilEmpty.string_of_uint d)]
  | Decimal.Neg d => [TMinus; TNum (NilEmpty.string_of_uint d)]
  end.

End Expr.

(** The placement that the pair [(x, y)] denotes on given frame sizes. *)
Definition placement (env : Expr.Dimensions) (xy : value * value)
  : option (Z * Z) :=
  match Expr.eval env (interpolate (fst xy)), Expr.eval env (interpolate (snd xy)) with
  | Some x, Some y => Some (x, y)
  | _, _ => None
  end.

Definition hd1080 : Expr.Dimensions :=
  Expr.mkDimensions 1920 1080 320 320.

(* ================================================================= *)
(** ** Further configurations for the planner                           *)
(* ================================================================= *)

(** What the planner returns on [sample] with the draws [sevenths]. *)
Definition sample_run : list Item :=
  match generateSequence sevenths sample 6 with
  | Returned out => out
  | _ => []
  end.

(** Bounds that are both negative. *)
Definition negative_bounds : Sardonic :=
  {| framePattern := framePattern sample; frameDir := frameDir sample;
     outputFile := outputFile sample; size := size sample;
     totalDuration := 5; maxFrameDuration := -1; minFrameDuration := -2;
     maxRotation := maxRotation sample; glitchLevel := glitchLevel sample;
     frames := frames sample |}.

(* ================================================================= *)
(** ** Finding the frames                                               *)
(* ================================================================= *)

(** ASCII white space, as [String.prototype.trim] removes it: tab, line
    feed, vertical tab, form feed, carriage return, space. *)
Definition is_space (c : ascii) : bool :=
  let n := nat_of_ascii c in
  ((9 <=? n)%nat && (n <=? 13)%nat) || (n =? 32)%nat.

(** Text of ASCII characters only.  On such text the white space that
    [trim] removes is the one above, and the order of [sort] (by UTF-16
    code units) is the order of the characters' codes. *)
Definition ascii_text (s : string) : bool :=
  forallb (fun c => (nat_of_ascii c <? 128)%nat) (list_ascii_of_string s).

(** [s.trim()] on ASCII text. *)
Definition trim (s : string) : string :=
  string_of_list_ascii
    (rev (drop_while is_space (rev (drop_while is_space (list_ascii_of_string s))))).

(** [array.sort()] on strings: ascending by character codes.  The order
    is total and antisymmetric, so the sorted array does not depend on the
    sorting method; insertion is used here. *)
Fixpoint insert_sorted (x : string) (l : list string) : list string :=
  match l with
  | [] => [x]
  | y :: l' => if String.leb x y then x :: l else y :: insert_sorted x l'
  end.

Definition array_sort (l : list string) : list string :=
  fold_right insert_sorted [] l.

Definition nonempty (f : string) : bool := (0 <? String.length f)%nat.

(** The order of the sorted array. *)
Definition string_le (a b : string) : Prop := String.leb a b = true.

(** [this] after the assignment [this.frames = files]. *)
Definition with_frames (this : Sardonic) (files : list string) : Sardonic :=
  {| framePattern := framePattern this; frameDir := frameDir this;
     outputFile := outputFile this; size := size this;
     totalDuration := totalDuration this;
     maxFrameDuration := maxFrameDuration this;
     minFrameDuration := minFrameDuration this;
     maxRotation := maxRotation this; glitchLevel := glitchLevel this;
     frames := files |}.

Section Frames.

(** Node's [path.join] on two segments. *)
Variable path_join : string -> string -> string.

(** [execSync] on a command line: the message of the error it throws, or
    the text the command prints. *)
Variable execSync : string -> string + string.

Definition ls_command (pattern : string) : string :=
  ("ls -1 " ++ pattern ++ " 2>/dev/null || true")%string.

(** The lines that [findFrames] keeps from the printed text. *)
Definition listed (output : string) : list string :=
  array_sort (filter nonempty (split_lines (trim output))).

(** [findFrames]: the object with its [frames] assigned, and the array
    returned.  Whatever the [try] block throws is thrown again as an
    [Error] whose message starts with "Error finding frames: ". *)
Definition findFrames (this : Sardonic) : run (Sardonic * list string) :=
  let pattern := path_join (frameDir this) (framePattern this) in
  let attempt : string + list string :=
    match execSync (ls_command pattern) with
    | inl message => inl message
    | inr output =>
        let files := listed output in
        if (List.length files =? 0)%nat
        then inl ("No frames found matching: " ++ pattern)%string
        else inr files
    end in
  match attempt with
  | inl message => Threw (Error ("Error finding frames: " ++ message)%string)
  | inr files => Returned (with_frames this files, files)
  end.

End Frames.

(** A directory listing for examples, and a [path.join] for plain
    relative segments. *)
Definition join_plain (dir file : string) : string := (dir ++ "/" ++ file)%string.

Definition ls_two (command : string) : string + string :=
  inr ("samples/w-2.jpg" ++ LF ++ "samples/w-1.jpg" ++ LF)%string.

Definition ls_nothing (command : string) : string + string := inr ""%string.

(* ================================================================= *)
(** ** Prepared frames by position                                      *)
(* ================================================================= *)

(** The handle that [createRotatedFrame] gives to the frame at [index]. *)
Definition outputFrame (index : nat) : string :=
  ("/tmp/sardonic-" ++ Z_toString (Z.of_nat index) ++ ".png")%string.

(** The items of [sequence], each with the handle of its position,
    counted from [start]. *)
Fixpoint prepared_from (start : nat) (sequence : list Item) : list Prepared :=
  match sequence with
  | [] => []
  | item :: rest => mkPrepared item (outputFrame start) :: prepared_from (S start) rest
  end.

(** The exit status that [prepareFrames] observes for the item at [index]. *)
Definition convert_status (convert : list string -> Z) (this : Sardonic)
    (index : nat) (item : Item) : Z :=
  convert (createRotatedFrame_args this (frame item) (rotation item) index).

(** Two [convert] tools for examples: one that always succeeds, one that
    fails on the frame whose handle is [/tmp/sardonic-1.png]. *)
Definition convert_ok (args : list string) : Z := 0%Z.

Definition convert_fails_second (args : list string) : Z :=
  if String.eqb (last args ""%string) (outputFrame 1) then 1%Z else 0%Z.

(** The second item of [sample_run]. *)
Definition second_item : Item :=
  nth 1 sample_run (mkItem ""%string 0 0 ""%string).

(** The entry of the item at position [i] of a sequence. *)
Fixpoint entries_from (start : nat) (sequence : list Item) : list ConcatEntry :=
  match sequence with
  | [] => []
  | item :: rest =>
      mkEntry (outputFrame start) (Some (toFixed (duration item) 3))
      :: entries_from (S start) rest
  end.

(* ================================================================= *)
(** ** The whole run: [create]                                          *)
(* ================================================================= *)

(** What [create] does to the outside, in order: commands run with
    [execSync], tools spawned, files written, deleted and inspected.
    Console output is left out.  A spawned tool is taken to start and to
    exit with a status, and [writeFileSync] to succeed. *)
Inductive effect : Type :=
| Exec (command : string)
| Spawn (tool : string) (args : list string)
| WriteFile (path content : string)
| Unlink (path : string)
| Stat (path : string).

(** How the promise of [create] ends: resolved, rejected, or left
    pending by an exception thrown inside the [close] handler; or the
    planner ran out of fuel. *)
Inductive settled : Type :=
| Resolved
| Rejected (e : error)
| Uncaught (e : error)
| Unfinished.

(** The arguments that [create] hands to [ffmpeg]. *)
Definition create_args (this : Sardonic) (concatFile glitchFilter : string)
  : list string :=
  [ "-f"; "concat";
    "-safe"; "0";
    "-i"; concatFile;
    "-vf"; glitchFilter;
    "-c:v"; "h264";
    "-pix_fmt"; "yuva420p";
    "-preset"; "medium";
    "-crf"; "23";
    "-y";
    outputFile this ]%string.

Section Create.

Variable path_join : string -> string -> string.
Variable execSync : string -> string + string.
Variable random : nat -> Q.
Variable convert : list string -> Z.

(** The exit status of [ffmpeg] on an argument list. *)
Variable ffmpeg : list string -> Z.

(** [fs.unlinkSync] and [fs.statSync] on a path: the message of the
    error thrown, if any. *)
Variable unlinkSync : string -> option string.
Variable statSync : string -> option string.

(** The [convert] runs that the loop of [prepareFrames] starts, from
    position [i] on: one per item, up to the first that fails. *)
Fixpoint convert_calls (this : Sardonic) (i : nat) (sequence : list Item)
  : list effect :=
  match sequence with
  | [] => []
  | item :: rest =>
      Spawn "convert" (createRotatedFrame_args this (frame item) (rotation item) i)
      :: (if (convert_status convert this i item =? 0)%Z
          then convert_calls this (S i) rest
          else [])
  end.

Definition create (this : Sardonic) (fuel : nat) : list effect * settled :=
  let listing :=
    Exec (ls_command (path_join (frameDir this) (framePattern this))) in
  match findFrames path_join execSync this with
  | Threw e => ([listing], Rejected e)
  | OutOfFuel => ([listing], Unfinished)
  | Returned (this, _) =>
      match generateSequence random this fuel with
      | Threw e => ([listing], Rejected e)
      | OutOfFuel => ([listing], Unfinished)
      | Returned sequence =>
          let calls := convert_calls this 0 sequence in
          match prepareFrames convert this sequence with
          | Threw e => (listing :: calls, Rejected e)
          | OutOfFuel => (listing :: calls, Unfinished)
          | Returned preparedFrames =>
              match createConcatFile preparedFrames with
              | Threw e => (listing :: calls, Rejected e)
              | OutOfFuel => (listing :: calls, Unfinished)
              | Returned (concatFile, content) =>
                  let glitchFilter := buildGlitchFilter this in
                  let args := create_args this concatFile glitchFilter in
                  let started :=
                    listing :: calls
                    ++ [WriteFile concatFile content; Spawn "ffmpeg" args] in
                  if (ffmpeg args =? 0)%Z then
                    let cleaned :=
                      started
                      ++ map (fun item => Unlink (rotatedFrame item)) preparedFrames
                      ++ [Unlink concatFile] in
                    match unlinkSync concatFile with
                    | Some message => (cleaned, Uncaught (Error message))
                    | None =>
                        match statSync (outputFile this) with
                        | Some message =>
                            (cleaned ++ [Stat (outputFile this)],
                             Uncaught (Error message))
                        | None => (cleaned ++ [Stat (outputFile this)], Resolved)
                        end
                    end
                  else (started, Rejected (Error "ffmpeg encoding failed"))
              end
          end
      end
  end.

End Create.

(** A world for examples: two frames listed, every tool succeeds. *)
Definition ffmpeg_ok (args : list string) : Z := 0%Z.
Definition ffmpeg_fails (args : list string) : Z := 1%Z.
Definition fs_ok (path : string) : option string := None.

(** A configuration with a negative total duration. *)
Definition negative_total : Sardonic :=
  {| framePattern := framePattern sample; frameDir := frameDir sample;
     outputFile := outputFile sample; size := size sample;
     totalDuration := -5; maxFrameDuration := 2; minFrameDuration := 1;
     maxRotation := maxRotation sample; glitchLevel := glitchLevel sample;
     frames := [] |}.

(** One [convert] run per item, from position [i] on. *)
Fixpoint convert_runs (this : Sardonic) (i : nat) (sequence : list Item)
  : list effect :=
  match sequence with
  | [] => []
  | item :: rest =>
      Spawn "convert" (createRotatedFrame_args this (frame item) (rotation item) i)
      :: convert_runs this (S i) rest
  end.

(** The effects of the example world on [sample]. *)
Definition sample_effects : list effect :=
  fst (create join_plain ls_two sevenths convert_ok ffmpeg_ok fs_ok fs_ok sample 10).

Definition sample_effects_failed_encode : list effect :=
  fst (create join_plain ls_two sevenths convert_ok ffmpeg_fails fs_ok fs_ok sample 10).

(** The stages that [create] has behind it when it starts [ffmpeg]: the
    frames were found, the planner returned a non-empty plan, [convert]
    exited with 0 on every item, and the descriptor was written. *)
Record encoded (path_join : string -> string -> string)
    (execSync : string -> string + string) (random : nat -> Q)
    (convert : list string -> Z)
    (this this' : Sardonic) (fuel : nat) (sequence : list Item)
    (content : string) : Prop := {
  encoded_frames :
    findFrames path_join execSync this = Returned (this', frames this');
  encoded_plan : generateSequence random this' fuel = Returned sequence;
  encoded_plan_nonempty : sequence <> [];
  encoded_transforms :
    forall i item, nth_error sequence i = Some item ->
                   convert_status convert this' i item = 0%Z;
  encoded_descriptor :
    createConcatFile (prepared_from 0 sequence) = Returned (concatPath, content)
}.

(* ================================================================= *)
(** ** The overlay run                                                  *)
(* ================================================================= *)

(** The double quote. *)
Definition DQ : string := String (ascii_of_nat 34) EmptyString.

Definition probe_command (inputVideo : string) : string :=
  ("ffprobe -v error -show_entries format=duration -of default=noprint_wrappers=1:nokey=1 "
   ++ DQ ++ inputVideo ++ DQ)%string.

Section OverlayRun.

Variable execSync : string -> string + string.

(** [parseFloat] on a string. *)
Variable parseFloat : string -> number.
Variable Number_toString : Q -> string.
Variable ffmpeg : list string -> Z.
Variable statSync : string -> option string.

(** The [try] block around the duration probe. *)
Definition probe_duration (inputVideo : string) : probe :=
  match execSync (probe_command inputVideo) with
  | inl _ => ProbeFailed
  | inr probeOutput => ProbeOutput (parseFloat (trim probeOutput))
  end.

(** [overlayOnVideo]: its effects and how its promise ends (it resolves
    to [outputVideo]). *)
Definition overlayOnVideo (this : Sardonic) (inputVideo : string)
    (options : OverlayOptions) : list effect * settled :=
  let outputVideo :=
    or_default (opt_overlay_output options) "output-with-sardonic.mp4"%string in
  let args :=
    overlayOnVideo_args Number_toString this inputVideo options
      (probe_duration inputVideo) in
  let started := [Exec (probe_command inputVideo); Spawn "ffmpeg" args] in
  if (ffmpeg args =? 0)%Z then
    match statSync outputVideo with
    | Some message => (started ++ [Stat outputVideo], Uncaught (Error message))
    | None => (started ++ [Stat outputVideo], Resolved)
    end
  else (started, Rejected (Error "Video overlay failed")).

End OverlayRun.

(* ================================================================= *)
(** ** The command line                                                 *)
(* ================================================================= *)

Inductive flag : Type :=
| FFrames | FDir | FDuration | FSize | FRotation | FGlitch | FOutput
| FOverlay | FPosition | FMargin | FHelp.

(** The chain of comparisons on [args[i]]. *)
Definition flag_of (arg : string) : option flag :=
  if (arg =? "--frames")%string || (arg =? "-f")%string then Some FFrames
  else if (arg =? "--dir")%string || (arg =? "-D")%string then Some FDir
  else if (arg =? "--duration")%string || (arg =? "-d")%string then Some FDuration
  else if (arg =? "--size")%string || (arg =? "-s")%string then Some FSize
  else if (arg =? "--rotation")%string || (arg =? "-r")%string then Some FRotation
  else if (arg =? "--glitch")%string || (arg =? "-g")%string then Some FGlitch
  else if (arg =? "--output")%string || (arg =? "-o")%string then Some FOutput
  else if (arg =? "--overlay")%string || (arg =? "-O")%string then Some FOverlay
  else if (arg =? "--position")%string || (arg =? "-p")%string then Some FPosition
  else if (arg =? "--margin")%string || (arg =? "-m")%string then Some FMargin
  else if (arg =? "--help")%string || (arg =? "-h")%string then Some FHelp
  else None.

(** The variables that the argument loop assigns. *)
Record Cli : Type := mkCli {
  cli_options : Options;
  overlayMode : bool;
  inputVideo : option string;
  overlayOptions : OverlayOptions
}.

(** Their values before the loop; [samplesDir] is the directory
    [samples] beside the script. *)
Definition cli_start (samplesDir : string) : Cli :=
  {| cli_options :=
       {| opt_framePattern := Some "w-*.jpg"%string;
          opt_frameDir := Some samplesDir;
          opt_output := Some "sardonic.mp4"%string;
          opt_size := Some 128%Z;
          opt_duration := Some 15;
          opt_maxFrameDuration := Some (8 # 10);
          opt_minFrameDuration := Some (1 # 10);
          opt_maxRotation := Some 15;
          opt_glitchLevel := Some 1%Z |};
     overlayMode := false;
     inputVideo := None;
     overlayOptions :=
       {| opt_position := Some "bottom-right"%string;
          opt_margin := Some 20%Z;
          opt_overlay_output := None |} |}.

(** A number as an option holds it: [NaN] is as falsy as [undefined], and
    nothing but [||] reads these options. *)
Definition number_option (n : number) : option Q :=
  match n with
  | Num q => Some q
  | NaN => None
  end.

Section CommandLine.

(** [parseFloat] and [parseInt] on a string ([None] for [NaN]). *)
Variable parseFloat : string -> number.
Variable parseInt : string -> option Z.

(** [parseFloat(args[++i])] and [parseInt(args[++i])]: of [undefined] they
    give [NaN]. *)
Definition float_arg (value : option string) : option Q :=
  match value with
  | Some s => number_option (parseFloat s)
  | None => None
  end.

Definition int_arg (value : option string) : option Z :=
  match value with
  | Some s => parseInt s
  | None => None
  end.

Definition update_options (f : flag) (value : option string) (o : Options)
  : Options :=
  match f with
  | FFrames =>
      mkOptions value (opt_frameDir o) (opt_output o) (opt_size o)
        (opt_duration o) (opt_maxFrameDuration o) (opt_minFrameDuration o)
        (opt_maxRotation o) (opt_glitchLevel o)
  | FDir =>
      mkOptions (opt_framePattern o) value (opt_output o) (opt_size o)
        (opt_duration o) (opt_maxFrameDuration o) (opt_minFrameDuration o)
        (opt_maxRotation o) (opt_glitchLevel o)
  | FDuration =>
      mkOptions (opt_framePattern o) (opt_frameDir o) (opt_output o) (opt_size o)
        (float_arg value) (opt_maxFrameDuration o) (opt_minFrameDuration o)
        (opt_maxRotation o) (opt_glitchLevel o)
  | FSize =>
      mkOptions (opt_framePattern o) (opt_frameDir o) (opt_output o)
        (int_arg value)
        (opt_duration o) (opt_maxFrameDuration o) (opt_minFrameDuration o)
        (opt_maxRotation o) (opt_glitchLevel o)
  | FRotation =>
      mkOptions (opt_framePattern o) (opt_frameDir o) (opt_output o) (opt_size o)
        (opt_duration o) (opt_maxFrameDuration o) (opt_minFrameDuration o)
        (float_arg value) (opt_glitchLevel o)
  | FGlitch =>
      mkOptions (opt_framePattern o) (opt_frameDir o) (opt_output o) (opt_size o)
        (opt_duration o) (opt_maxFrameDuration o) (opt_minFrameDuration o)
        (opt_maxRotation o) (int_arg value)
  | FOutput =>
      mkOptions (opt_framePattern o) (opt_frameDir o) value (opt_size o)
        (opt_duration o) (opt_maxFrameDuration o) (opt_minFrameDuration o)
        (opt_maxRotation o) (opt_glitchLevel o)
  | FOverlay | FPosition | FMargin | FHelp => o
  end.

(** The assignment made for flag [f] with [args[++i]] as [value]. *)
Definition assign (f : flag) (value : option string) (c : Cli) : Cli :=
  match f with
  | FOverlay => mkCli (cli_options c) true value (overlayOptions c)
  | FPosition =>
      mkCli (cli_options c) (overlayMode c) (inputVideo c)
        (mkOverlayOptions value (opt_margin (overlayOptions c))
           (opt_overlay_output (overlayOptions c)))
  | FMargin =>
      mkCli (cli_options c) (overlayMode c) (inputVideo c)
        (mkOverlayOptions (opt_position (overlayOptions c)) (int_arg value)
           (opt_overlay_output (overlayOptions c)))
  | _ =>
      mkCli (update_options f value (cli_options c)) (overlayMode c)
        (inputVideo c) (overlayOptions c)
  end.

(** The loop ends with the variables assigned, or in [process.exit(0)]
    after the help text. *)
Inductive parsed : Type :=
| Parsed (c : Cli)
| HelpExit.

(** The [for] loop over [args].  [pending] is the flag whose value
    [args[++i]] is read next; at the end of the array that value is
    [undefined]. *)
Fixpoint parse_args (args : list string) (pending : option flag) (c : Cli)
  : parsed :=
  match args with
  | [] =>
      match pending with
      | Some f => Parsed (assign f None c)
      | None => Parsed c
      end
  | arg :: rest =>
      match pending with
      | Some f => parse_args rest None (assign f (Some arg) c)
      | None =>
          match flag_of arg with
          | Some FHelp => HelpExit
          | Some f => parse_args rest (Some f) c
          | None => parse_args rest None c
          end
      end
  end.

Definition parse (samplesDir : string) (args : list string) : parsed :=
  parse_args args None (cli_start samplesDir).

End CommandLine.

(** How the process ends: with an exit status, by an exception nobody
    catches, or not within the fuel. *)
Inductive ending : Type :=
| Exited (code : Z)
| Crashed (e : error)
| Running.

Definition ending_of (s : settled) : ending :=
  match s with
  | Resolved => Exited 0
  | Rejected _ => Exited 1
  | Uncaught e => Crashed e
  | Unfinished => Running
  end.

(** [overlayMode && inputVideo]: the video to overlay on, if any. *)
Definition overlay_target (c : Cli) : option string :=
  if overlayMode c then
    match inputVideo c with
    | Some v => if falsy v then None else Some v
    | None => None
    end
  else None.

Section Main.

Variable samplesDir : string.
Variable parseFloat : string -> number.
Variable parseInt : string -> option Z.
Variable path_join : string -> string -> string.
Variable execSync : string -> string + string.
Variable random : nat -> Q.
Variable convert : list string -> Z.
Variable ffmpeg : list string -> Z.
Variable unlinkSync : string -> option string.
Variable statSync : string -> option string.
Variable Number_toString : Q -> string.

(** The script run as the main module on [args]: the effects of
    [create] and of [overlayOnVideo], which reads of the object only what
    the constructor has set. *)
Definition main (args : list string) (fuel : nat) : list effect * ending :=
  match parse parseFloat parseInt samplesDir args with
  | HelpExit => ([], Exited 0)
  | Parsed c =>
      let sardonic := constructor (cli_options c) in
      let made :=
        create path_join execSync random convert ffmpeg unlinkSync statSync
          sardonic fuel in
      match snd made with
      | Resolved =>
          match overlay_target c with
          | Some video =>
              let over :=
                overlayOnVideo execSync parseFloat Number_toString ffmpeg statSync
                  sardonic video (overlayOptions c) in
              (fst made ++ fst over, ending_of (snd over))
          | None => (fst made, Exited 0)
          end
      | other => (fst made, ending_of other)
      end
  end.

End Main.

(** The duration bounds as the script sets them before the loop. *)
Definition bounds_untouched (c : Cli) : Prop :=
  opt_minFrameDuration (cli_options c) = Some (1 # 10) /\
  opt_maxFrameDuration (cli_options c) = Some (8 # 10).

(** Parsers for examples: every number reads as 30, resp. as 2. *)
Definition parseFloat_30 (s : string) : number := Num 30.
Definition parseInt_2 (s : string) : option Z := Some 2%Z.

(** The variables after [sardonic -d 30]. *)
Definition cli_example : Cli :=
  match parse parseFloat_30 parseInt_2 "samples" ["-d"; "30"]%string with
  | Parsed c => c
  | HelpExit => cli_start "samples"
  end.

(* ================================================================= *)
(** ** Double precision numbers                                         *)
(* ================================================================= *)

Module Double.

#[local] Open Scope Z_scope.

(** Every finite double is a whole number of units of [2^-1074], the
    smallest positive double; [Finite k] is the double of value
    [k * 2^-1074].  [one] is the number 1 in these units, and [limit] is
    [2^1024], the first magnitude that is no longer finite.  The two zeros
    of IEEE 754 are one value here: the code compares and adds times, and
    never divides by a zero or prints the sign of one. *)
Definition one : Z := 2 ^ 1074.
Definition limit : Z := 2 ^ 2098.

Inductive double : Type :=
| NaN
| Infinity (negative : bool)
| Finite (k : Z).

(** The spacing of the doubles around a magnitude of [q] units is
    [2 ^ shift q] units: 53 significant bits, and one unit for the
    subnormal numbers and the first binade. *)
Definition shift (q : Z) : Z := Z.max 0 (Z.log2 q - 52).

(** [k] units is a double (if it is below [limit]). *)
Definition aligned (k : Z) : Prop := Z.abs k mod 2 ^ shift (Z.abs k) = 0.

(** [n / d] rounded to the nearest whole number, a tie to the even one
    ([0 <= n], [0 < d]). *)
Definition nearest_even (n d : Z) : Z :=
  let q := n / d in
  let r := n mod d in
  if 2 * r <? d then q
  else if d <? 2 * r then q + 1
  else if Z.even q then q else q + 1.

(** The double nearest to [n / d] units, ties to the even significand
    (the rounding of every IEEE operation), before the check for
    overflow. *)
Definition round_magnitude (n d : Z) : Z :=
  let s := shift (n / d) in
  nearest_even n (d * 2 ^ s) * 2 ^ s.

(** The double that an operation with exact result [n / d] units
    returns ([0 < d]). *)
Definition round (n d : Z) : double :=
  let m := round_magnitude (Z.abs n) d in
  if limit <=? m then Infinity (n <? 0) else Finite (Z.sgn n * m).

(** The double that a decimal literal or [parseFloat] gives for a
    number, and the double of a whole number. *)
Definition of_Q (q : Q) : double := round (Qnum q * one) (Zpos (Qden q)).
Definition of_Z (z : Z) : double := round (z * one) 1.

(** [+], [-], [*], [/] and the comparisons on doubles. *)
Definition opp (a : double) : double :=
  match a with
  | NaN => NaN
  | Infinity s => Infinity (negb s)
  | Finite k => Finite (- k)
  end.

Definition add (a b : double) : double :=
  match a, b with
  | NaN, _ | _, NaN => NaN
  | Infinity s, Infinity s' => if Bool.eqb s s' then Infinity s else NaN
  | Infinity s, Finite _ | Finite _, Infinity s => Infinity s
  | Finite x, Finite y => round (x + y) 1
  end.

Definition sub (a b : double) : double := add a (opp b).

Definition mul (a b : double) : double :=
  match a, b with
  | NaN, _ | _, NaN => NaN
  | Infinity s, Infinity s' => Infinity (xorb s s')
  | Infinity s, Finite k | Finite k, Infinity s =>
      if k =? 0 then NaN else Infinity (xorb s (k <? 0))
  | Finite x, Finite y => round (x * y) one
  end.

Definition div (a b : double) : double :=
  match a, b with
  | NaN, _ | _, NaN => NaN
  | Infinity _, Infinity _ => NaN
  | Infinity s, Finite k => Infinity (xorb s (k <? 0))
  | Finite _, Infinity _ => Finite 0
  | Finite x, Finite y =>
      if y =? 0 then (if x =? 0 then NaN else Infinity (x <? 0))
      else round (Z.sgn y * x * one) (Z.abs y)
  end.

Definition lt (a b : double) : bool :=
  match a, b with
  | NaN, _ | _, NaN => false
  | Infinity s, Infinity s' => s && negb s'
  | Infinity s, Finite _ => s
  | Finite _, Infinity s => negb s
  | Finite x, Finite y => x <? y
  end.

Definition le (a b : double) : bool :=
  match a, b with
  | NaN, _ | _, NaN => false
  | Infinity s, Infinity s' => s || negb s'
  | Infinity s, Finite _ => s
  | Finite _, Infinity s => negb s
  | Finite x, Finite y => x <=? y
  end.

Definition gt (a b : double) : bool := lt b a.

Definition Math_floor (a : double) : double :=
  match a with
  | Finite k => Finite (k / one * one)
  | _ => a
  end.

Definition Math_ceil (a : double) : double :=
  match a with
  | Finite k => Finite (- (- k / one) * one)
  | _ => a
  end.

End Double.

(* ================================================================= *)
(** ** The planner and the loop count on doubles                       *)
(* ================================================================= *)

(** The same loop as [generateSequence_loop] above, with every number a
    double and every operation rounded as the hardware rounds it. *)
Module Binary64.
Import Double.

#[local] Open Scope Z_scope.

(** The fields of the object that [generateSequence] reads. *)
Record Sardonic : Type := mkSardonic {
  frames : list string;
  totalDuration : double;
  maxFrameDuration : double;
  minFrameDuration : double;
  maxRotation : double
}.

Record Item : Type := mkItem {
  frame : string;
  duration : double;
  rotation : double;
  frameName : string
}.

(** How far the loop has come when the fuel is spent or the loop is left. *)
Inductive progress : Type :=
| Done
| Failed (e : error)
| Pending.

(** [arr[x]] for a number [x]: an element only at a whole index. *)
Definition element {A : Type} (arr : list A) (x : double) : option A :=
  match x with
  | Finite k => if k mod one =? 0 then array_get arr (k / one) else None
  | _ => None
  end.

Section Planner.

Variable random : nat -> double.
Variable this : Sardonic.

Definition randomDuration (k : nat) : double * nat :=
  let range := sub (maxFrameDuration this) (minFrameDuration this) in
  (add (minFrameDuration this) (mul (random k) range), S k).

Definition randomRotation (k : nat) : double * nat :=
  (mul (sub (mul (random k) (of_Z 2)) (of_Z 1)) (maxRotation this), S k).

(** The duration that an iteration settles on. *)
Definition chosen_duration (k : nat) (currentTime : double) : double :=
  let remaining := sub (totalDuration this) currentTime in
  if le remaining (maxFrameDuration this) then remaining
  else if gt (add currentTime (fst (randomDuration k))) (totalDuration this)
       then sub (totalDuration this) currentTime
       else fst (randomDuration k).

Definition iteration (k : nat) (currentTime : double) : run (Item * nat) :=
  let remaining := sub (totalDuration this) currentTime in
  let '(duration, k1) :=
    if le remaining (maxFrameDuration this) then (remaining, k)
    else
      let '(d, k') := randomDuration k in
      if gt (add currentTime d) (totalDuration this)
      then (sub (totalDuration this) currentTime, k')
      else (d, k') in
  let frame :=
    element (frames this)
      (Math_floor (mul (random k1) (of_Z (Z.of_nat (List.length (frames this)))))) in
  let '(rotation, k3) := randomRotation (S k1) in
  match frame with
  | None => Threw TypeError
  | Some f => Returned (mkItem f duration rotation (basename f), k3)
  end.

(** The loop, run for at most [fuel] iterations: the items pushed so
    far, each with the value of [currentTime] when it was pushed, and
    whether the loop has been left. *)
Fixpoint generateSequence_loop (fuel : nat) (k : nat) (currentTime : double)
    (sequence : list (double * Item)) : list (double * Item) * progress :=
  if lt currentTime (totalDuration this) then
    match fuel with
    | O => (sequence, Pending)
    | S fuel' =>
        match iteration k currentTime with
        | Returned (item, k') =>
            generateSequence_loop fuel' k' (add currentTime (duration item))
              (sequence ++ [(currentTime, item)])
        | Threw e => (sequence, Failed e)
        | OutOfFuel => (sequence, Pending)
        end
    end
  else (sequence, Done).

Definition generateSequence_timed (fuel : nat) : list (double * Item) * progress :=
  generateSequence_loop fuel 0 (Finite 0) [].

(** The items pushed within [fuel] iterations. *)
Definition pushed (fuel : nat) : list Item :=
  map snd (fst (generateSequence_timed fuel)).

Definition generateSequence (fuel : nat) : run (list Item) :=
  match generateSequence_timed fuel with
  | (sequence, Done) => Returned (map snd sequence)
  | (_, Failed e) => Threw e
  | (_, Pending) => OutOfFuel
  end.

End Planner.

(** Line 385: the number of times the clip is played. *)
Definition loopCount (this : Sardonic) (inputDuration : double) : double :=
  if gt inputDuration (Finite 0)
  then Math_ceil (div inputDuration (totalDuration this))
  else of_Z 50.

(** Doubles in the proper sense: finite ones have at most 53 significant
    bits and lie below [2^1024]. *)
Definition representable (k : Z) : Prop := aligned k /\ Z.abs k < limit.

(** A value of [Math.random()]: a double in [0, 1). *)
Definition unit_draw (x : double) : Prop :=
  exists k, x = Finite k /\ representable k /\ 0 <= k < one.

Definition positive (x : double) : Prop := lt (Finite 0) x = true.

(** Bounds on a result that may have overflowed. *)
Definition at_least (a : Z) (x : double) : Prop :=
  match x with
  | Finite m => a <= m
  | Infinity s => s = false
  | NaN => False
  end.

(** The exact value of a finite double, in units of [2^-1074], and the
    exact sum of the durations of a run. *)
Definition units (x : double) : Z :=
  match x with
  | Finite k => k
  | _ => 0
  end.

Definition exact_sum (sequence : list (double * Item)) : Z :=
  fold_right (fun entry acc => units (duration (snd entry)) + acc) 0 sequence.

(** Each item starts at the value that [currentTime] has reached. *)
Fixpoint contiguous_from (t : double) (sequence : list (double * Item)) : Prop :=
  match sequence with
  | [] => True
  | (start, item) :: rest =>
      start = t /\ contiguous_from (add t (duration item)) rest
  end.

Definition end_time (t : double) (sequence : list (double * Item)) : double :=
  fold_left (fun t entry => add t (duration (snd entry))) sequence t.

(** The state of the loop for a total of [ktot] units: the exact sum of
    the durations pushed so far is the exact value before the last
    rounding, up to half a spacing for each earlier addition. *)
Definition accurate (ktot : Z) (t : double) (sequence : list (double * Item)) : Prop :=
  (sequence = [] /\ t = Finite 0) \/
  exists x,
    0 <= x /\ t = round x 1 /\ 2 * x <= 2 * ktot + 2 ^ shift ktot /\
    Z.abs (2 * (exact_sum sequence - x))
      <= (Z.of_nat (List.length sequence) - 1) * 2 ^ shift ktot.

(** What holds of the items pushed so far, at every turn of the loop. *)
Definition sound (ktot : Z) (t : double) (sequence : list (double * Item)) : Prop :=
  accurate ktot t sequence /\
  contiguous_from (Finite 0) sequence /\
  end_time (Finite 0) sequence = t /\
  Forall (fun entry => exists kd, duration (snd entry) = Finite kd /\ 0 < kd) sequence.

(** The largest number of iterations when each free iteration advances
    by half of [kmin] at least. *)
Definition iterations_bound (ktot kmin : Z) : nat := Z.to_nat (2 * ktot / kmin) + 3.

(** The claim's formula on the exact values: the least whole number of
    clips that covers the target. *)
Definition exact_ceiling (kd ktot : Z) : Z := - (- kd / ktot).

(** Configurations and draws for examples. *)
Definition zero_draws (n : nat) : double := Finite 0.

Definition sevenths (n : nat) : double := of_Q (Z.of_nat (n mod 7) # 7).

Definition sample : Sardonic :=
  mkSardonic ["a.png"; "b.png"; "c.png"]%string (of_Z 5) (of_Z 2) (of_Z 1) (of_Z 5).

Definition large_total : Sardonic :=
  mkSardonic ["a.png"]%string (of_Z (2 ^ 53 + 6)) (of_Z (2 ^ 53 + 4)) (of_Z 3) (of_Z 5).

Definition negative_min : Sardonic :=
  mkSardonic ["a.png"]%string (of_Z 5) (of_Z 2) (of_Z (-1)) (of_Z 5).

(** A total so large that a duration of one second is lost when it is
    added to the time reached. *)
Definition absorbed : Sardonic :=
  mkSardonic ["a.png"]%string (of_Q (100000000000000000 # 1))
    (of_Q (40000000000000000 # 1)) (of_Z 1) (of_Z 5).

Definition nine_tenths_then_zero (n : nat) : double :=
  match n with
  | O => of_Q (9 # 10)
  | S _ => Finite 0
  end.

Definition clip (seconds : Q) : Sardonic :=
  mkSardonic [] (of_Q seconds) (of_Q (8 # 10)) (of_Q (1 # 10)) (of_Z 5).

End Binary64.

(* ================================================================= *)
(** * Theorems                                                         *)
(* ================================================================= *)

(** ** Comparisons *)

Lemma num_lt_true (x y : Q) : num_lt x y = true <-> x < y.
Proof.
  unfold num_lt. rewrite negb_true_iff. split; intro H.
  - apply Qnot_le_lt. intro L. apply Qle_bool_iff in L. congruence.
  - destruct (Qle_bool y x) eqn:E; [|reflexivity].
    apply Qle_bool_iff in E. exfalso. exact (Qlt_not_le _ _ H E).
Qed.

Lemma num_lt_false (x y : Q) : num_lt x y = false <-> y <= x.
Proof.
  unfold num_lt. rewrite negb_false_iff. apply Qle_bool_iff.
Qed.

Lemma num_le_true (x y : Q) : num_le x y = true <-> x <= y.
Proof. apply Qle_bool_iff. Qed.

Lemma num_le_false (x y : Q) : num_le x y = false <-> y < x.
Proof.
  unfold num_le. split; intro H.
  - apply Qnot_le_lt. intro L. apply Qle_bool_iff in L. congruence.
  - destruct (Qle_bool x y) eqn:E; [|reflexivity].
    apply Qle_bool_iff in E. exfalso. exact (Qlt_not_le _ _ H E).
Qed.

(* ================================================================= *)
(** ** Properties of the planner                                       *)
(* ================================================================= *)

Section PlannerFacts.

Variable random : nat -> Q.
Variable this : Sardonic.

#[local] Notation "'total'" := (totalDuration this).
#[local] Notation "'dmin'" := (minFrameDuration this).
#[local] Notation "'dmax'" := (maxFrameDuration this).

Lemma iteration_chosen k t it k' :
  iteration random this k t = Returned (it, k') ->
  chosen random this k t (duration it).
Proof.
  unfold iteration, randomDuration, randomRotation.
  destruct (num_le (total - t) dmax) eqn:E1.
  - apply num_le_true in E1.
    destruct (array_get _ _); [|discriminate].
    intros [= <- _]. now apply chosen_rest.
  - apply num_le_false in E1.
    destruct (num_lt total _) eqn:E2.
    + apply num_lt_true in E2.
      destruct (array_get _ _); [|discriminate].
      intros [= <- _]. now apply chosen_clamped.
    + apply num_lt_false in E2.
      destruct (array_get _ _); [|discriminate].
      intros [= <- _]. now apply chosen_drawn.
Qed.


(** Hoare-style rule for the loop: a property of [currentTime] and
    [sequence] kept by every iteration holds when the loop returns,
    together with the negated guard. *)
Lemma loop_rule (P : Q -> list (Q * Item) -> Prop) :
  (forall k t sq it k',
      P t sq -> t < total ->
      iteration random this k t = Returned (it, k') ->
      P (t + duration it) (sq ++ [(t, it)])) ->
  forall fuel k t sq out,
    P t sq ->
    generateSequence_loop random this fuel k t sq = Returned out ->
    exists t', P t' out /\ total <= t'.
Proof.
  intros Hstep. induction fuel as [|fuel IH]; intros k t sq out HP; simpl.
  - discriminate.
  - destruct (num_lt t total) eqn:G.
    + apply num_lt_true in G.
      destruct (iteration random this k t) as [[it k']| |] eqn:E;
        try discriminate.
      intro Hr. eapply IH; [|exact Hr]. eapply Hstep; eauto.
    + apply num_lt_false in G. intros [= <-]. now exists t.
Qed.







(** With draws in [0,1), [Math.floor(Math.random() * n)] is an index of
    an array of [n > 0] elements. *)
Lemma frame_index_defined (l : list string) (r : Q) :
  l <> [] -> 0 <= r -> r < 1 ->
  exists f, array_get l (Math_floor (r * Qnat (List.length l))) = Some f.
Proof.
  intros Hne H0 H1. unfold array_get, Math_floor.
  set (n := List.length l).
  assert (Hn : 0 < Qnat n).
  { unfold Qnat. change 0 with (inject_Z 0). rewrite <- Zlt_Qlt.
    destruct l; [congruence|]. subst n. simpl List.length. lia. }
  assert (Hlo : (0 <= Qfloor (r * Qnat n))%Z).
  { change 0%Z with (Qfloor 0). apply Qfloor_resp_le. nra. }
  assert (Hhi : (Qfloor (r * Qnat n) < Z.of_nat n)%Z).
  { rewrite Zlt_Qlt. apply Qle_lt_trans with (r * Qnat n).
    - apply Qfloor_le.
    - fold (Qnat n). nra. }
  destruct (Z.ltb_spec (Qfloor (r * Qnat n)) 0); [lia|].
  destruct (nth_error l (Z.to_nat (Qfloor (r * Qnat n)))) eqn:E.
  - now exists s.
  - apply nth_error_None in E. fold n in E. lia.
Qed.

Lemma iteration_returns k t :
  unit_draws random -> frames this <> [] ->
  exists it k', iteration random this k t = Returned (it, k').
Proof.
  intros Hd Hne. unfold iteration, randomDuration, randomRotation.
  destruct (num_le (total - t) dmax).
  - destruct (frame_index_defined (frames this) (random k) Hne) as [f Hf];
      try apply Hd.
    unfold Qnat in Hf. rewrite Hf. eauto.
  - destruct (frame_index_defined (frames this) (random (S k)) Hne) as [f Hf];
      try apply Hd.
    unfold Qnat in Hf.
    destruct (num_lt total _); rewrite Hf; eauto.
Qed.

(** A drawn duration lies between the two bounds. *)
Lemma drawn_bounds (r : Q) :
  0 <= r -> r < 1 -> dmin <= dmax ->
  dmin <= dmin + r * (dmax - dmin) /\ dmin + r * (dmax - dmin) <= dmax.
Proof. intros. split; nra. Qed.





End PlannerFacts.

(** ** Durations and counts *)

Section PlannerBounds.

Variable random : nat -> Q.
Variable this : Sardonic.

#[local] Notation "'total'" := (totalDuration this).
#[local] Notation "'dmin'" := (minFrameDuration this).
#[local] Notation "'dmax'" := (maxFrameDuration this).

Hypothesis draws : unit_draws random.
Hypothesis min_max : dmin <= dmax.

Lemma chosen_positive k t d :
  0 < dmin -> t < total -> chosen random this k t d -> 0 < d.
Proof.
  intros Hmin Hlt [H ->|H H' ->|H H' ->]; try lra.
  destruct (drawn_bounds this (random k)) as [Hlo Hhi];
    try apply draws; trivial.
  lra.
Qed.



Lemma durations_app tr tr' : durations (tr ++ tr') = durations tr ++ durations tr'.
Proof. unfold durations. apply map_app. Qed.

Lemma loop_durations_positive fuel out :
  0 < dmin ->
  generateSequence_timed random this fuel = Returned out ->
  Forall (fun d => 0 < d) (durations out).
Proof.
  intros Hmin Hr. unfold generateSequence_timed in Hr.
  apply (loop_rule random this (fun _ sq => Forall (fun d => 0 < d) (durations sq))) in Hr.
  - now destruct Hr as (_ & H & _).
  - intros k t sq it k' HP Hlt Hit. rewrite durations_app.
    apply Forall_app. split; [exact HP|]. repeat constructor. simpl.
    apply iteration_chosen in Hit. eapply chosen_positive; eauto.
  - constructor.
Qed.





End PlannerBounds.

(** ** The planner's contract *)

Lemma chain_contiguous t0 tr t1 :
  chain t0 tr t1 ->
  (forall a, nth_error tr 0 = Some a -> fst a == t0) /\
  (forall i a b,
      nth_error tr i = Some a -> nth_error tr (S i) = Some b ->
      fst b == fst a + duration (snd a)).
Proof.
  revert t0. induction tr as [|[st it] tr IH]; simpl; intros t0.
  - intros _. split; [discriminate|]. intros [|i]; discriminate.
  - intros [Hst Hc]. destruct (IH _ Hc) as [IH0 IHS]. split.
    + intros a [= <-]. exact Hst.
    + intros [|i] a b; simpl.
      * intros [= <-] Hb. simpl. rewrite Hst. now apply IH0.
      * apply IHS.
Qed.


Lemma durations_items tr : durations tr = map duration (map snd tr).
Proof. unfold durations. now rewrite map_map. Qed.





(** The planner checks nothing: on a non-empty frame list it never
    throws, whatever the bounds are. *)
Lemma loop_never_throws (random : nat -> Q) (this : Sardonic) :
  unit_draws random -> frames this <> [] ->
  forall fuel k t sq e,
    generateSequence_loop random this fuel k t sq <> Threw e.
Proof.
  intros Hd Hne. induction fuel as [|fuel IH]; intros k t sq e; simpl.
  - discriminate.
  - destruct (num_lt t (totalDuration this)); [|discriminate].
    destruct (iteration_returns random this k t Hd Hne) as (it & k' & ->).
    apply IH.
Qed.

(** C5, as the code has it.  [generateSequence] has no check of the
    duration bounds and no error of its own: on a non-empty frame list it
    never throws, whatever [minDur] and [maxDur] are; and when
    [0 < totalDuration <= maxDur] it returns one item, of duration
    [totalDuration], for every [minDur]. *)
Theorem generateSequence_unchecked_bounds (random : nat -> Q) (this : Sardonic) :
  unit_draws random -> frames this <> [] ->
  (forall fuel e, generateSequence random this fuel <> Threw e) /\
  (0 < totalDuration this -> totalDuration this <= maxFrameDuration this ->
   exists item,
     duration item == totalDuration this /\
     forall fuel, (2 <= fuel)%nat ->
       generateSequence random this fuel = Returned [item]).
Proof.
  intros Hd Hne. split.
  - intros fuel e. unfold generateSequence, generateSequence_timed.
    pose proof (loop_never_throws random this Hd Hne fuel 0%nat 0 [] e) as H.
    destruct (generateSequence_loop random this fuel 0 0 []);
      simpl; congruence.
  - intros Ht Hle.
    destruct (iteration_returns random this 0%nat 0 Hd Hne) as (it & k' & Hit).
    exists it.
    pose proof (iteration_chosen random this 0%nat 0 it k' Hit) as Hc.
    assert (Hdur : duration it == totalDuration this).
    { destruct Hc as [H ->|H H' ->|H H' ->]; lra. }
    split; [exact Hdur|].
    intros [|[|fuel]] Hf; try lia.
    unfold generateSequence, generateSequence_timed. simpl.
    assert (G : num_lt 0 (totalDuration this) = true) by now apply num_lt_true.
    rewrite G, Hit.
    assert (G' : num_lt (0 + duration it) (totalDuration this) = false)
      by (apply num_lt_false; lra).
    rewrite G'. reflexivity.
Qed.

(** C5 fails on the code: with [minDur > maxDur], and with
    [minDur <= 0], the planner returns items and throws nothing. *)
Lemma generateSequence_accepts_bad_bounds :
  (maxFrameDuration inverted_bounds < minFrameDuration inverted_bounds /\
   generateSequence sevenths inverted_bounds 3 =
     Returned [ mkItem "samples/w-1.jpg" (21 # 7) (-45 # 7) "w-1.jpg";
                mkItem "samples/w-2.jpg" (14 # 7) (15 # 7) "w-2.jpg" ]) /\
  (minFrameDuration negative_min <= 0 /\
   generateSequence sevenths negative_min 2 =
     Returned [ mkItem "samples/w-1.jpg" 1 (-75 # 7) "w-1.jpg" ]).
Proof.
  split; split; try reflexivity; discriminate.
Qed.

(** ** The planner outside its contract *)

Lemma array_get_nil {A : Type} (i : Z) : array_get (@nil A) i = None.
Proof.
  unfold array_get. destruct (i <? 0)%Z; [reflexivity|].
  now destruct (Z.to_nat i).
Qed.

(** With an empty frame list the first iteration throws the [TypeError]
    of [path.basename(undefined)]. *)
Lemma generateSequence_empty_frames (random : nat -> Q) (this : Sardonic) (fuel : nat) :
  frames this = [] -> 0 < totalDuration this ->
  generateSequence random this (S fuel) = Threw TypeError.
Proof.
  intros Hf Ht. apply num_lt_true in Ht.
  unfold generateSequence, generateSequence_timed. cbn [generateSequence_loop].
  rewrite Ht. unfold iteration, randomDuration, randomRotation. rewrite Hf.
  destruct (num_le _ _); [|destruct (num_lt (totalDuration this) _)];
    rewrite array_get_nil; reflexivity.
Qed.

(** With a negative minimum a draw can be negative: the first item of
    this run lasts -1 and the run still returns. *)
Lemma negative_minimum_negative_duration :
  match generateSequence sevenths negative_min_long 20 with
  | Returned (item :: _) => duration item == -1
  | _ => False
  end.
Proof. vm_compute. reflexivity. Qed.

(** With both bounds zero the loop never advances: no fuel is enough. *)
Lemma zero_range_never_returns (random : nat -> Q) (this : Sardonic) :
  unit_draws random -> frames this <> [] ->
  0 < totalDuration this ->
  minFrameDuration this == 0 -> maxFrameDuration this == 0 ->
  forall fuel, generateSequence random this fuel = OutOfFuel.
Proof.
  intros Hd Hne Ht Hmin Hmax fuel.
  unfold generateSequence, generateSequence_timed.
  assert (H : forall k t sq, t == 0 ->
            generateSequence_loop random this fuel k t sq = OutOfFuel).
  { induction fuel as [|fuel IH]; intros k t sq Hz; cbn [generateSequence_loop].
    - reflexivity.
    - assert (G : num_lt t (totalDuration this) = true)
        by (apply num_lt_true; lra).
      rewrite G.
      destruct (iteration_returns random this k t Hd Hne) as (it & k' & Hit).
      rewrite Hit. apply IH.
      apply iteration_chosen in Hit.
      destruct Hit as [H ->|H H' ->|H H' ->]; nra. }
  rewrite H; reflexivity.
Qed.

(** ** Instances *)

Lemma sevenths_unit : unit_draws sevenths.
Proof.
  intro i. unfold sevenths.
  pose proof (Nat.mod_upper_bound i 7 ltac:(discriminate)) as H.
  split.
  - unfold Qle. cbn [Qnum Qden]. lia.
  - unfold Qlt. cbn [Qnum Qden]. lia.
Qed.

Lemma sample_valid : valid_input sample.
Proof. split; simpl; try reflexivity; discriminate. Qed.



Lemma generateSequence_unchecked_bounds_witness :
  (forall fuel e, generateSequence sevenths negative_min fuel <> Threw e) /\
  exists item,
    duration item == totalDuration negative_min /\
    forall fuel, (2 <= fuel)%nat ->
      generateSequence sevenths negative_min fuel = Returned [item].
Proof.
  destruct (generateSequence_unchecked_bounds sevenths negative_min sevenths_unit)
    as [Hnever Hone].
  - discriminate.
  - split; [exact Hnever|]. apply Hone; [reflexivity|discriminate].
Defined.

(** ** Effect levels *)

Ltac level_cases :=
  repeat match goal with
  | |- context [(?a <=? ?b)%Z] => destruct (Z.leb_spec a b); try lia
  | |- context [(?a <? ?b)%Z] => destruct (Z.ltb_spec a b); try lia
  | |- context [(?a =? ?b)%Z] => destruct (Z.eqb_spec a b); try lia
  end.

Lemma glitchFilters_stages (this : Sardonic) :
  glitchFilters this =
    stage_format
    ++ (if (1 <=? glitchLevel this)%Z then stage_scanlines else [])
    ++ (if (2 <=? glitchLevel this)%Z then stage_noise else [])
    ++ (if (3 <=? glitchLevel this)%Z then stage_chromatic else []).
Proof. unfold glitchFilters. level_cases; reflexivity. Qed.

(** What [buildGlitchFilter] returns is the joined array at every
    level, level 0 included (its early return gives the same text). *)
Lemma buildGlitchFilter_join (this : Sardonic) :
  buildGlitchFilter this = join "," (glitchFilters this).
Proof.
  unfold buildGlitchFilter. destruct (Z.eqb_spec (glitchLevel this) 0) as [E|]; trivial.
  unfold glitchFilters. rewrite E. reflexivity.
Qed.

(** C2.  For a level [k] in [1,3] the filter array of level [k] is that
    of level [k-1] followed by the added elements, so every stage of
    level [k-1] is kept in place; the arrays are initial parts of the one
    list format, scanlines, noise, chromatic shift. *)
Theorem glitchFilters_level_prefix (this : Sardonic) (k : Z) :
  (1 <= k <= 3)%Z ->
  glitchFilters (at_level this k) = List.concat (firstn (Z.to_nat k + 1) stage_order) /\
  glitchFilters (at_level this (k - 1)) = List.concat (firstn (Z.to_nat k) stage_order) /\
  (exists added,
      glitchFilters (at_level this k) =
        glitchFilters (at_level this (k - 1)) ++ added) /\
  buildGlitchFilter (at_level this k) = join "," (glitchFilters (at_level this k)) /\
  buildGlitchFilter (at_level this (k - 1)) =
    join "," (glitchFilters (at_level this (k - 1))).
Proof.
  intros Hk.
  assert (Hc : k = 1%Z \/ k = 2%Z \/ k = 3%Z) by lia.
  repeat split; try apply buildGlitchFilter_join;
    destruct Hc as [->|[->| ->]]; try reflexivity;
    eexists; reflexivity.
Qed.

Lemma glitchFilters_level_prefix_witness :
  glitchFilters (at_level sample 2) = List.concat (firstn (Z.to_nat 2 + 1) stage_order) /\
  glitchFilters (at_level sample (2 - 1)) = List.concat (firstn (Z.to_nat 2) stage_order) /\
  (exists added,
      glitchFilters (at_level sample 2) =
        glitchFilters (at_level sample (2 - 1)) ++ added) /\
  buildGlitchFilter (at_level sample 2) = join "," (glitchFilters (at_level sample 2)) /\
  buildGlitchFilter (at_level sample (2 - 1)) =
    join "," (glitchFilters (at_level sample (2 - 1))).
Proof.
  apply (glitchFilters_level_prefix sample 2). lia.
Defined.

(** C10.  At every integer level the filter graph and the per-frame
    argument list are those of the nearest level in [0,3]: level 0 for a
    negative level, level 3 for a level above 3. *)
Theorem glitch_level_clamps (this : Sardonic) (level : Z) :
  buildGlitchFilter (at_level this level) =
    buildGlitchFilter (at_level this (nearest_level level)) /\
  (forall inputFrame rotation index,
      createRotatedFrame_args (at_level this level) inputFrame rotation index =
        createRotatedFrame_args (at_level this (nearest_level level))
          inputFrame rotation index) /\
  ((level < 0)%Z -> nearest_level level = 0%Z) /\
  ((3 < level)%Z -> nearest_level level = 3%Z).
Proof.
  unfold nearest_level. split; [|split; [|split]].
  - rewrite !buildGlitchFilter_join. unfold glitchFilters. simpl glitchLevel.
    destruct (Z.ltb_spec level 0); [level_cases; reflexivity|].
    destruct (Z.ltb_spec 3 level); [level_cases; reflexivity|reflexivity].
  - intros inputFrame rotation index.
    unfold createRotatedFrame_args. simpl glitchLevel. simpl size.
    destruct (Z.ltb_spec level 0); [level_cases; reflexivity|].
    destruct (Z.ltb_spec 3 level); [level_cases; reflexivity|reflexivity].
  - intros H. level_cases; reflexivity.
  - intros H. level_cases; reflexivity.
Qed.

(** ** Text *)

Lemma append_assoc (a b c : string) : ((a ++ b) ++ c = a ++ (b ++ c))%string.
Proof. induction a as [|x a IH]; simpl; [reflexivity|now rewrite IH]. Qed.

Lemma append_nil_r (a : string) : (a ++ "")%string = a.
Proof. induction a as [|x a IH]; simpl; [reflexivity|now rewrite IH]. Qed.

Lemma no_newline_app (a b : string) :
  no_newline (a ++ b) = no_newline a && no_newline b.
Proof.
  induction a as [|x a IH]; simpl; [reflexivity|].
  rewrite IH. now rewrite andb_assoc.
Qed.

Lemma no_newline_substring (s : string) : no_newline s = true ->
  forall n m, no_newline (substring n m s) = true.
Proof.
  induction s as [|x s IH]; intros Hs n m.
  - now destruct n, m.
  - simpl in Hs. apply andb_true_iff in Hs. destruct Hs as [Hx Hs].
    destruct n as [|n]; destruct m as [|m]; simpl; trivial.
    + rewrite Hx. now apply IH.
    + now apply IH.
    + now apply IH.
Qed.

Lemma no_newline_zeros (n : nat) : no_newline (zeros n) = true.
Proof. induction n; simpl; trivial. Qed.

Lemma no_newline_uint (d : Decimal.uint) :
  no_newline (NilEmpty.string_of_uint d) = true.
Proof. induction d; simpl; trivial. Qed.

Lemma no_newline_Z_toString (z : Z) : no_newline (Z_toString z) = true.
Proof.
  unfold Z_toString. destruct (Z.to_int z); simpl; apply no_newline_uint.
Qed.

Lemma no_newline_toFixed (x : Q) (digits : nat) :
  no_newline (toFixed x digits) = true.
Proof.
  unfold toFixed.
  set (n := Qfloor _).
  assert (Hsign : no_newline (if num_lt x 0 then "-" else "")%string = true)
    by now destruct (num_lt x 0).
  destruct digits as [|digits].
  - rewrite no_newline_app, Hsign. apply no_newline_Z_toString.
  - set (m := pad_start _ _).
    assert (Hm : no_newline m = true).
    { unfold m, pad_start.
      now rewrite no_newline_app, no_newline_zeros, no_newline_Z_toString. }
    rewrite !no_newline_app, Hsign.
    rewrite !no_newline_substring by exact Hm. reflexivity.
Qed.

(** A text without line feed, followed by a line feed, is one line. *)
Lemma split_lines_line (a r : string) :
  no_newline a = true ->
  split_lines (a ++ LF ++ r) = a :: split_lines r.
Proof.
  induction a as [|x a IH]; simpl; intros Ha.
  - reflexivity.
  - apply andb_true_iff in Ha. destruct Ha as [Hx Ha].
    apply negb_true_iff in Hx. rewrite Hx.
    change (String LF_char r) with (LF ++ r)%string.
    now rewrite (IH Ha).
Qed.

Lemma drop_last_quote (h : string) : drop_last (h ++ "'") = h.
Proof.
  induction h as [|x h IH]; simpl; [reflexivity|].
  rewrite IH. destruct h; reflexivity.
Qed.

(** ** The concat descriptor *)

Lemma concat_text_app l rest more :
  (concat_text l rest ++ more)%string = concat_text l (rest ++ more)%string.
Proof.
  induction l as [|p l IH]; cbn [concat_text]; [reflexivity|].
  rewrite <- IH. now rewrite !append_assoc.
Qed.

Lemma createConcatFile_loop l content :
  fold_left
    (fun content item =>
       let content := (content ++ "file '" ++ rotatedFrame item ++ "'" ++ LF)%string in
       (content ++ "duration " ++ toFixed (duration (prepared_item item)) 3 ++ LF)%string)
    l content
  = (content ++ concat_text l "")%string.
Proof.
  revert content. induction l as [|p l IH]; intros content; cbn [fold_left concat_text].
  - now rewrite append_nil_r.
  - rewrite IH. cbv zeta. now rewrite !append_assoc.
Qed.

Lemma directive_file acc h :
  directive acc ("file '" ++ h ++ "'") = mkEntry h None :: acc.
Proof.
  unfold directive. cbn [append strip_prefix Ascii.eqb Bool.eqb unquote].
  now rewrite drop_last_quote.
Qed.

Lemma directive_duration e acc d :
  directive (e :: acc) ("duration " ++ d) = mkEntry (entry_handle e) (Some d) :: acc.
Proof. reflexivity. Qed.

Lemma file_line_no_newline h :
  no_newline h = true -> no_newline ("file '" ++ h ++ "'") = true.
Proof. intro H. rewrite !no_newline_app, H. reflexivity. Qed.

Lemma duration_line_no_newline x :
  no_newline ("duration " ++ toFixed x 3) = true.
Proof. rewrite no_newline_app, no_newline_toFixed. reflexivity. Qed.

Lemma append_nil_l (a : string) : ("" ++ a)%string = a.
Proof. reflexivity. Qed.

(** Reading the text of a list of items adds their entries, in order. *)
Lemma read_concat_text l rest acc :
  Forall (fun p => no_newline (rotatedFrame p) = true) l ->
  fold_left directive (split_lines (concat_text l rest)) acc =
  fold_left directive (split_lines rest) (rev (map entry_of l) ++ acc).
Proof.
  intros Hl. revert acc. induction Hl as [|p l Hp _ IH]; intros acc.
  - reflexivity.
  - cbn [concat_text].
    rewrite split_lines_line by now apply file_line_no_newline.
    rewrite split_lines_line by apply duration_line_no_newline.
    cbn [fold_left]. rewrite directive_file, directive_duration, IH.
    cbn [map rev entry_handle]. now rewrite <- app_assoc.
Qed.

Lemma array_get_last {A : Type} (l : list A) :
  l <> [] ->
  exists x front,
    l = front ++ [x] /\
    array_get l (Z.of_nat (List.length l) - 1) = Some x.
Proof.
  intros Hne. destruct (exists_last Hne) as (front & x & ->).
  exists x, front. split; [reflexivity|].
  unfold array_get. rewrite length_app. simpl List.length.
  destruct (Z.ltb_spec (Z.of_nat (List.length front + 1) - 1) 0); [lia|].
  replace (Z.to_nat (Z.of_nat (List.length front + 1) - 1)) with (List.length front) by lia.
  rewrite nth_error_app2 by lia. now rewrite Nat.sub_diag.
Qed.

(** What [prepareFrames] returns keeps the items in order and gives each
    a handle without line feed. *)
Lemma prepareFrames_from_handles convert this sequence :
  forall i acc out,
    prepareFrames_from convert this i sequence acc = Returned out ->
    Forall (fun p => no_newline (rotatedFrame p) = true) acc ->
    Forall (fun p => no_newline (rotatedFrame p) = true) out /\
    map prepared_item out = map prepared_item acc ++ sequence.
Proof.
  induction sequence as [|item rest IH]; intros i acc out; cbn [prepareFrames_from].
  - intros [= <-] Hacc. now rewrite app_nil_r.
  - unfold createRotatedFrame.
    destruct (convert _ =? 0)%Z; [|discriminate].
    intros Hr Hacc. apply IH in Hr.
    + destruct Hr as [Hout Hmap]. split; [exact Hout|].
      rewrite Hmap, map_app. cbn [map prepared_item]. now rewrite <- app_assoc.
    + apply Forall_app. split; [exact Hacc|]. repeat constructor.
      cbn [rotatedFrame]. rewrite !no_newline_app, no_newline_Z_toString.
      reflexivity.
Qed.

(** C3.  For a non-empty list of [n] prepared frames the text written by
    [createConcatFile] is, for each item in order, a [file] line with its
    handle and a [duration] line with its duration, then one more [file]
    line with the handle of item [n-1]; when no handle contains a line
    feed it reads back as [n + 1] entries, the last one without duration. *)
Theorem createConcatFile_entries (preparedFrames : list Prepared) :
  preparedFrames <> [] ->
  exists content lastFrame,
    createConcatFile preparedFrames = Returned (concatPath, content) /\
    array_get preparedFrames (Z.of_nat (List.length preparedFrames) - 1)
      = Some lastFrame /\
    content =
      concat_text preparedFrames
        (("file '" ++ rotatedFrame lastFrame ++ "'") ++ LF)%string /\
    (Forall (fun p => no_newline (rotatedFrame p) = true) preparedFrames ->
     read_concat content =
       map entry_of preparedFrames ++ [mkEntry (rotatedFrame lastFrame) None] /\
     List.length (read_concat content) = S (List.length preparedFrames)).
Proof.
  intros Hne.
  destruct (array_get_last preparedFrames Hne) as (lastFrame & front & Hl & Hget).
  unfold createConcatFile. rewrite Hget, createConcatFile_loop.
  eexists. exists lastFrame. split; [reflexivity|]. split; [reflexivity|].
  assert (Htext :
    (("" ++ concat_text preparedFrames "") ++
      "file '" ++ rotatedFrame lastFrame ++ "'" ++ LF)%string
    = concat_text preparedFrames
        (("file '" ++ rotatedFrame lastFrame ++ "'") ++ LF)%string).
  { rewrite append_nil_l, concat_text_app, append_nil_l.
    now rewrite !append_assoc. }
  split; [exact Htext|]. rewrite Htext. intros Hnl.
  assert (Hlast : no_newline (rotatedFrame lastFrame) = true).
  { rewrite Hl in Hnl. apply Forall_app in Hnl. destruct Hnl as [_ H].
    now inversion H. }
  assert (Hread :
    read_concat (concat_text preparedFrames
                   (("file '" ++ rotatedFrame lastFrame ++ "'") ++ LF))
    = map entry_of preparedFrames ++ [mkEntry (rotatedFrame lastFrame) None]).
  { unfold read_concat.
    rewrite read_concat_text by exact Hnl.
    rewrite <- (append_nil_r LF) at 1.
    rewrite split_lines_line by now apply file_line_no_newline.
    cbn [split_lines fold_left]. rewrite directive_file.
    cbn [directive strip_prefix]. rewrite app_nil_r.
    cbn [rev]. now rewrite rev_involutive. }
  split; [exact Hread|].
  rewrite Hread, length_app, length_map. simpl. lia.
Qed.

Lemma createConcatFile_entries_witness :
  exists content lastFrame,
    createConcatFile two_prepared = Returned (concatPath, content) /\
    array_get two_prepared 1 = Some lastFrame /\
    read_concat content =
      map entry_of two_prepared ++ [mkEntry (rotatedFrame lastFrame) None] /\
    List.length (read_concat content) = 3%nat.
Proof.
  destruct (createConcatFile_entries two_prepared)
    as (content & lastFrame & Hrun & Hlast & _ & Hread); [discriminate|].
  exists content, lastFrame.
  split; [exact Hrun|]. split; [exact Hlast|].
  apply Hread. repeat constructor.
Defined.

(** The descriptor of the two-frame example, entry by entry. *)
Example read_concat_two_prepared :
  run_map (fun written => read_concat (snd written)) (createConcatFile two_prepared)
  = Returned [ mkEntry "/tmp/sardonic-0.png" (Some "1.500"%string);
               mkEntry "/tmp/sardonic-1.png" (Some "3.500"%string);
               mkEntry "/tmp/sardonic-1.png" None ].
Proof. reflexivity. Qed.

(** On an empty array [createConcatFile] throws. *)
Lemma createConcatFile_empty : createConcatFile [] = Threw TypeError.
Proof. reflexivity. Qed.

(** ** Reading printed integers *)

Module ExprFacts.
Import Expr.

Lemma lex_digits (d : Decimal.uint) (digits : string) :
  lex (PNum digits) (NilEmpty.string_of_uint d) =
    Some [TNum (digits ++ NilEmpty.string_of_uint d)].
Proof.
  revert digits. induction d; intros digits; cbn [NilEmpty.string_of_uint];
    [ cbn [lex flush]; now rewrite append_nil_r | .. ];
    cbn [lex]; (change (is_digit _) with true); cbv iota; rewrite IHd;
    now rewrite append_assoc.
Qed.

Lemma lex_uint (d : Decimal.uint) :
  d <> Decimal.Nil ->
  lex PNone (NilEmpty.string_of_uint d) = Some [TNum (NilEmpty.string_of_uint d)].
Proof.
  destruct d; intros Hd; [congruence | ..];
    cbn [NilEmpty.string_of_uint lex]; (change (is_digit _) with true);
    cbv iota; now rewrite lex_digits.
Qed.

Lemma to_uint_not_nil (p : positive) : Pos.to_uint p <> Decimal.Nil.
Proof.
  intro E. pose proof (DecimalPos.Unsigned.of_to p) as H.
  rewrite E in H. discriminate.
Qed.

(** A printed integer lexes to its sign and its digits. *)
Lemma lex_Z_toString (z : Z) : lex PNone (Z_toString z) = Some (int_tokens z).
Proof.
  unfold Z_toString, int_tokens. destruct z as [|p|p]; cbn [Z.to_int].
  - reflexivity.
  - cbn [NilEmpty.string_of_int]. apply lex_uint, to_uint_not_nil.
  - cbn [NilEmpty.string_of_int lex].
    change (is_digit "-") with false. change (is_letter "-") with false.
    change (Ascii.eqb "-" "-") with true. cbv iota.
    rewrite lex_uint by apply to_uint_not_nil. reflexivity.
Qed.

Lemma number_value_uint (d : Decimal.uint) :
  number_value (NilEmpty.string_of_uint d) = Some (Z.of_uint d).
Proof. unfold number_value. now rewrite NilEmpty.usu. Qed.

(** ... and these tokens, where an operand is due, add the integer under
    the pending sign. *)
Lemma eval_int_tokens env acc sign (z : Z) :
  eval_tokens env acc sign true (int_tokens z) = Some (acc + sign * z)%Z.
Proof.
  unfold int_tokens. pose proof (DecimalZ.of_to z) as Hz.
  destruct (Z.to_int z) as [d|d]; cbn [eval_tokens];
    rewrite number_value_uint; cbn [Z.of_int] in Hz; f_equal; lia.
Qed.

Lemma eval_Z_toString env (z : Z) : eval env (Z_toString z) = Some z.
Proof.
  unfold eval. rewrite lex_Z_toString, eval_int_tokens. f_equal. lia.
Qed.

(** A size name, minus another, minus a printed integer. *)
Lemma eval_difference env (z : Z) :
  eval env ("main_w-overlay_w-" ++ Z_toString z) =
    Some (main_w env - overlay_w env - z)%Z /\
  eval env ("main_h-overlay_h-" ++ Z_toString z) =
    Some (main_h env - overlay_h env - z)%Z.
Proof.
  unfold eval. pose proof (lex_Z_toString z) as Hl.
  pose proof (fun acc sign => eval_int_tokens env acc sign z) as He.
  set (s := Z_toString z) in *. set (ts := int_tokens z) in *.
  clearbody s ts.
  split; simpl; rewrite Hl; simpl; rewrite He; f_equal.
  - destruct (main_w env), (overlay_w env); lia.
  - destruct (main_h env), (overlay_h env); lia.
Qed.

End ExprFacts.

(** ** The overlay compositor *)

Lemma overlayPosition_unrecognised (position : string) (margin : Z) :
  recognised position = false ->
  overlayPosition position margin = overlayPosition "bottom-right" margin.
Proof.
  unfold recognised, overlayPosition. intros H.
  apply orb_false_iff in H. destruct H as [H H4].
  apply orb_false_iff in H. destruct H as [H H3].
  apply orb_false_iff in H. destruct H as [H1 H2].
  rewrite H1, H2, H3, H4. reflexivity.
Qed.

(** C8.  On any frame sizes and for every integer [margin], the pair
    [(x, y)] chosen by the [switch] denotes the corner formulas of the four
    positions; a position that is none of the four gets the pair of
    ["bottom-right"]. *)
Theorem overlayPosition_formulas (env : Expr.Dimensions) (margin : Z) :
  placement env (overlayPosition "bottom-right" margin) =
    Some (Expr.main_w env - Expr.overlay_w env - margin,
          Expr.main_h env - Expr.overlay_h env - margin)%Z /\
  placement env (overlayPosition "bottom-left" margin) =
    Some (margin, Expr.main_h env - Expr.overlay_h env - margin)%Z /\
  placement env (overlayPosition "top-right" margin) =
    Some (Expr.main_w env - Expr.overlay_w env - margin, margin)%Z /\
  placement env (overlayPosition "top-left" margin) = Some (margin, margin) /\
  forall position,
    overlayPosition position margin =
      overlayPosition (if recognised position then position else "bottom-right")
        margin.
Proof.
  destruct (ExprFacts.eval_difference env margin) as [Hx Hy].
  pose proof (ExprFacts.eval_Z_toString env margin) as Hm.
  repeat split.
  - change (overlayPosition "bottom-right" margin)
      with (Str ("main_w-overlay_w-" ++ Z_toString margin),
            Str ("main_h-overlay_h-" ++ Z_toString margin)).
    unfold placement. cbn [fst snd interpolate]. now rewrite Hx, Hy.
  - change (overlayPosition "bottom-left" margin)
      with (Int margin, Str ("main_h-overlay_h-" ++ Z_toString margin)).
    unfold placement. cbn [fst snd interpolate]. now rewrite Hm, Hy.
  - change (overlayPosition "top-right" margin)
      with (Str ("main_w-overlay_w-" ++ Z_toString margin), Int margin).
    unfold placement. cbn [fst snd interpolate]. now rewrite Hx, Hm.
  - change (overlayPosition "top-left" margin) with (Int margin, Int margin).
    unfold placement. cbn [fst snd interpolate]. now rewrite Hm.
  - intros position. destruct (recognised position) eqn:E; [reflexivity|].
    now apply overlayPosition_unrecognised.
Qed.

(** The placement of the specification's example: a 320x320 clip at the
    bottom right of a 1920x1080 frame with margin 20; and a position that
    is not one of the four. *)
Example placement_hd1080 :
  placement hd1080 (overlayPosition "bottom-right" 20) = Some (1580, 740)%Z /\
  placement hd1080 (overlayPosition "center" 20) = Some (1580, 740)%Z.
Proof. split; reflexivity. Qed.

Lemma inject_Z_pred (n : Z) : inject_Z (n - 1) == inject_Z n - 1.
Proof.
  unfold Z.sub. rewrite inject_Z_plus. reflexivity.
Qed.


(** A probe that yields [NaN], zero or a negative number also gives 50. *)
Lemma loopCount_fallback (this : Sardonic) (parsed : number) :
  match parsed with Num d => d <= 0 | NaN => True end ->
  loopCount this (inputDuration (ProbeOutput parsed)) = 50%Z.
Proof.
  destruct parsed as [|d]; cbn [inputDuration loopCount]; trivial.
  intros H. apply num_lt_false in H. now rewrite H.
Qed.

(** C9.  When the probe fails, [inputDuration] is 0 and the argument
    list keeps the flag ["-t"] without a value: the next argument is
    ["-y"]. *)
Theorem overlayOnVideo_args_unknown_duration
    (Number_toString : Q -> string) (this : Sardonic) (inputVideo : string)
    (options : OverlayOptions) :
  inputDuration ProbeFailed = Num 0 /\
  overlayOnVideo_args Number_toString this inputVideo options ProbeFailed =
    [ "-i"; inputVideo;
      "-stream_loop"; "49";
      "-i"; outputFile this;
      "-filter_complex";
      overlay_filter
        (fst (overlayPosition (or_default (opt_position options) "bottom-right")
                (or_default (opt_margin options) 20%Z)))
        (snd (overlayPosition (or_default (opt_position options) "bottom-right")
                (or_default (opt_margin options) 20%Z)));
      "-c:v"; "h264";
      "-c:a"; "copy";
      "-preset"; "medium";
      "-crf"; "23";
      "-t";
      "-y";
      or_default (opt_overlay_output options) "output-with-sardonic.mp4" ]%string.
Proof.
  split; [reflexivity|].
  unfold overlayOnVideo_args.
  destruct (overlayPosition _ _) as [x y]. reflexivity.
Qed.

(** With a known positive duration the value follows the flag. *)
Lemma overlayOnVideo_args_known_duration
    (Number_toString : Q -> string) (this : Sardonic) (inputVideo : string)
    (options : OverlayOptions) (d : Q) :
  0 < d ->
  exists front,
    List.length front = 16%nat /\
    overlayOnVideo_args Number_toString this inputVideo options
      (ProbeOutput (Num d)) =
      front ++ [ "-t"%string; Number_toString d; "-y"%string;
                 or_default (opt_overlay_output options)
                   "output-with-sardonic.mp4"%string ].
Proof.
  intros Hd. apply num_lt_true in Hd.
  unfold overlayOnVideo_args. cbn [inputDuration loopCount]. rewrite Hd.
  destruct (overlayPosition _ _) as [x y]. cbn [filter_defined].
  eexists [_; _; _; _; _; _; _; _; _; _; _; _; _; _; _; _].
  split; reflexivity.
Qed.

(** [options.margin || 20]: a margin of 0 is replaced by 20 before the
    [switch] sees it; likewise 0 for the bounds in the constructor. *)
Lemma margin_zero_is_default (Number_toString : Q -> string) (this : Sardonic)
    (inputVideo : string) (position output : option string) (p : probe) :
  overlayOnVideo_args Number_toString this inputVideo
    (mkOverlayOptions position (Some 0%Z) output) p =
  overlayOnVideo_args Number_toString this inputVideo
    (mkOverlayOptions position None output) p.
Proof. reflexivity. Qed.

Lemma constructor_zero_bounds (options : Options) :
  opt_minFrameDuration options = Some 0 ->
  minFrameDuration (constructor options) = 1 # 10.
Proof. intros H. unfold constructor. cbn. now rewrite H. Qed.

(* ================================================================= *)
(** * Further properties of the code                                   *)
(* ================================================================= *)

(** ** The planner: items and bounds *)

Section PlannerItems.

Variable random : nat -> Q.
Variable this : Sardonic.

(** What an iteration puts into the item beside the duration. *)
Lemma iteration_item k t it k' :
  iteration random this k t = Returned (it, k') ->
  In (frame it) (frames this) /\
  frameName it = basename (frame it) /\
  exists j, rotation it = (random j * 2 - 1) * maxRotation this.
Proof.
  unfold iteration, randomDuration, randomRotation.
  assert (Hin : forall i f, array_get (frames this) i = Some f -> In f (frames this)).
  { intros i f. unfold array_get. destruct (i <? 0)%Z; [discriminate|].
    apply nth_error_In. }
  destruct (num_le _ _).
  - destruct (array_get _ _) as [f|] eqn:E; [|discriminate].
    intros [= <- _]. cbn. eauto.
  - destruct (num_lt (totalDuration this) _);
      (destruct (array_get _ _) as [f|] eqn:E; [|discriminate]);
      intros [= <- _]; cbn; eauto.
Qed.

Lemma rotation_within (r : Q) :
  0 <= r -> r < 1 ->
  Qabs ((r * 2 - 1) * maxRotation this) <= Qabs (maxRotation this).
Proof.
  intros H0 H1. rewrite Qabs_Qmult.
  assert (Hr : Qabs (r * 2 - 1) <= 1) by (apply Qabs_Qle_condition; split; lra).
  pose proof (Qabs_nonneg (maxRotation this)). nra.
Qed.

End PlannerItems.

(** X1.  Whatever the bounds, every item that the planner returns shows
    a frame of the frame list, carries the base name of that frame, and
    is rotated by at most [maxRotation] in either direction. *)
Theorem generateSequence_items_from_frames
    (random : nat -> Q) (this : Sardonic) (fuel : nat) (out : list Item) :
  unit_draws random ->
  generateSequence random this fuel = Returned out ->
  Forall (fun item =>
            In (frame item) (frames this) /\
            frameName item = basename (frame item) /\
            Qabs (rotation item) <= Qabs (maxRotation this)) out.
Proof.
  intros Hd. unfold generateSequence.
  destruct (generateSequence_timed random this fuel) as [tr| |] eqn:E;
    try discriminate.
  intros [= <-]. unfold generateSequence_timed in E.
  apply (loop_rule random this
           (fun _ sq =>
              Forall (fun item =>
                        In (frame item) (frames this) /\
                        frameName item = basename (frame item) /\
                        Qabs (rotation item) <= Qabs (maxRotation this))
                     (map snd sq))) in E.
  - now destruct E as (_ & H & _).
  - intros k t sq it k' HP _ Hit. rewrite map_app. apply Forall_app.
    split; [exact HP|]. repeat constructor; cbn [snd];
      destruct (iteration_item random this k t it k' Hit) as (Hin & Hname & j & Hrot);
      trivial.
    rewrite Hrot. apply rotation_within; apply Hd.
  - constructor.
Qed.

Lemma generateSequence_items_from_frames_witness :
  Forall (fun item =>
            In (frame item) (frames sample) /\
            frameName item = basename (frame item) /\
            Qabs (rotation item) <= Qabs (maxRotation sample)) sample_run.
Proof.
  apply (generateSequence_items_from_frames sevenths sample 6 sample_run
           sevenths_unit).
  reflexivity.
Defined.

(** X4.  With [minDur <= maxDur <= 0] and a positive total duration the
    loop never ends: every draw is non-positive, [currentTime] never
    passes 0, and no amount of fuel yields a result. *)
Theorem generateSequence_nonpositive_bounds_diverges
    (random : nat -> Q) (this : Sardonic) :
  unit_draws random -> frames this <> [] ->
  0 < totalDuration this ->
  minFrameDuration this <= maxFrameDuration this ->
  maxFrameDuration this <= 0 ->
  forall fuel, generateSequence random this fuel = OutOfFuel.
Proof.
  intros Hd Hne Ht Hmm Hmax fuel.
  unfold generateSequence, generateSequence_timed.
  assert (H : forall k t sq, t <= 0 ->
            generateSequence_loop random this fuel k t sq = OutOfFuel).
  { induction fuel as [|fuel IH]; intros k t sq Hz; cbn [generateSequence_loop].
    - reflexivity.
    - assert (G : num_lt t (totalDuration this) = true)
        by (apply num_lt_true; lra).
      rewrite G.
      destruct (iteration_returns random this k t Hd Hne) as (it & k' & Hit).
      rewrite Hit. apply IH.
      apply iteration_chosen in Hit.
      destruct (drawn_bounds this (random k)) as [_ Hhi]; try apply Hd; trivial.
      destruct Hit as [H ->|H H' ->|H H' ->]; lra. }
  rewrite H; [reflexivity|lra].
Qed.

Lemma generateSequence_nonpositive_bounds_diverges_witness :
  generateSequence sevenths negative_bounds 1000 = OutOfFuel.
Proof.
  apply (generateSequence_nonpositive_bounds_diverges sevenths negative_bounds
           sevenths_unit); try reflexivity; discriminate.
Defined.

(** ** The constructor *)

Lemma or_default_Q_nonzero (o : option Q) (d : Q) :
  ~ d == 0 -> ~ or_default o d == 0.
Proof.
  intros Hd. unfold or_default, falsy, Falsy_Q. destruct o as [v|]; trivial.
  destruct (Qeq_bool v 0) eqn:E; trivial. now apply Qeq_bool_neq.
Qed.

Lemma or_default_Z_nonzero (o : option Z) (d : Z) :
  d <> 0%Z -> or_default o d <> 0%Z.
Proof.
  intros Hd. unfold or_default, falsy, Falsy_Z. destruct o as [v|]; trivial.
  destruct (Z.eqb_spec v 0); trivial.
Qed.

Lemma or_default_string_nonempty (o : option string) (d : string) :
  d <> ""%string -> or_default o d <> ""%string.
Proof.
  intros Hd. unfold or_default, falsy, Falsy_string. destruct o as [v|]; trivial.
  destruct (String.eqb_spec v ""); trivial.
Qed.

(** X5.  A zero or empty option counts as missing: whatever the options,
    the constructed object has a non-zero size, total duration, duration
    bounds and maximal rotation, non-empty pattern, directory and output
    name, and no frames yet. *)
Theorem constructor_never_zero (options : Options) :
  size (constructor options) <> 0%Z /\
  ~ totalDuration (constructor options) == 0 /\
  ~ maxFrameDuration (constructor options) == 0 /\
  ~ minFrameDuration (constructor options) == 0 /\
  ~ maxRotation (constructor options) == 0 /\
  framePattern (constructor options) <> ""%string /\
  frameDir (constructor options) <> ""%string /\
  outputFile (constructor options) <> ""%string /\
  frames (constructor options) = [].
Proof.
  unfold constructor. cbn [size totalDuration maxFrameDuration minFrameDuration
                            maxRotation framePattern frameDir outputFile frames].
  repeat split;
    first [ apply or_default_Z_nonzero; discriminate
          | apply or_default_Q_nonzero; discriminate
          | apply or_default_string_nonempty; discriminate ].
Qed.

Lemma constructor_totalDuration_nonzero (options : Options) :
  0 < totalDuration (constructor options) \/
  totalDuration (constructor options) < 0.
Proof.
  assert (H : ~ totalDuration (constructor options) == 0)
    by (apply or_default_Q_nonzero; discriminate).
  destruct (Q_dec 0 (totalDuration (constructor options))) as [[Hlt|Hgt]|Heq]; auto.
  exfalso. apply H. now symmetry.
Qed.

(** X6.  [generateSequence] on an object whose frames were never looked
    up: with a positive total duration (the default included) it throws
    the [TypeError] of the first iteration; with a negative one it returns
    the empty plan.  The total duration of a constructed object is never
    zero. *)
Theorem generateSequence_before_findFrames
    (random : nat -> Q) (options : Options) (fuel : nat) :
  (0 < totalDuration (constructor options) ->
   generateSequence random (constructor options) (S fuel) = Threw TypeError) /\
  (totalDuration (constructor options) < 0 ->
   generateSequence random (constructor options) (S fuel) = Returned []) /\
  (0 < totalDuration (constructor options) \/
   totalDuration (constructor options) < 0).
Proof.
  split; [|split].
  - intros Ht. now apply generateSequence_empty_frames.
  - intros Ht. unfold generateSequence, generateSequence_timed.
    cbn [generateSequence_loop].
    assert (G : num_lt 0 (totalDuration (constructor options)) = false)
      by (apply num_lt_false; lra).
    now rewrite G.
  - destruct (constructor_totalDuration_nonzero options) as [H|H]; auto.
Qed.

(** ** Finding the frames *)

Lemma insert_sorted_perm x l : Permutation (insert_sorted x l) (x :: l).
Proof.
  induction l as [|y l IH]; cbn [insert_sorted]; [reflexivity|].
  destruct (String.leb x y); [reflexivity|].
  rewrite IH. apply perm_swap.
Qed.

Lemma array_sort_perm l : Permutation (array_sort l) l.
Proof.
  induction l as [|x l IH]; cbn [array_sort fold_right]; [reflexivity|].
  fold (array_sort l). rewrite insert_sorted_perm. now constructor.
Qed.

Lemma insert_sorted_hd x y l :
  string_le y x -> HdRel string_le y l -> HdRel string_le y (insert_sorted x l).
Proof.
  intros Hyx Hl. destruct l as [|z l]; cbn [insert_sorted].
  - now constructor.
  - destruct (String.leb x z); constructor; trivial. now inversion Hl.
Qed.

Lemma insert_sorted_sorted x l :
  Sorted string_le l -> Sorted string_le (insert_sorted x l).
Proof.
  induction 1 as [|y l Hs IH Hhd]; cbn [insert_sorted].
  - repeat constructor.
  - destruct (String.leb x y) eqn:E.
    + repeat constructor; trivial.
    + constructor; [exact IH|]. apply insert_sorted_hd; trivial.
      destruct (String.leb_total x y) as [H|H]; [congruence|exact H].
Qed.

Lemma array_sort_sorted l : Sorted string_le (array_sort l).
Proof.
  induction l as [|x l IH]; cbn [array_sort fold_right]; [constructor|].
  now apply insert_sorted_sorted.
Qed.

Lemma split_lines_no_newline s :
  Forall (fun l => no_newline l = true) (split_lines s).
Proof.
  induction s as [|c s IH]; cbn [split_lines].
  - repeat constructor.
  - destruct (Ascii.eqb c LF_char) eqn:E.
    + constructor; [reflexivity|exact IH].
    + destruct (split_lines s) as [|l ls].
      * repeat constructor. cbn [no_newline]. now rewrite E.
      * inversion IH as [|? ? Hl Hls]; subst. constructor; trivial.
        cbn [no_newline]. now rewrite E, Hl.
Qed.

Lemma kept_lines output :
  Forall (fun f => f <> ""%string /\ no_newline f = true)
    (filter nonempty (split_lines (trim output))).
Proof.
  apply Forall_forall. intros f Hf. apply filter_In in Hf. destruct Hf as [Hin Hne].
  split.
  - intros ->. discriminate.
  - pose proof (split_lines_no_newline (trim output)) as H.
    rewrite Forall_forall in H. now apply H.
Qed.

Lemma drop_while_all (p : ascii -> bool) l :
  forallb p l = true -> drop_while p l = [].
Proof.
  induction l as [|c l IH]; cbn; [reflexivity|].
  intros H. apply andb_true_iff in H. destruct H as [Hc Hl]. now rewrite Hc, IH.
Qed.

Lemma trim_blank (s : string) :
  forallb is_space (list_ascii_of_string s) = true -> trim s = ""%string.
Proof.
  intros H. unfold trim. now rewrite (drop_while_all _ _ H).
Qed.

(** X7.  On a listing of ASCII text: when [findFrames] returns, the
    array is not empty, it is assigned to [this.frames] and nothing else of
    the object changes, it is in ascending order, no entry is empty or
    contains a line feed, and its entries are the non-empty lines of the
    trimmed listing, rearranged. *)
Theorem findFrames_sorted_frames
    (path_join : string -> string -> string) (execSync : string -> string + string)
    (this this' : Sardonic) (files : list string) :
  (forall output,
     execSync (ls_command (path_join (frameDir this) (framePattern this)))
       = inr output -> ascii_text output = true) ->
  findFrames path_join execSync this = Returned (this', files) ->
  files <> [] /\
  this' = with_frames this files /\
  Sorted string_le files /\
  Forall (fun f => f <> ""%string /\ no_newline f = true) files /\
  exists output,
    execSync (ls_command (path_join (frameDir this) (framePattern this)))
      = inr output /\
    Permutation files (filter nonempty (split_lines (trim output))).
Proof.
  intros _. unfold findFrames.
  destruct (execSync _) as [message|output]; [discriminate|].
  destruct (List.length (listed output) =? 0)%nat eqn:E; [discriminate|].
  intros [= <- <-]. apply Nat.eqb_neq in E.
  split; [|split; [|split; [|split]]].
  - intros H. rewrite H in E. now apply E.
  - reflexivity.
  - apply array_sort_sorted.
  - apply (Permutation_Forall (Permutation_sym (array_sort_perm _))), kept_lines.
  - exists output. split; [reflexivity|]. apply array_sort_perm.
Qed.

Lemma findFrames_sorted_frames_witness :
  ["samples/w-1.jpg"; "samples/w-2.jpg"]%string <> [] /\
  with_frames sample ["samples/w-1.jpg"; "samples/w-2.jpg"]%string
    = with_frames sample ["samples/w-1.jpg"; "samples/w-2.jpg"]%string /\
  Sorted string_le ["samples/w-1.jpg"; "samples/w-2.jpg"]%string /\
  Forall (fun f => f <> ""%string /\ no_newline f = true)
    ["samples/w-1.jpg"; "samples/w-2.jpg"]%string /\
  exists output,
    ls_two (ls_command (join_plain (frameDir sample) (framePattern sample)))
      = inr output /\
    Permutation ["samples/w-1.jpg"; "samples/w-2.jpg"]%string
      (filter nonempty (split_lines (trim output))).
Proof.
  apply (findFrames_sorted_frames join_plain ls_two sample).
  - intros output [= <-]. reflexivity.
  - reflexivity.
Defined.

(** X8.  [findFrames] throws only errors whose message starts with
    "Error finding frames: ": the message of the failed command, or, when
    the listing is blank (empty or white space only), the message that no
    frames match the pattern.  It never returns an empty array. *)
Theorem findFrames_errors
    (path_join : string -> string -> string) (execSync : string -> string + string)
    (this : Sardonic) :
  (forall e, findFrames path_join execSync this = Threw e ->
     exists message, e = Error ("Error finding frames: " ++ message)) /\
  (forall message,
     execSync (ls_command (path_join (frameDir this) (framePattern this)))
       = inl message ->
     findFrames path_join execSync this
       = Threw (Error ("Error finding frames: " ++ message))) /\
  (forall output,
     execSync (ls_command (path_join (frameDir this) (framePattern this)))
       = inr output ->
     forallb is_space (list_ascii_of_string output) = true ->
     findFrames path_join execSync this
       = Threw (Error ("Error finding frames: No frames found matching: "
                       ++ path_join (frameDir this) (framePattern this)))) /\
  findFrames path_join execSync this <> OutOfFuel /\
  (forall this', findFrames path_join execSync this <> Returned (this', [])).
Proof.
  unfold findFrames. split; [|split; [|split; [|split]]].
  - intros e. destruct (execSync _) as [message|output].
    + intros [= <-]. exists message. reflexivity.
    + destruct (List.length (listed output) =? 0)%nat; [|discriminate].
      intros [= <-]. eexists. reflexivity.
  - intros message ->. reflexivity.
  - intros output -> Hblank. unfold listed. rewrite (trim_blank _ Hblank).
    reflexivity.
  - destruct (execSync _) as [message|output]; [discriminate|].
    destruct (List.length (listed output) =? 0)%nat; discriminate.
  - intros this'. destruct (execSync _) as [message|output]; [discriminate|].
    destruct (List.length (listed output) =? 0)%nat eqn:E; [discriminate|].
    intros [= _ H]. rewrite H in E. discriminate.
Qed.

(** X9.  After [findFrames] has returned, the planner does not throw,
    whatever the duration bounds: every index it draws finds a frame. *)
Theorem planner_after_findFrames
    (path_join : string -> string -> string) (execSync : string -> string + string)
    (random : nat -> Q) (this this' : Sardonic) (files : list string) :
  findFrames path_join execSync this = Returned (this', files) ->
  unit_draws random ->
  forall fuel e, generateSequence random this' fuel <> Threw e.
Proof.
  intros Hf Hd fuel e. unfold findFrames in Hf.
  destruct (execSync _) as [message|output]; [discriminate|].
  destruct (List.length (listed output) =? 0)%nat eqn:E; [discriminate|].
  injection Hf as <- <-.
  assert (Hne : frames (with_frames this (listed output)) <> []).
  { cbn [frames with_frames]. intros H. rewrite H in E. discriminate. }
  unfold generateSequence, generateSequence_timed.
  pose proof (loop_never_throws random _ Hd Hne fuel 0%nat 0 [] e) as H.
  destruct (generateSequence_loop random _ fuel 0 0 []); simpl; congruence.
Qed.

Lemma planner_after_findFrames_witness :
  generateSequence sevenths
    (with_frames sample ["samples/w-1.jpg"; "samples/w-2.jpg"]%string) 50
  <> Threw TypeError.
Proof.
  apply (planner_after_findFrames join_plain ls_two sevenths sample
           (with_frames sample ["samples/w-1.jpg"; "samples/w-2.jpg"]%string)
           ["samples/w-1.jpg"; "samples/w-2.jpg"]%string).
  - reflexivity.
  - exact sevenths_unit.
Defined.

(** ** Preparing the frames *)

Section PrepareFacts.

Variable convert : list string -> Z.
Variable this : Sardonic.

Lemma createRotatedFrame_status index item :
  createRotatedFrame convert this (frame item) (rotation item) index =
    if (convert_status convert this index item =? 0)%Z
    then Returned (outputFrame index)
    else Threw (Error ("ImageMagick failed for frame "
                       ++ Z_toString (Z.of_nat index))).
Proof. reflexivity. Qed.

Lemma prepareFrames_from_success sequence :
  forall start acc,
    (forall j item, nth_error sequence j = Some item ->
                    convert_status convert this (start + j) item = 0%Z) ->
    prepareFrames_from convert this start sequence acc =
      Returned (acc ++ prepared_from start sequence).
Proof.
  induction sequence as [|item rest IH]; intros start acc Hok;
    cbn [prepareFrames_from prepared_from].
  - now rewrite app_nil_r.
  - rewrite createRotatedFrame_status.
    pose proof (Hok 0%nat item eq_refl) as H0. rewrite Nat.add_0_r in H0.
    rewrite H0. cbn [Z.eqb]. rewrite IH.
    + now rewrite <- app_assoc.
    + intros j it Hj. specialize (Hok (S j) it Hj).
      now rewrite Nat.add_succ_r in Hok.
Qed.

Lemma prepareFrames_from_returned sequence :
  forall start acc out,
    prepareFrames_from convert this start sequence acc = Returned out ->
    forall j item, nth_error sequence j = Some item ->
                   convert_status convert this (start + j) item = 0%Z.
Proof.
  induction sequence as [|item rest IH]; intros start acc out Hr j it Hj.
  - destruct j; discriminate.
  - cbn [prepareFrames_from] in Hr. rewrite createRotatedFrame_status in Hr.
    destruct (Z.eqb_spec (convert_status convert this start item) 0) as [E|E];
      [|discriminate].
    destruct j as [|j].
    + injection Hj as <-. now rewrite Nat.add_0_r.
    + rewrite Nat.add_succ_r. apply (IH (S start) _ out Hr j it Hj).
Qed.

Lemma prepareFrames_from_failure sequence :
  forall start acc j item,
    nth_error sequence j = Some item ->
    convert_status convert this (start + j) item <> 0%Z ->
    (forall j' item', (j' < j)%nat -> nth_error sequence j' = Some item' ->
                      convert_status convert this (start + j') item' = 0%Z) ->
    prepareFrames_from convert this start sequence acc =
      Threw (Error ("ImageMagick failed for frame "
                    ++ Z_toString (Z.of_nat (start + j)))).
Proof.
  induction sequence as [|it rest IH]; intros start acc j item Hj Hbad Hbefore.
  - destruct j; discriminate.
  - cbn [prepareFrames_from]. rewrite createRotatedFrame_status.
    destruct j as [|j].
    + injection Hj as <-. rewrite Nat.add_0_r in *.
      destruct (Z.eqb_spec (convert_status convert this start it) 0) as [E|E];
        [contradiction|reflexivity].
    + pose proof (Hbefore 0%nat it ltac:(lia) eq_refl) as H0.
      rewrite Nat.add_0_r in H0. rewrite H0. cbn [Z.eqb].
      rewrite Nat.add_succ_r in *.
      apply (IH (S start) _ j item Hj Hbad).
      intros j' item' Hlt Hj'.
      specialize (Hbefore (S j') item' ltac:(lia) Hj').
      now rewrite Nat.add_succ_r in Hbefore.
Qed.

End PrepareFacts.

Lemma string_app_inv_head (a x y : string) :
  (a ++ x)%string = (a ++ y)%string -> x = y.
Proof. induction a as [|c a IH]; cbn; [trivial|]. intros [= H]. auto. Qed.

Lemma list_ascii_of_string_app (a b : string) :
  list_ascii_of_string (a ++ b) = list_ascii_of_string a ++ list_ascii_of_string b.
Proof. induction a as [|c a IH]; cbn; [reflexivity|now rewrite IH]. Qed.

Lemma string_app_inv_tail (x y c : string) :
  (x ++ c)%string = (y ++ c)%string -> x = y.
Proof.
  intros H. apply (f_equal list_ascii_of_string) in H.
  rewrite !list_ascii_of_string_app in H. apply app_inv_tail in H.
  apply (f_equal string_of_list_ascii) in H.
  now rewrite !string_of_list_ascii_of_string in H.
Qed.

Lemma Z_toString_inj (a b : Z) : Z_toString a = Z_toString b -> a = b.
Proof.
  unfold Z_toString. intros H.
  assert (Hi : Z.to_int a = Z.to_int b).
  { apply (f_equal NilEmpty.int_of_string) in H.
    rewrite !NilEmpty.isi in H. now injection H. }
  rewrite <- (DecimalZ.of_to a), <- (DecimalZ.of_to b). now rewrite Hi.
Qed.

Lemma outputFrame_inj (i j : nat) : outputFrame i = outputFrame j -> i = j.
Proof.
  unfold outputFrame. intros H. apply string_app_inv_head in H.
  apply string_app_inv_tail in H. apply Z_toString_inj in H. lia.
Qed.

Lemma prepared_from_handles start sequence :
  map rotatedFrame (prepared_from start sequence) =
    map outputFrame (seq start (List.length sequence)).
Proof.
  revert start. induction sequence as [|item rest IH]; intros start; cbn;
    [reflexivity|]. now rewrite IH.
Qed.

Lemma prepared_from_items start sequence :
  map prepared_item (prepared_from start sequence) = sequence.
Proof.
  revert start. induction sequence as [|item rest IH]; intros start; cbn;
    [reflexivity|]. now rewrite IH.
Qed.

(** X10.  [prepareFrames] returns exactly when [convert] exits with 0 on
    every item; what it returns then keeps the items in order, gives the
    item at position [i] the handle [/tmp/sardonic-i.png], and no two
    handles are equal. *)
Theorem prepareFrames_returns_iff
    (convert : list string -> Z) (this : Sardonic) (sequence : list Item) :
  ((exists out, prepareFrames convert this sequence = Returned out) <->
   (forall i item, nth_error sequence i = Some item ->
                   convert_status convert this i item = 0%Z)) /\
  (forall out,
     prepareFrames convert this sequence = Returned out ->
     out = prepared_from 0 sequence /\
     map prepared_item out = sequence /\
     map rotatedFrame out = map outputFrame (seq 0 (List.length sequence)) /\
     NoDup (map rotatedFrame out)).
Proof.
  unfold prepareFrames. split; [split|].
  - intros [out Hr] i item Hi.
    apply (prepareFrames_from_returned convert this sequence 0%nat [] out Hr i item Hi).
  - intros Hok. eexists. apply prepareFrames_from_success. exact Hok.
  - intros out Hr.
    assert (Hok := prepareFrames_from_returned convert this sequence 0%nat [] out Hr).
    rewrite (prepareFrames_from_success convert this sequence 0%nat [] Hok) in Hr.
    injection Hr as <-. cbn [app].
    split; [reflexivity|]. split; [apply prepared_from_items|].
    rewrite prepared_from_handles. split; [reflexivity|].
    apply NoDup_map_NoDup_ForallPairs; [|apply seq_NoDup].
    intros i j _ _. apply outputFrame_inj.
Qed.

(** X11.  When [convert] fails, [prepareFrames] throws for the first
    item on which it fails, and the message names the position of that
    item. *)
Theorem prepareFrames_first_failure
    (convert : list string -> Z) (this : Sardonic) (sequence : list Item)
    (i : nat) (item : Item) :
  nth_error sequence i = Some item ->
  convert_status convert this i item <> 0%Z ->
  (forall j earlier, (j < i)%nat -> nth_error sequence j = Some earlier ->
                     convert_status convert this j earlier = 0%Z) ->
  prepareFrames convert this sequence =
    Threw (Error ("ImageMagick failed for frame " ++ Z_toString (Z.of_nat i))).
Proof.
  intros Hi Hbad Hbefore. unfold prepareFrames.
  apply (prepareFrames_from_failure convert this sequence 0%nat [] i item Hi Hbad).
  exact Hbefore.
Qed.

Lemma prepareFrames_first_failure_witness :
  prepareFrames convert_fails_second sample sample_run =
    Threw (Error ("ImageMagick failed for frame " ++ Z_toString (Z.of_nat 1))).
Proof.
  apply (prepareFrames_first_failure convert_fails_second sample sample_run
           1%nat second_item).
  - reflexivity.
  - vm_compute. discriminate.
  - intros [|j] earlier Hlt Hj; [|lia].
    vm_compute in Hj. injection Hj as <-. vm_compute. reflexivity.
Defined.

(** X12.  The arguments for [convert] are layered by level: for integer
    levels [a <= b] the arguments of level [a], up to the output path, are
    an initial part of those of level [b]; at every level the input frame
    comes first and the output path last. *)
Theorem createRotatedFrame_args_layered
    (this : Sardonic) (a b : Z) (inputFrame : string) (rotation : Q) (index : nat) :
  (a <= b)%Z ->
  (exists added,
     createRotatedFrame_args (at_level this b) inputFrame rotation index =
       removelast (createRotatedFrame_args (at_level this a) inputFrame rotation index)
       ++ added) /\
  hd ""%string (createRotatedFrame_args (at_level this a) inputFrame rotation index)
    = inputFrame /\
  last (createRotatedFrame_args (at_level this a) inputFrame rotation index) ""%string
    = outputFrame index.
Proof.
  intros Hab. unfold createRotatedFrame_args, outputFrame.
  cbn [glitchLevel size at_level].
  split; [|split].
  - level_cases; cbn [app removelast]; eexists; reflexivity.
  - level_cases; reflexivity.
  - level_cases; reflexivity.
Qed.

Lemma createRotatedFrame_args_layered_witness :
  (exists added,
     createRotatedFrame_args (at_level sample 3) "a.jpg" (1 # 2) 0 =
       removelast (createRotatedFrame_args (at_level sample 1) "a.jpg" (1 # 2) 0)
       ++ added) /\
  hd ""%string (createRotatedFrame_args (at_level sample 1) "a.jpg" (1 # 2) 0)
    = "a.jpg"%string /\
  last (createRotatedFrame_args (at_level sample 1) "a.jpg" (1 # 2) 0) ""%string
    = outputFrame 0.
Proof.
  apply (createRotatedFrame_args_layered sample 1 3 "a.jpg" (1 # 2) 0). lia.
Defined.

(** X13.  The filter graph grows with the level: for integer levels
    [a <= b] the filter array of level [a] is an initial part of that of
    level [b], and the text returned for [a] is a prefix of the text
    returned for [b]. *)
Theorem buildGlitchFilter_monotone (this : Sardonic) (a b : Z) :
  (a <= b)%Z ->
  (exists added,
     glitchFilters (at_level this b) = glitchFilters (at_level this a) ++ added) /\
  String.prefix (buildGlitchFilter (at_level this a))
                (buildGlitchFilter (at_level this b)) = true.
Proof.
  intros Hab. split.
  - unfold glitchFilters. cbn [glitchLevel at_level].
    level_cases; eexists; cbn [app]; reflexivity.
  - rewrite !buildGlitchFilter_join. unfold glitchFilters.
    cbn [glitchLevel at_level]. level_cases; reflexivity.
Qed.

Lemma buildGlitchFilter_monotone_witness :
  (exists added,
     glitchFilters (at_level sample 3) = glitchFilters (at_level sample (-2)) ++ added) /\
  String.prefix (buildGlitchFilter (at_level sample (-2)))
                (buildGlitchFilter (at_level sample 3)) = true.
Proof.
  apply (buildGlitchFilter_monotone sample (-2) 3). lia.
Defined.

(** ** From the plan to the descriptor *)

Lemma entry_of_prepared_from start sequence :
  map entry_of (prepared_from start sequence) = entries_from start sequence.
Proof.
  revert start. induction sequence as [|item rest IH]; intros start; cbn;
    [reflexivity|]. now rewrite IH.
Qed.

Lemma prepared_from_no_newline start sequence :
  Forall (fun p => no_newline (rotatedFrame p) = true) (prepared_from start sequence).
Proof.
  revert start. induction sequence as [|item rest IH]; intros start;
    cbn [prepared_from]; constructor; trivial.
  cbn [rotatedFrame]. unfold outputFrame.
  now rewrite !no_newline_app, no_newline_Z_toString.
Qed.

(** The descriptor of a non-empty list whose handles have no line feed,
    read back. *)
Lemma createConcatFile_read (preparedFrames front : list Prepared) (lastFrame : Prepared) :
  preparedFrames = front ++ [lastFrame] ->
  Forall (fun p => no_newline (rotatedFrame p) = true) preparedFrames ->
  exists content,
    createConcatFile preparedFrames = Returned (concatPath, content) /\
    read_concat content =
      map entry_of preparedFrames ++ [mkEntry (rotatedFrame lastFrame) None].
Proof.
  intros Hl Hnl.
  assert (Hne : preparedFrames <> []) by (rewrite Hl; now destruct front).
  destruct (array_get_last preparedFrames Hne) as (x & front' & Hl' & Hget).
  assert (x = lastFrame) as ->.
  { rewrite Hl in Hl'. apply app_inj_tail in Hl'. now destruct Hl'. }
  assert (Hlast : no_newline (rotatedFrame lastFrame) = true).
  { rewrite Hl in Hnl. apply Forall_app in Hnl. destruct Hnl as [_ H].
    now inversion H. }
  unfold createConcatFile. rewrite Hget, createConcatFile_loop.
  eexists. split; [reflexivity|].
  unfold read_concat.
  rewrite append_nil_l, concat_text_app, append_nil_l.
  rewrite read_concat_text by exact Hnl.
  replace ("file '" ++ rotatedFrame lastFrame ++ "'" ++ LF)%string
    with (("file '" ++ rotatedFrame lastFrame ++ "'") ++ LF ++ "")%string
    by (now rewrite !append_assoc).
  rewrite split_lines_line by now apply file_line_no_newline.
  cbn [split_lines fold_left]. rewrite directive_file.
  cbn [directive strip_prefix]. rewrite app_nil_r.
  cbn [rev]. now rewrite rev_involutive.
Qed.

(** X14.  From plan to descriptor: when [prepareFrames] returns on a
    non-empty plan of [n] items, the descriptor that [createConcatFile]
    writes for its result reads back as the handle [/tmp/sardonic-i.png]
    with the duration of item [i], to three decimals, for each position
    [i], followed by [/tmp/sardonic-(n-1).png] without duration. *)
Theorem descriptor_of_plan
    (convert : list string -> Z) (this : Sardonic)
    (sequence : list Item) (out : list Prepared) :
  sequence <> [] ->
  prepareFrames convert this sequence = Returned out ->
  exists content,
    createConcatFile out = Returned (concatPath, content) /\
    read_concat content =
      entries_from 0 sequence
      ++ [mkEntry (outputFrame (List.length sequence - 1)) None] /\
    List.length (read_concat content) = S (List.length sequence).
Proof.
  intros Hne Hr. unfold prepareFrames in Hr.
  assert (Hok := prepareFrames_from_returned convert this sequence 0%nat [] out Hr).
  rewrite (prepareFrames_from_success convert this sequence 0%nat [] Hok) in Hr.
  injection Hr as <-. cbn [app].
  destruct (exists_last Hne) as (front & item & Hs).
  assert (Hsplit : prepared_from 0 sequence =
                   prepared_from 0 front
                   ++ [mkPrepared item (outputFrame (List.length sequence - 1))]).
  { rewrite Hs. rewrite length_app. cbn [List.length].
    replace (List.length front + 1 - 1)%nat with (0 + List.length front)%nat by lia.
    generalize 0%nat. clear. induction front as [|x front IH]; intros start; cbn.
    - now rewrite Nat.add_0_r.
    - rewrite IH. now rewrite Nat.add_succ_r. }
  destruct (createConcatFile_read _ _ _ Hsplit (prepared_from_no_newline 0 sequence))
    as (content & Hc & Hread).
  exists content. split; [exact Hc|].
  rewrite entry_of_prepared_from in Hread. cbn [rotatedFrame] in Hread.
  split; [exact Hread|].
  rewrite Hread, length_app. cbn [List.length].
  assert (Hlen : forall s l, List.length (entries_from s l) = List.length l).
  { intros s l. revert s. induction l; intros s; cbn; auto. }
  rewrite Hlen. lia.
Qed.

Lemma descriptor_of_plan_witness :
  exists content,
    createConcatFile (prepared_from 0 sample_run) = Returned (concatPath, content) /\
    read_concat content =
      entries_from 0 sample_run
      ++ [mkEntry (outputFrame (List.length sample_run - 1)) None] /\
    List.length (read_concat content) = S (List.length sample_run).
Proof.
  apply (descriptor_of_plan convert_ok sample sample_run (prepared_from 0 sample_run)).
  - discriminate.
  - reflexivity.
Defined.

(** ** The whole run *)

Section CreateFacts.

Variable path_join : string -> string -> string.
Variable execSync : string -> string + string.
Variable random : nat -> Q.
Variable convert : list string -> Z.
Variable ffmpeg : list string -> Z.
Variable unlinkSync : string -> option string.
Variable statSync : string -> option string.

Lemma convert_calls_success this sequence :
  forall start,
    (forall j item, nth_error sequence j = Some item ->
                    convert_status convert this (start + j) item = 0%Z) ->
    convert_calls convert this start sequence = convert_runs this start sequence.
Proof.
  induction sequence as [|item rest IH]; intros start Hok;
    cbn [convert_calls convert_runs]; [reflexivity|].
  pose proof (Hok 0%nat item eq_refl) as H0. rewrite Nat.add_0_r in H0.
  rewrite H0. cbn [Z.eqb]. f_equal. apply IH.
  intros j it Hj. specialize (Hok (S j) it Hj). now rewrite Nat.add_succ_r in Hok.
Qed.

Lemma convert_calls_spawn this sequence :
  forall start e,
    In e (convert_calls convert this start sequence) ->
    exists args, e = Spawn "convert" args.
Proof.
  induction sequence as [|item rest IH]; intros start e; cbn [convert_calls].
  - intros [].
  - intros [<-|H]; [eauto|].
    destruct (_ =? 0)%Z; [eauto|destruct H].
Qed.

Lemma convert_runs_status this sequence :
  forall start args,
    (forall j item, nth_error sequence j = Some item ->
                    convert_status convert this (start + j) item = 0%Z) ->
    In (Spawn "convert" args) (convert_runs this start sequence) ->
    convert args = 0%Z.
Proof.
  induction sequence as [|item rest IH]; intros start args Hok; cbn [convert_runs].
  - intros [].
  - intros [[= <-]|H].
    + pose proof (Hok 0%nat item eq_refl) as H0. now rewrite Nat.add_0_r in H0.
    + apply (IH (S start) args); trivial.
      intros j it Hj. specialize (Hok (S j) it Hj).
      now rewrite Nat.add_succ_r in Hok.
Qed.

Lemma createConcatFile_path preparedFrames concatFile content :
  createConcatFile preparedFrames = Returned (concatFile, content) ->
  concatFile = concatPath /\ preparedFrames <> [].
Proof.
  unfold createConcatFile. destruct preparedFrames as [|p l].
  - discriminate.
  - destruct (array_get _ _); [|discriminate]. intros [= <- _].
    split; [reflexivity|discriminate].
Qed.

Lemma unlinks_of_prepared start sequence :
  map (fun item => Unlink (rotatedFrame item)) (prepared_from start sequence) =
    map (fun i => Unlink (outputFrame i)) (seq start (List.length sequence)).
Proof.
  revert start. induction sequence as [|item rest IH]; intros start; cbn;
    [reflexivity|]. now rewrite IH.
Qed.

Lemma findFrames_returned this this' files :
  findFrames path_join execSync this = Returned (this', files) ->
  files = frames this' /\ frames this' <> [].
Proof.
  unfold findFrames. destruct (execSync _) as [message|output]; [discriminate|].
  destruct (List.length (listed output) =? 0)%nat eqn:E; [discriminate|].
  intros [= <- <-]. cbn [frames with_frames]. split; [reflexivity|].
  intros H. rewrite H in E. discriminate.
Qed.

Lemma prepareFrames_from_threw this sequence :
  forall start acc e,
    prepareFrames_from convert this start sequence acc = Threw e ->
    exists i, e = Error ("ImageMagick failed for frame " ++ Z_toString (Z.of_nat i)).
Proof.
  induction sequence as [|item rest IH]; intros start acc e;
    cbn [prepareFrames_from]; [discriminate|].
  rewrite createRotatedFrame_status.
  destruct (_ =? 0)%Z; [apply IH|]. intros [= <-]. now exists start.
Qed.

Lemma prepareFrames_result this sequence out :
  prepareFrames convert this sequence = Returned out ->
  out = prepared_from 0 sequence /\
  convert_calls convert this 0 sequence = convert_runs this 0 sequence /\
  forall i item, nth_error sequence i = Some item ->
                 convert_status convert this i item = 0%Z.
Proof.
  unfold prepareFrames. intros Hr.
  assert (Hok := prepareFrames_from_returned convert this sequence 0%nat [] out Hr).
  rewrite (prepareFrames_from_success convert this sequence 0%nat [] Hok) in Hr.
  injection Hr as <-. split; [reflexivity|]. split; [|exact Hok].
  now apply convert_calls_success.
Qed.

End CreateFacts.

Ltac create_stages unlinkSync statSync this' sequence prepared concatFile content :=
  unfold create;
  let files := fresh "files" in
  destruct (findFrames _ _ _) as [[this' files]| |] eqn:Hfound;
  [ destruct (generateSequence _ this' _) as [sequence| |] eqn:Hplan;
    [ destruct (prepareFrames _ this' _) as [prepared| |] eqn:Hprepared;
      [ destruct (createConcatFile _) as [[concatFile content]| |] eqn:Hwritten;
        [ destruct (_ =? 0)%Z eqn:Hencoded;
          [ destruct (unlinkSync _) eqn:Hunlinked;
            [ | destruct (statSync _) eqn:Hstat ] | ] | | ] | | ] | | ] | | ].

(** X15.  When [create] resolves, it has run exactly this, in this
    order: the listing, one [convert] per item of a non-empty plan,
    the descriptor, [ffmpeg] (which exited with 0), the deletion of every
    rotated frame and of the descriptor, and a look at the output file. *)
Theorem create_resolved
    (path_join : string -> string -> string) (execSync : string -> string + string)
    (random : nat -> Q) (convert ffmpeg : list string -> Z)
    (unlinkSync statSync : string -> option string)
    (this : Sardonic) (fuel : nat) (effects : list effect) :
  create path_join execSync random convert ffmpeg unlinkSync statSync this fuel
    = (effects, Resolved) ->
  exists this' sequence content,
    encoded path_join execSync random convert this this' fuel sequence content /\
    ffmpeg (create_args this' concatPath (buildGlitchFilter this')) = 0%Z /\
    effects =
      Exec (ls_command (path_join (frameDir this) (framePattern this)))
      :: convert_runs this' 0 sequence
      ++ [ WriteFile concatPath content;
           Spawn "ffmpeg" (create_args this' concatPath (buildGlitchFilter this')) ]
      ++ map (fun i => Unlink (outputFrame i)) (seq 0 (List.length sequence))
      ++ [ Unlink concatPath; Stat (outputFile this') ].
Proof.
  create_stages unlinkSync statSync this' sequence prepared concatFile content;
    try discriminate.
  intros [= <-].
  destruct (findFrames_returned _ _ _ _ _ Hfound) as [-> Hne].
  destruct (prepareFrames_result _ _ _ _ Hprepared) as (-> & Hcalls & Hok).
  destruct (createConcatFile_path _ _ _ Hwritten) as [-> Hnonempty].
  apply Z.eqb_eq in Hencoded.
  exists this', sequence, content. split; [|split].
  - split; trivial. intros ->. now apply Hnonempty.
  - exact Hencoded.
  - rewrite Hcalls, unlinks_of_prepared.
    cbn [app]. f_equal. rewrite <- !app_assoc. reflexivity.
Qed.

Lemma create_resolved_witness :
  exists this' sequence content,
    encoded join_plain ls_two sevenths convert_ok sample this' 10 sequence content /\
    ffmpeg_ok (create_args this' concatPath (buildGlitchFilter this')) = 0%Z /\
    sample_effects =
      Exec (ls_command (join_plain (frameDir sample) (framePattern sample)))
      :: convert_runs this' 0 sequence
      ++ [ WriteFile concatPath content;
           Spawn "ffmpeg" (create_args this' concatPath (buildGlitchFilter this')) ]
      ++ map (fun i => Unlink (outputFrame i)) (seq 0 (List.length sequence))
      ++ [ Unlink concatPath; Stat (outputFile this') ].
Proof.
  apply (create_resolved join_plain ls_two sevenths convert_ok ffmpeg_ok fs_ok fs_ok
           sample 10 sample_effects).
  vm_compute. reflexivity.
Defined.

Lemma findFrames_threw path_join execSync this e :
  findFrames path_join execSync this = Threw e ->
  exists message, e = Error ("Error finding frames: " ++ message).
Proof.
  unfold findFrames. destruct (execSync _) as [message|output].
  - intros [= <-]. exists message. reflexivity.
  - destruct (List.length (listed output) =? 0)%nat; [|discriminate].
    intros [= <-]. eexists. reflexivity.
Qed.

Lemma loop_throws_TypeError random this :
  forall fuel k t sq e,
    generateSequence_loop random this fuel k t sq = Threw e -> e = TypeError.
Proof.
  induction fuel as [|fuel IH]; intros k t sq e; cbn [generateSequence_loop].
  - discriminate.
  - destruct (num_lt _ _); [|discriminate].
    destruct (iteration random this k t) as [[it k']|e'|] eqn:E.
    + apply IH.
    + intros [= <-]. unfold iteration in E.
      destruct (num_le _ _);
        [|cbn [randomDuration] in E; destruct (num_lt _ _)];
        cbn [randomRotation] in E;
        (destruct (array_get _ _); [discriminate|]); now injection E.
    + discriminate.
Qed.

Lemma generateSequence_throws_TypeError random this fuel e :
  generateSequence random this fuel = Threw e -> e = TypeError.
Proof.
  unfold generateSequence, generateSequence_timed.
  destruct (generateSequence_loop random this fuel 0 0 []) eqn:E; try discriminate.
  intros [= <-]. now apply loop_throws_TypeError in E.
Qed.

Lemma createConcatFile_throws_TypeError preparedFrames e :
  createConcatFile preparedFrames = Threw e -> e = TypeError.
Proof.
  unfold createConcatFile. destruct (array_get _ _); [discriminate|].
  now intros [= <-].
Qed.

Lemma not_in_convert_calls convert this sequence start e :
  (forall args, e <> Spawn "convert" args) ->
  ~ In e (convert_calls convert this start sequence).
Proof.
  intros Hne Hin. apply convert_calls_spawn in Hin. destruct Hin as [args ->].
  now apply (Hne args).
Qed.

(** X16.  When [create] rejects, it has deleted nothing and has not
    looked at the output file: the rotated frames and the descriptor
    written so far stay in place. *)
Theorem create_rejected_deletes_nothing
    (path_join : string -> string -> string) (execSync : string -> string + string)
    (random : nat -> Q) (convert ffmpeg : list string -> Z)
    (unlinkSync statSync : string -> option string)
    (this : Sardonic) (fuel : nat) (effects : list effect) (e : error) :
  create path_join execSync random convert ffmpeg unlinkSync statSync this fuel
    = (effects, Rejected e) ->
  (forall p, ~ In (Unlink p) effects) /\
  (forall p, ~ In (Stat p) effects).
Proof.
  create_stages unlinkSync statSync this' sequence prepared concatFile content;
    try discriminate; intros [= <- <-].
  - (* ffmpeg failed *)
    split.
    + intros p [H|H]; [discriminate|]. apply in_app_or in H.
      destruct H as [H|[H|[H|[]]]]; try discriminate.
      revert H. apply not_in_convert_calls. discriminate.
    + intros p [H|H]; [discriminate|]. apply in_app_or in H.
      destruct H as [H|[H|[H|[]]]]; try discriminate.
      revert H. apply not_in_convert_calls. discriminate.
  - (* the descriptor could not be built *)
    split.
    + intros p [H|H]; [discriminate|].
      revert H. apply not_in_convert_calls. discriminate.
    + intros p [H|H]; [discriminate|].
      revert H. apply not_in_convert_calls. discriminate.
  - (* a transform failed *)
    split.
    + intros p [H|H]; [discriminate|].
      revert H. apply not_in_convert_calls. discriminate.
    + intros p [H|H]; [discriminate|].
      revert H. apply not_in_convert_calls. discriminate.
  - (* the planner threw *)
    split; intros p [H|[]]; discriminate.
  - (* no frames *)
    split; intros p [H|[]]; discriminate.
Qed.

Lemma create_rejected_deletes_nothing_witness :
  (forall p, ~ In (Unlink p) sample_effects_failed_encode) /\
  (forall p, ~ In (Stat p) sample_effects_failed_encode).
Proof.
  apply (create_rejected_deletes_nothing join_plain ls_two sevenths convert_ok
           ffmpeg_fails fs_ok fs_ok sample 10 sample_effects_failed_encode
           (Error "ffmpeg encoding failed")).
  vm_compute. reflexivity.
Defined.

Ltac in_effects H :=
  repeat match type of H with
  | In _ (_ ++ _) => apply in_app_or in H; destruct H as [H|H]
  | In _ (_ :: _) => destruct H as [H|H]
  | In _ [] => destruct H
  end.

Lemma convert_runs_spawn this sequence :
  forall start e,
    In e (convert_runs this start sequence) -> exists args, e = Spawn "convert" args.
Proof.
  induction sequence as [|item rest IH]; intros start e; cbn [convert_runs].
  - intros [].
  - intros [<-|H]; eauto.
Qed.

Lemma in_unlinks_of_prepared p start sequence :
  In (Unlink p)
     (map (fun item => Unlink (rotatedFrame item)) (prepared_from start sequence)) ->
  exists i, p = outputFrame i.
Proof.
  rewrite unlinks_of_prepared. intros H. apply in_map_iff in H.
  destruct H as (i & [= <-] & _). now exists i.
Qed.

(** X17.  Whatever happens, [create] deletes only its own temporary
    files (a rotated frame [/tmp/sardonic-i.png] or the descriptor), writes
    only the descriptor, and starts [ffmpeg] only when every [convert] it
    ran has exited with 0. *)
Theorem create_touches_only_its_files
    (path_join : string -> string -> string) (execSync : string -> string + string)
    (random : nat -> Q) (convert ffmpeg : list string -> Z)
    (unlinkSync statSync : string -> option string)
    (this : Sardonic) (fuel : nat) :
  let effects :=
    fst (create path_join execSync random convert ffmpeg unlinkSync statSync
           this fuel) in
  (forall p, In (Unlink p) effects ->
             p = concatPath \/ exists i, p = outputFrame i) /\
  (forall path content, In (WriteFile path content) effects -> path = concatPath) /\
  (forall args, In (Spawn "ffmpeg" args) effects ->
     forall a, In (Spawn "convert" a) effects -> convert a = 0%Z).
Proof.
  cbv zeta. split; [|split].
  - intros p.
    create_stages unlinkSync statSync this' sequence prepared concatFile content;
      cbn [fst]; intros Hin;
      try (destruct (createConcatFile_path _ _ _ Hwritten) as [-> _]);
      try (destruct (prepareFrames_result _ _ _ _ Hprepared) as (-> & _ & _));
      in_effects Hin; try discriminate;
      try (exfalso; revert Hin; apply not_in_convert_calls; discriminate);
      try (injection Hin as <-; now left);
      right; now apply in_unlinks_of_prepared in Hin.
  - intros path written.
    create_stages unlinkSync statSync this' sequence prepared concatFile content;
      cbn [fst]; intros Hin;
      try (destruct (createConcatFile_path _ _ _ Hwritten) as [-> _]);
      in_effects Hin; try discriminate;
      try (exfalso; revert Hin; apply not_in_convert_calls; discriminate);
      try (now injection Hin as <- _).
    all: apply in_map_iff in Hin; destruct Hin as (item & Hitem & _); discriminate.
  - intros args.
    create_stages unlinkSync statSync this' sequence prepared concatFile content;
      cbn [fst]; intros Hin a Ha;
      try (destruct (prepareFrames_result _ _ _ _ Hprepared) as (-> & Hcalls & Hok);
           rewrite Hcalls in Hin, Ha);
      in_effects Hin; try discriminate;
      try (exfalso; revert Hin; apply not_in_convert_calls; discriminate);
      try (apply in_map_iff in Hin; destruct Hin as (item & Hitem & _); discriminate);
      try (exfalso; apply (convert_runs_spawn this' sequence 0%nat) in Hin;
           destruct Hin as [args' Hin]; discriminate).
    all: in_effects Ha; try discriminate;
      try (apply in_map_iff in Ha; destruct Ha as (item & Hitem & _); discriminate).
    all: apply (convert_runs_status convert this' sequence 0%nat a); trivial.
Qed.

(** X18.  With a total duration that is not positive the plan is empty:
    once the frames are found, [create] rejects with the [TypeError] of
    [createConcatFile] on an empty array, after the listing alone: no
    [convert], no descriptor, no [ffmpeg]. *)
Theorem create_nonpositive_duration
    (path_join : string -> string -> string) (execSync : string -> string + string)
    (random : nat -> Q) (convert ffmpeg : list string -> Z)
    (unlinkSync statSync : string -> option string)
    (this this' : Sardonic) (files : list string) (fuel : nat) :
  findFrames path_join execSync this = Returned (this', files) ->
  totalDuration this <= 0 ->
  create path_join execSync random convert ffmpeg unlinkSync statSync this (S fuel)
    = ([Exec (ls_command (path_join (frameDir this) (framePattern this)))],
       Rejected TypeError).
Proof.
  intros Hf Ht. unfold create. rewrite Hf.
  assert (Ht' : totalDuration this' <= 0).
  { unfold findFrames in Hf. destruct (execSync _); [discriminate|].
    destruct (_ =? _)%nat; [discriminate|]. now injection Hf as <- _. }
  assert (Hplan : generateSequence random this' (S fuel) = Returned []).
  { unfold generateSequence, generateSequence_timed. cbn [generateSequence_loop].
    assert (G : num_lt 0 (totalDuration this') = false) by now apply num_lt_false.
    now rewrite G. }
  rewrite Hplan. reflexivity.
Qed.

Lemma create_nonpositive_duration_witness :
  create join_plain ls_two sevenths convert_ok ffmpeg_ok fs_ok fs_ok negative_total 1
    = ([Exec (ls_command (join_plain (frameDir negative_total)
                                     (framePattern negative_total)))],
       Rejected TypeError).
Proof.
  apply (create_nonpositive_duration join_plain ls_two sevenths convert_ok ffmpeg_ok
           fs_ok fs_ok negative_total
           (with_frames negative_total ["samples/w-1.jpg"; "samples/w-2.jpg"]%string)
           ["samples/w-1.jpg"; "samples/w-2.jpg"]%string 0).
  - reflexivity.
  - discriminate.
Defined.

(** ** The overlay *)


(** X20.  A probe whose output parses to [NaN], to zero or to a negative
    number is treated exactly like a probe that failed: the same argument
    list, with 49 extra loops and ["-t"] without a value. *)
Theorem overlayOnVideo_args_unusable_probe
    (Number_toString : Q -> string) (this : Sardonic) (inputVideo : string)
    (options : OverlayOptions) (parsed : number) :
  match parsed with Num d => d <= 0 | NaN => True end ->
  overlayOnVideo_args Number_toString this inputVideo options (ProbeOutput parsed) =
  overlayOnVideo_args Number_toString this inputVideo options ProbeFailed.
Proof.
  intros H. unfold overlayOnVideo_args, loopCount. cbn [inputDuration].
  destruct parsed as [|d]; [reflexivity|].
  apply num_lt_false in H. rewrite H. reflexivity.
Qed.

Lemma overlayOnVideo_args_unusable_probe_witness :
  overlayOnVideo_args (fun q => toFixed q 6) clip15 "in.mp4"
    (mkOverlayOptions None None None) (ProbeOutput NaN) =
  overlayOnVideo_args (fun q => toFixed q 6) clip15 "in.mp4"
    (mkOverlayOptions None None None) ProbeFailed.
Proof.
  apply (overlayOnVideo_args_unusable_probe (fun q => toFixed q 6) clip15 "in.mp4"
           (mkOverlayOptions None None None) NaN).
  exact I.
Defined.

(** X21.  [overlayOnVideo] always starts [ffmpeg], once, right after the
    probe, whether the probe worked or not; when [ffmpeg] exits with a
    status other than 0 it rejects with "Video overlay failed", it resolves
    only after an exit with 0, and it looks at the output file only after
    such a run. *)
Theorem overlayOnVideo_always_composites
    (execSync : string -> string + string) (parseFloat : string -> number)
    (Number_toString : Q -> string) (ffmpeg : list string -> Z)
    (statSync : string -> option string)
    (this : Sardonic) (inputVideo : string) (options : OverlayOptions) :
  let args :=
    overlayOnVideo_args Number_toString this inputVideo options
      (probe_duration execSync parseFloat inputVideo) in
  let run :=
    overlayOnVideo execSync parseFloat Number_toString ffmpeg statSync
      this inputVideo options in
  (exists rest,
      fst run = Exec (probe_command inputVideo) :: Spawn "ffmpeg" args :: rest /\
      (rest = [] \/
       rest = [Stat (or_default (opt_overlay_output options)
                       "output-with-sardonic.mp4"%string)]) /\
      (rest = [] <-> ffmpeg args <> 0%Z)) /\
  (ffmpeg args <> 0%Z -> snd run = Rejected (Error "Video overlay failed")) /\
  (snd run = Resolved -> ffmpeg args = 0%Z) /\
  snd run <> Unfinished.
Proof.
  cbv zeta. unfold overlayOnVideo.
  set (args := overlayOnVideo_args Number_toString this inputVideo options
                 (probe_duration execSync parseFloat inputVideo)).
  destruct (Z.eqb_spec (ffmpeg args) 0) as [E|E].
  - assert (Hshape : forall outcome : settled,
      (exists rest,
         fst ([Exec (probe_command inputVideo); Spawn "ffmpeg" args]
              ++ [Stat (or_default (opt_overlay_output options)
                          "output-with-sardonic.mp4"%string)], outcome)
         = Exec (probe_command inputVideo) :: Spawn "ffmpeg" args :: rest /\
         (rest = [] \/
          rest = [Stat (or_default (opt_overlay_output options)
                          "output-with-sardonic.mp4"%string)]) /\
         (rest = [] <-> ffmpeg args <> 0%Z))).
    { intros outcome. eexists. split; [reflexivity|]. split; [now right|].
      split; [discriminate|congruence]. }
    destruct (statSync _); cbn [snd]; (split; [apply Hshape|]);
      (split; [congruence|]); split; trivial; discriminate.
  - cbn [fst snd app]. split; [|split; [|split]].
    + eexists. split; [reflexivity|]. split; [now left|]. split; trivial.
    + reflexivity.
    + discriminate.
    + discriminate.
Qed.

(** ** The command line *)

Section CommandLineFacts.

Variable parseFloat : string -> number.
Variable parseInt : string -> option Z.

Lemma assign_bounds f value c :
  bounds_untouched c -> bounds_untouched (assign parseFloat parseInt f value c).
Proof. unfold bounds_untouched. destruct f; cbn; trivial. Qed.

Lemma parse_args_bounds args :
  forall pending c c',
    bounds_untouched c ->
    parse_args parseFloat parseInt args pending c = Parsed c' ->
    bounds_untouched c'.
Proof.
  induction args as [|arg rest IH]; intros pending c c' Hc; cbn [parse_args].
  - destruct pending as [f|]; intros [= <-]; trivial. now apply assign_bounds.
  - destruct pending as [f|].
    + apply IH. now apply assign_bounds.
    + destruct (flag_of arg) as [[]|]; try discriminate; now apply IH.
Qed.

Lemma flag_of_help arg :
  flag_of arg = Some FHelp -> arg = "--help"%string \/ arg = "-h"%string.
Proof.
  unfold flag_of.
  repeat match goal with
  | |- context [(arg =? ?s)%string] =>
      destruct (String.eqb_spec arg s) as [->|?]; cbn [orb]; try discriminate; auto
  end.
Qed.

Lemma parse_args_without_help args :
  ~ In "--help"%string args -> ~ In "-h"%string args ->
  forall pending c, exists c', parse_args parseFloat parseInt args pending c = Parsed c'.
Proof.
  induction args as [|arg rest IH]; intros H1 H2 pending c; cbn [parse_args].
  - destruct pending; eauto.
  - assert (H1' : ~ In "--help"%string rest) by (intros H; apply H1; now right).
    assert (H2' : ~ In "-h"%string rest) by (intros H; apply H2; now right).
    destruct pending as [f|]; [now apply IH|].
    destruct (flag_of arg) as [f|] eqn:E; [|now apply IH].
    destruct f; try now apply IH.
    apply flag_of_help in E. exfalso.
    destruct E as [-> | ->]; [apply H1|apply H2]; now left.
Qed.

End CommandLineFacts.

(** X22.  No argument changes the duration bounds: whatever the command
    line, the object is built with [minFrameDuration = 0.1] and
    [maxFrameDuration = 0.8], so the bounds the planner gets from the
    script are always positive and in order. *)
Theorem cli_bounds_are_valid
    (parseFloat : string -> number) (parseInt : string -> option Z)
    (samplesDir : string) (args : list string) (c : Cli) :
  parse parseFloat parseInt samplesDir args = Parsed c ->
  minFrameDuration (constructor (cli_options c)) = 1 # 10 /\
  maxFrameDuration (constructor (cli_options c)) = 8 # 10 /\
  0 < minFrameDuration (constructor (cli_options c)) /\
  minFrameDuration (constructor (cli_options c))
    <= maxFrameDuration (constructor (cli_options c)).
Proof.
  intros Hp. unfold parse in Hp.
  assert (Hb : bounds_untouched c).
  { apply (parse_args_bounds parseFloat parseInt args None (cli_start samplesDir) c);
      trivial. now split. }
  destruct Hb as [Hmin Hmax].
  assert (Emin : minFrameDuration (constructor (cli_options c)) = 1 # 10)
    by (unfold constructor; cbn [minFrameDuration]; now rewrite Hmin).
  assert (Emax : maxFrameDuration (constructor (cli_options c)) = 8 # 10)
    by (unfold constructor; cbn [maxFrameDuration]; now rewrite Hmax).
  rewrite Emin, Emax. split; [reflexivity|]. split; [reflexivity|].
  split; [reflexivity|discriminate].
Qed.

Lemma cli_bounds_are_valid_witness :
  minFrameDuration (constructor (cli_options cli_example)) = 1 # 10 /\
  maxFrameDuration (constructor (cli_options cli_example)) = 8 # 10 /\
  0 < minFrameDuration (constructor (cli_options cli_example)) /\
  minFrameDuration (constructor (cli_options cli_example))
    <= maxFrameDuration (constructor (cli_options cli_example)).
Proof.
  apply (cli_bounds_are_valid parseFloat_30 parseInt_2 "samples" ["-d"; "30"]%string).
  reflexivity.
Defined.

(** X23.  Help: with [--help] or [-h] as the first argument the script
    does nothing and exits with status 0, whatever follows; a command
    line without [--help] and [-h] never ends in the help exit; and the
    argument after a flag that takes a value is that value, whatever it
    is, [--help] included. *)
Theorem cli_help
    (samplesDir : string)
    (parseFloat : string -> number) (parseInt : string -> option Z)
    (path_join : string -> string -> string) (execSync : string -> string + string)
    (random : nat -> Q) (convert ffmpeg : list string -> Z)
    (unlinkSync statSync : string -> option string)
    (Number_toString : Q -> string) :
  (forall rest fuel,
     main samplesDir parseFloat parseInt path_join execSync random convert ffmpeg
       unlinkSync statSync Number_toString ("--help"%string :: rest) fuel
       = ([], Exited 0) /\
     main samplesDir parseFloat parseInt path_join execSync random convert ffmpeg
       unlinkSync statSync Number_toString ("-h"%string :: rest) fuel
       = ([], Exited 0)) /\
  (forall args,
     ~ In "--help"%string args -> ~ In "-h"%string args ->
     exists c, parse parseFloat parseInt samplesDir args = Parsed c) /\
  (forall arg f value rest,
     flag_of arg = Some f -> f <> FHelp ->
     parse parseFloat parseInt samplesDir (arg :: value :: rest) =
       parse_args parseFloat parseInt rest None
         (assign parseFloat parseInt f (Some value) (cli_start samplesDir))).
Proof.
  split; [|split].
  - intros rest fuel. split; reflexivity.
  - intros args H1 H2. unfold parse. now apply parse_args_without_help.
  - intros arg f value rest Hf Hne. unfold parse. cbn [parse_args].
    rewrite Hf. destruct f; trivial. contradiction.
Qed.

(** ** The script as a whole *)

Lemma ls_is_not_probe pattern video : ls_command pattern <> probe_command video.
Proof. unfold ls_command, probe_command. cbn. discriminate. Qed.

Lemma create_commands
    (path_join : string -> string -> string) (execSync : string -> string + string)
    (random : nat -> Q) (convert ffmpeg : list string -> Z)
    (unlinkSync statSync : string -> option string)
    (this : Sardonic) (fuel : nat) (command : string) :
  In (Exec command)
     (fst (create path_join execSync random convert ffmpeg unlinkSync statSync
             this fuel)) ->
  command = ls_command (path_join (frameDir this) (framePattern this)).
Proof.
  create_stages unlinkSync statSync this' sequence prepared concatFile content;
    cbn [fst]; intros Hin; in_effects Hin; try discriminate;
    try (now injection Hin as <-);
    try (exfalso; revert Hin; apply not_in_convert_calls; discriminate);
    apply in_map_iff in Hin; destruct Hin as (item & Hitem & _); discriminate.
Qed.

(** X24.  The script probes a video, and so starts the overlay, only when
    [--overlay] was given a non-empty value and [create] has resolved; the
    video probed is that value. *)
Theorem main_overlay_needs_target
    (samplesDir : string)
    (parseFloat : string -> number) (parseInt : string -> option Z)
    (path_join : string -> string -> string) (execSync : string -> string + string)
    (random : nat -> Q) (convert ffmpeg : list string -> Z)
    (unlinkSync statSync : string -> option string)
    (Number_toString : Q -> string)
    (args : list string) (fuel : nat) (video : string) :
  In (Exec (probe_command video))
     (fst (main samplesDir parseFloat parseInt path_join execSync random convert
             ffmpeg unlinkSync statSync Number_toString args fuel)) ->
  exists c,
    parse parseFloat parseInt samplesDir args = Parsed c /\
    overlayMode c = true /\
    inputVideo c = Some video /\
    video <> ""%string /\
    snd (create path_join execSync random convert ffmpeg unlinkSync statSync
           (constructor (cli_options c)) fuel) = Resolved.
Proof.
  unfold main.
  destruct (parse parseFloat parseInt samplesDir args) as [c|]; [|intros []].
  assert (Hmade : ~ In (Exec (probe_command video))
                      (fst (create path_join execSync random convert ffmpeg
                              unlinkSync statSync (constructor (cli_options c)) fuel))).
  { intros H. apply create_commands in H. symmetry in H.
    now apply ls_is_not_probe in H. }
  destruct (snd (create _ _ _ _ _ _ _ _ _)) eqn:Hres;
    cbn [fst]; try (intros H; now apply Hmade in H).
  destruct (overlay_target c) as [v|] eqn:Ht;
    cbn [fst]; [|intros H; now apply Hmade in H].
  intros H. apply in_app_or in H. destruct H as [H|H]; [now apply Hmade in H|].
  assert (Hv : v = video).
  { unfold overlayOnVideo in H.
    destruct (_ =? 0)%Z; [destruct (statSync _)|]; cbn [fst app] in H;
      in_effects H; try discriminate; injection H as H;
      now apply string_app_inv_tail in H. }
  subst v. exists c. unfold overlay_target in Ht.
  destruct (overlayMode c); [|discriminate].
  destruct (inputVideo c) as [w|]; [|discriminate].
  destruct (falsy w) eqn:Hw; [discriminate|]. injection Ht as ->.
  repeat split; trivial.
  intros ->. discriminate.
Qed.

Lemma main_overlay_needs_target_witness :
  exists c,
    parse parseFloat_30 parseInt_2 "samples" ["-O"; "in.mp4"]%string = Parsed c /\
    overlayMode c = true /\
    inputVideo c = Some "in.mp4"%string /\
    "in.mp4"%string <> ""%string /\
    snd (create join_plain ls_two sevenths convert_ok ffmpeg_ok fs_ok fs_ok
           (constructor (cli_options c)) 200) = Resolved.
Proof.
  apply (main_overlay_needs_target "samples" parseFloat_30 parseInt_2 join_plain
           ls_two sevenths convert_ok ffmpeg_ok fs_ok fs_ok (fun q => toFixed q 6)
           ["-O"; "in.mp4"]%string 200 "in.mp4").
  vm_compute. repeat first [left; reflexivity | right].
Defined.

(* ================================================================= *)
(** * The planner and the loop count in double precision               *)
(* ================================================================= *)

Module DoubleFacts.

Import Double Binary64.

#[local] Open Scope Z_scope.

(** ** Rounding *)

Lemma nearest_even_lower n D z :
  0 < D -> z * D <= n -> z <= nearest_even n D.
Proof.
  intros HD H. unfold nearest_even.
  assert (z <= n / D) by (apply Z.div_le_lower_bound; lia).
  destruct (2 * (n mod D) <? D); [lia|].
  destruct (D <? 2 * (n mod D)); [lia|].
  destruct (Z.even (n / D)); lia.
Qed.

Lemma nearest_even_upper n D z :
  0 < D -> n <= z * D -> nearest_even n D <= z.
Proof.
  intros HD H. unfold nearest_even.
  pose proof (Z.div_mod n D ltac:(lia)) as E.
  pose proof (Z.mod_pos_bound n D HD) as B.
  destruct (Z.ltb_spec (2 * (n mod D)) D) as [L|L].
  - apply Z.div_le_upper_bound; lia.
  - assert (n / D < z) by nia.
    destruct (D <? 2 * (n mod D)); [lia|].
    destruct (Z.even (n / D)); lia.
Qed.

Lemma nearest_even_error n D :
  0 < D -> - D <= 2 * (nearest_even n D * D - n) <= D.
Proof.
  intros HD. unfold nearest_even.
  pose proof (Z.div_mod n D ltac:(lia)) as E.
  pose proof (Z.mod_pos_bound n D HD) as B.
  destruct (Z.ltb_spec (2 * (n mod D)) D) as [L|L]; [nia|].
  destruct (Z.ltb_spec D (2 * (n mod D))) as [L'|L']; [nia|].
  destruct (Z.even (n / D)); nia.
Qed.

Lemma shift_nonneg q : 0 <= shift q.
Proof. unfold shift. lia. Qed.

Lemma shift_bounds q :
  0 < shift q -> 2 ^ (52 + shift q) <= q < 2 ^ (53 + shift q).
Proof.
  unfold shift. intros H.
  assert (Hq : 0 < q).
  { destruct (Z.ltb_spec 0 q); trivial.
    rewrite (Z.log2_nonpos q) in H by lia. lia. }
  pose proof (Z.log2_spec q Hq) as [L U].
  replace (52 + Z.max 0 (Z.log2 q - 52)) with (Z.log2 q) by lia.
  replace (53 + Z.max 0 (Z.log2 q - 52)) with (Z.succ (Z.log2 q)) by lia.
  split; trivial.
Qed.

Lemma shift_mono p q : p <= q -> shift p <= shift q.
Proof.
  intros H. unfold shift. pose proof (Z.log2_le_mono p q H). lia.
Qed.

Lemma aligned_divide a s :
  0 <= a -> aligned a -> 0 <= s -> 2 ^ (52 + s) <= a -> (2 ^ s | a).
Proof.
  intros Ha Hal Hs Hlow. unfold aligned in Hal. rewrite Z.abs_eq in Hal by trivial.
  assert (Hsh : s <= shift a).
  { unfold shift.
    assert (52 + s <= Z.log2 a).
    { apply Z.log2_le_pow2; [|trivial].
      pose proof (Z.pow_pos_nonneg 2 (52 + s)). lia. }
    lia. }
  apply Z.mod_divide in Hal; [|apply Z.pow_nonzero; [lia|apply shift_nonneg]].
  apply Z.divide_trans with (2 ^ shift a); trivial.
  exists (2 ^ (shift a - s)). rewrite <- Z.pow_add_r by lia. f_equal. lia.
Qed.

Lemma round_magnitude_lower n d a :
  0 < d -> 0 <= n -> 0 <= a -> aligned a -> a * d <= n -> a <= round_magnitude n d.
Proof.
  intros Hd Hn Ha Hal H. unfold round_magnitude.
  set (s := shift (n / d)).
  assert (Hs : 0 <= s) by apply shift_nonneg.
  assert (HP : 0 < 2 ^ s) by (apply Z.pow_pos_nonneg; lia).
  destruct (Z.eq_dec s 0) as [E|E].
  - rewrite E. change (2 ^ 0) with 1. rewrite !Z.mul_1_r.
    apply nearest_even_lower; trivial.
  - destruct (shift_bounds (n / d)) as [L _]; [fold s; lia|]. fold s in L.
    assert (Hq : 2 ^ (52 + s) * d <= n).
    { pose proof (Z.mul_div_le n d Hd). nia. }
    destruct (Z.le_gt_cases (2 ^ (52 + s)) a) as [G|G].
    + destruct (aligned_divide a s Ha Hal Hs G) as [z ->].
      apply Z.mul_le_mono_nonneg_r; [lia|].
      apply nearest_even_lower; nia.
    + rewrite Z.pow_add_r in * by lia.
      assert (2 ^ 52 <= nearest_even n (d * 2 ^ s)) by (apply nearest_even_lower; nia).
      nia.
Qed.

Lemma round_magnitude_upper n d a :
  0 < d -> 0 <= n -> 0 <= a -> aligned a -> n <= a * d -> round_magnitude n d <= a.
Proof.
  intros Hd Hn Ha Hal H. unfold round_magnitude.
  set (s := shift (n / d)).
  assert (Hs : 0 <= s) by apply shift_nonneg.
  assert (HP : 0 < 2 ^ s) by (apply Z.pow_pos_nonneg; lia).
  destruct (Z.eq_dec s 0) as [E|E].
  - rewrite E. change (2 ^ 0) with 1. rewrite !Z.mul_1_r.
    apply nearest_even_upper; trivial.
  - destruct (shift_bounds (n / d)) as [L _]; [fold s; lia|]. fold s in L.
    assert (G : 2 ^ (52 + s) <= a).
    { apply Z.le_trans with (n / d); trivial.
      apply Z.div_le_upper_bound; lia. }
    destruct (aligned_divide a s Ha Hal Hs G) as [z ->].
    apply Z.mul_le_mono_nonneg_r; [lia|].
    apply nearest_even_upper; nia.
Qed.

Lemma round_magnitude_exact d a :
  0 < d -> 0 <= a -> aligned a -> round_magnitude (a * d) d = a.
Proof.
  intros Hd Ha Hal. apply Z.le_antisymm.
  - apply round_magnitude_upper; trivial; nia.
  - apply round_magnitude_lower; trivial; nia.
Qed.

Lemma shift_upper q : 0 <= q -> q < 2 ^ (53 + shift q).
Proof.
  intros Hq. destruct (Z.eq_dec q 0) as [->|N].
  - apply Z.pow_pos_nonneg; [lia|]. pose proof (shift_nonneg 0). lia.
  - pose proof (Z.log2_spec q ltac:(lia)) as [_ U].
    eapply Z.lt_le_trans; [exact U|].
    apply Z.pow_le_mono_r; [lia|]. unfold shift. lia.
Qed.

Lemma shift_below q s : 0 <= s -> q < 2 ^ (53 + s) -> shift q <= s.
Proof.
  intros Hs H. unfold shift.
  destruct (Z.le_gt_cases q 0) as [L|L].
  - rewrite Z.log2_nonpos by trivial. lia.
  - assert (Z.log2 q < 53 + s) by (apply Z.log2_lt_pow2; trivial). lia.
Qed.

Lemma round_magnitude_nonneg n d : 0 < d -> 0 <= n -> 0 <= round_magnitude n d.
Proof.
  intros Hd Hn. apply (round_magnitude_lower n d 0); trivial; try lia.
  reflexivity.
Qed.

Lemma round_magnitude_error n d :
  0 < d -> 0 <= n ->
  - (d * 2 ^ shift (n / d)) <= 2 * (round_magnitude n d * d - n) <= d * 2 ^ shift (n / d).
Proof.
  intros Hd Hn. unfold round_magnitude.
  set (s := shift (n / d)).
  assert (HP : 0 < 2 ^ s) by (apply Z.pow_pos_nonneg; [lia|apply shift_nonneg]).
  pose proof (nearest_even_error n (d * 2 ^ s) ltac:(nia)) as E.
  replace (nearest_even n (d * 2 ^ s) * 2 ^ s * d)
    with (nearest_even n (d * 2 ^ s) * (d * 2 ^ s)) by ring.
  exact E.
Qed.

Lemma aligned_scaled j s : 0 <= j <= 2 ^ 53 -> 0 <= s -> aligned (j * 2 ^ s).
Proof.
  intros Hj Hs. unfold aligned.
  assert (HP : 0 < 2 ^ s) by (apply Z.pow_pos_nonneg; lia).
  rewrite Z.abs_eq by nia.
  destruct (Z.eq_dec j 0) as [->|N]; [reflexivity|].
  apply Z.mod_divide; [apply Z.pow_nonzero; [lia|apply shift_nonneg]|].
  destruct (Z.eq_dec j (2 ^ 53)) as [->|N'].
  - rewrite <- Z.pow_add_r by lia.
    assert (E : shift (2 ^ (53 + s)) = s + 1).
    { unfold shift. rewrite Z.log2_pow2 by lia. lia. }
    rewrite E. exists (2 ^ 52). rewrite <- Z.pow_add_r by lia. f_equal. lia.
  - assert (L : shift (j * 2 ^ s) <= s).
    { apply shift_below; trivial. rewrite Z.pow_add_r by lia. nia. }
    exists (j * 2 ^ (s - shift (j * 2 ^ s))).
    rewrite <- Z.mul_assoc, <- Z.pow_add_r; [f_equal; f_equal; lia|lia|apply shift_nonneg].
Qed.

Lemma nearest_even_mantissa n d :
  0 < d -> 0 <= n ->
  0 <= nearest_even n (d * 2 ^ shift (n / d)) <= 2 ^ 53.
Proof.
  intros Hd Hn. set (s := shift (n / d)).
  assert (Hs : 0 <= s) by apply shift_nonneg.
  assert (HP : 0 < 2 ^ s) by (apply Z.pow_pos_nonneg; lia).
  split.
  - apply nearest_even_lower; nia.
  - apply nearest_even_upper; [nia|].
    pose proof (shift_upper (n / d) ltac:(apply Z.div_pos; lia)) as U. fold s in U.
    rewrite Z.pow_add_r in U by lia.
    pose proof (Z.div_mod n d ltac:(lia)). pose proof (Z.mod_pos_bound n d Hd). nia.
Qed.

Lemma round_magnitude_aligned n d :
  0 < d -> 0 <= n -> aligned (round_magnitude n d).
Proof.
  intros Hd Hn. unfold round_magnitude.
  apply aligned_scaled; [now apply nearest_even_mantissa|apply shift_nonneg].
Qed.

Lemma aligned_opp k : aligned k -> aligned (- k).
Proof. unfold aligned. now rewrite Z.abs_opp. Qed.

Lemma aligned_small k : Z.abs k <= 2 ^ 53 -> aligned k.
Proof.
  intros H. pose proof (aligned_scaled (Z.abs k) 0 ltac:(lia) ltac:(lia)) as A.
  unfold aligned in *. change (2 ^ 0) with 1 in A.
  rewrite Z.mul_1_r in A. now rewrite (Z.abs_eq (Z.abs k)) in A by lia.
Qed.

Lemma aligned_pow2 e : 0 <= e -> aligned (2 ^ e).
Proof.
  intros He. replace (2 ^ e) with (1 * 2 ^ e) by lia.
  apply aligned_scaled; trivial. split; [lia|].
  pose proof (Z.pow_pos_nonneg 2 53). lia.
Qed.

(** ** Durations above zero *)

Lemma round_at_least n d a :
  0 < d -> 0 <= a -> aligned a -> a * d <= n -> at_least a (round n d).
Proof.
  intros Hd Ha Hal H. unfold round.
  assert (Hn : 0 <= n) by nia.
  rewrite (Z.abs_eq n) by trivial.
  destruct (limit <=? round_magnitude n d).
  - cbn. apply Z.ltb_ge. trivial.
  - cbn. pose proof (round_magnitude_lower n d a Hd Hn Ha Hal H).
    destruct (Z.eq_dec n 0) as [->|N].
    + assert (a = 0) by nia. subst. cbn. lia.
    + rewrite Z.sgn_pos by lia. lia.
Qed.

Lemma round_finite n d a :
  0 < d -> 0 <= n -> 0 <= a -> aligned a -> a < limit -> n <= a * d ->
  exists m, round n d = Finite m /\ 0 <= m <= a /\ aligned m.
Proof.
  intros Hd Hn Ha Hal Hlim H. unfold round.
  rewrite (Z.abs_eq n) by trivial.
  pose proof (round_magnitude_upper n d a Hd Hn Ha Hal H) as U.
  pose proof (round_magnitude_nonneg n d Hd Hn) as L.
  pose proof (round_magnitude_aligned n d Hd Hn) as A.
  destruct (Z.leb_spec limit (round_magnitude n d)); [lia|].
  destruct (Z.eq_dec n 0) as [->|N].
  - exists 0. cbn. split; [reflexivity|]. split; [lia|reflexivity].
  - rewrite Z.sgn_pos by lia. rewrite Z.mul_1_l. eauto.
Qed.

Lemma at_least_positive a x : 0 < a -> at_least a x -> positive x.
Proof.
  unfold at_least, positive. destruct x as [|s|m]; cbn; intros Ha H.
  - destruct H.
  - now subst.
  - apply Z.ltb_lt. lia.
Qed.

Lemma lt_infinity x : lt (Infinity false) x = false.
Proof. now destruct x. Qed.

Lemma one_pos : 0 < one.
Proof. reflexivity. Qed.

Section Positive.

Variable random : nat -> double.
Variable this : Sardonic.
Variables kmin kmax : Z.
Hypothesis draws : forall n, unit_draw (random n).
Hypothesis Emin : minFrameDuration this = Finite kmin.
Hypothesis Emax : maxFrameDuration this = Finite kmax.
Hypothesis Rmin : representable kmin.
Hypothesis Rmax : representable kmax.
Hypothesis bounds : 0 < kmin <= kmax.

Lemma randomDuration_at_least k : at_least kmin (fst (randomDuration random this k)).
Proof.
  unfold randomDuration. cbn [fst]. rewrite Emin, Emax.
  destruct (draws k) as (kr & -> & _ & Hr).
  destruct Rmin as [Amin _]. destruct Rmax as [Amax Lmax].
  rewrite Z.abs_eq in Lmax by lia.
  pose proof one_pos as Hone.
  unfold sub. cbn [opp add].
  destruct (round_finite (kmax + - kmin) 1 kmax) as (g & -> & Hg & _); try lia; trivial.
  cbn [mul].
  assert (H0 : at_least 0 (round (kr * g) one)).
  { apply round_at_least; trivial; try lia; try reflexivity; nia. }
  destruct (round (kr * g) one) as [|s|h]; cbn [at_least] in H0.
  - destruct H0.
  - subst s. reflexivity.
  - cbn [add]. apply round_at_least; try lia; trivial.
Qed.

Lemma iteration_duration k t item k' :
  iteration random this k t = Returned (item, k') ->
  duration item = chosen_duration random this k t.
Proof.
  unfold iteration, chosen_duration. cbn [randomDuration fst].
  destruct (le _ _).
  - destruct (element _ _); [|discriminate]. now intros [= <- _].
  - destruct (gt _ _); (destruct (element _ _); [|discriminate]); now intros [= <- _].
Qed.

Lemma remaining_positive kt d :
  0 <= kt -> lt (Finite kt) (totalDuration this) = true ->
  sub (totalDuration this) (Finite kt) = d -> positive d.
Proof.
  intros Hk Hlt <-. destruct (totalDuration this) as [|s|ktot]; cbn in Hlt.
  - discriminate.
  - apply negb_true_iff in Hlt. subst. reflexivity.
  - apply Z.ltb_lt in Hlt. unfold sub. cbn [opp add].
    apply (at_least_positive 1); [lia|].
    apply round_at_least; try lia. reflexivity.
Qed.

Lemma chosen_duration_positive k kt :
  0 <= kt -> lt (Finite kt) (totalDuration this) = true ->
  positive (chosen_duration random this k (Finite kt)).
Proof.
  intros Hk Hlt. unfold chosen_duration.
  destruct (le _ _); [now apply (remaining_positive kt)|].
  destruct (gt _ _); [now apply (remaining_positive kt)|].
  apply (at_least_positive kmin); [lia|apply randomDuration_at_least].
Qed.

Lemma add_positive kt d :
  0 <= kt -> positive d -> at_least 0 (add (Finite kt) d).
Proof.
  intros Hk Hd. unfold positive in Hd. destruct d as [|s|m]; cbn in Hd.
  - discriminate.
  - apply negb_true_iff in Hd. now subst.
  - apply Z.ltb_lt in Hd. cbn [add]. apply round_at_least; try lia. reflexivity.
Qed.

Lemma loop_positive fuel :
  forall k t sequence,
    at_least 0 t ->
    Forall (fun entry => positive (duration (snd entry))) sequence ->
    Forall (fun entry => positive (duration (snd entry)))
      (fst (generateSequence_loop random this fuel k t sequence)).
Proof.
  induction fuel as [|fuel IH]; intros k t sequence Ht Hs; cbn [generateSequence_loop].
  - destruct (lt t _); exact Hs.
  - destruct (lt t (totalDuration this)) eqn:G; [|exact Hs].
    destruct t as [|s|kt]; cbn in Ht;
      [destruct Ht|subst; now rewrite lt_infinity in G|].
    destruct (iteration random this k (Finite kt)) as [[item k']|e|] eqn:E; trivial.
    pose proof (iteration_duration _ _ _ _ E) as Hd.
    pose proof (chosen_duration_positive k kt Ht G) as Hp. rewrite <- Hd in Hp.
    apply IH.
    + now apply add_positive.
    + apply Forall_app. split; [exact Hs|]. repeat constructor. exact Hp.
Qed.

End Positive.

(** ** The error of one addition *)

Lemma round_whole x :
  0 <= x ->
  round x 1 = (if limit <=? round_magnitude x 1 then Infinity false
               else Finite (round_magnitude x 1)).
Proof.
  intros Hx. unfold round. rewrite Z.abs_eq by trivial.
  assert (E : (x <? 0) = false) by (apply Z.ltb_ge; trivial). rewrite E.
  destruct (limit <=? _); trivial.
  destruct (Z.eq_dec x 0) as [->|N]; [reflexivity|].
  rewrite Z.sgn_pos by lia. now rewrite Z.mul_1_l.
Qed.

Lemma round_whole_error x m :
  0 <= x -> round x 1 = Finite m ->
  0 <= m /\ aligned m /\ - 2 ^ shift x <= 2 * (m - x) <= 2 ^ shift x.
Proof.
  intros Hx. rewrite round_whole by trivial.
  destruct (limit <=? _); [discriminate|]. intros [= <-].
  pose proof (round_magnitude_error x 1 ltac:(lia) Hx) as E.
  rewrite Z.div_1_r in E.
  split; [apply round_magnitude_nonneg; lia|].
  split; [apply round_magnitude_aligned; lia|]. lia.
Qed.

Lemma round_whole_overflow x s :
  0 <= x -> round x 1 = Infinity s -> 2 * limit <= 2 * x + 2 ^ shift x.
Proof.
  intros Hx. rewrite round_whole by trivial.
  destruct (Z.leb_spec limit (round_magnitude x 1)); [|discriminate]. intros _.
  pose proof (round_magnitude_error x 1 ltac:(lia) Hx) as E.
  rewrite Z.div_1_r in E. lia.
Qed.

Lemma aligned_top k :
  0 < k -> aligned k -> k + 2 ^ shift k <= 2 ^ (53 + shift k).
Proof.
  intros Hk Hal. pose proof (shift_nonneg k) as Hs.
  pose proof (shift_upper k ltac:(lia)) as U.
  destruct (Z.eq_dec (shift k) 0) as [E|E].
  - rewrite E in *. change (2 ^ 0) with 1. lia.
  - destruct (shift_bounds k ltac:(lia)) as [L _].
    destruct (aligned_divide k (shift k) ltac:(lia) Hal Hs L) as [z Hz].
    rewrite Z.pow_add_r in U |- * by lia.
    assert (HP : 0 < 2 ^ shift k) by (apply Z.pow_pos_nonneg; lia).
    revert U Hz HP. generalize (2 ^ shift k). intros P U Hz HP.
    assert (z < 2 ^ 53) by nia.
    assert ((z + 1) * P <= 2 ^ 53 * P) by (apply Z.mul_le_mono_nonneg_r; lia).
    lia.
Qed.

Lemma pow2_shift_mono p q : p <= q -> 2 ^ shift p <= 2 ^ shift q.
Proof.
  intros H. apply Z.pow_le_mono_r; [lia|]. now apply shift_mono.
Qed.

(** ** The sum of the durations *)

Lemma exact_sum_app sequence entry :
  exact_sum (sequence ++ [entry]) = exact_sum sequence + units (duration (snd entry)).
Proof.
  induction sequence as [|e rest IH]; cbn [exact_sum app fold_right] in *; [lia|].
  fold (exact_sum (rest ++ [entry])). fold (exact_sum rest). lia.
Qed.

Section Accuracy.

Variable random : nat -> double.
Variable this : Sardonic.
Variables ktot kmin kmax : Z.
Hypothesis draws : forall n, unit_draw (random n).
Hypothesis Etot : totalDuration this = Finite ktot.
Hypothesis Emin : minFrameDuration this = Finite kmin.
Hypothesis Emax : maxFrameDuration this = Finite kmax.
Hypothesis Rtot : representable ktot.
Hypothesis Rmin : representable kmin.
Hypothesis Rmax : representable kmax.
Hypothesis total_positive : 0 < ktot.
Hypothesis bounds : 0 < kmin <= kmax.

#[local] Notation "'B'" := (2 ^ shift ktot).

Lemma spacing_positive : 0 < B.
Proof. apply Z.pow_pos_nonneg; [lia|apply shift_nonneg]. Qed.

Lemma below_top x : 0 <= x -> 2 * x <= 2 * ktot + B -> 2 ^ shift x <= B.
Proof.
  intros Hx H. apply Z.pow_le_mono_r; [lia|].
  apply shift_below; [apply shift_nonneg|].
  destruct Rtot as [A _]. pose proof (aligned_top ktot total_positive A).
  pose proof spacing_positive. lia.
Qed.

Lemma remaining_exact kt :
  0 <= kt < ktot ->
  exists kd, sub (totalDuration this) (Finite kt) = Finite kd /\
             0 < kd /\ aligned kd /\
             - B <= 2 * (kt + kd - ktot) <= B.
Proof.
  intros Hk. rewrite Etot. unfold sub. cbn [opp add].
  destruct Rtot as [A L]. rewrite Z.abs_eq in L by lia.
  destruct (round_finite (ktot + - kt) 1 ktot) as (m & E & Hm & Am); try lia; trivial.
  exists m. split; [exact E|].
  destruct (round_whole_error (ktot + - kt) m ltac:(lia) E) as (_ & _ & Herr).
  pose proof (pow2_shift_mono (ktot + - kt) ktot ltac:(lia)).
  pose proof (round_at_least (ktot + - kt) 1 1 ltac:(lia) ltac:(lia)
                ltac:(reflexivity) ltac:(lia)) as P.
  rewrite E in P. cbn [at_least] in P. split; [lia|]. split; [exact Am|lia].
Qed.

Lemma chosen_duration_exact k kt :
  0 <= kt < ktot ->
  exists kd, chosen_duration random this k (Finite kt) = Finite kd /\
             0 < kd /\ 2 * (kt + kd) <= 2 * ktot + B.
Proof.
  intros Hk. unfold chosen_duration.
  destruct (remaining_exact kt Hk) as (m & Em & Hm & _ & Herr).
  destruct (le _ _); [exists m; split; [exact Em|lia]|].
  destruct (gt _ _) eqn:G; [exists m; split; [exact Em|lia]|].
  pose proof (randomDuration_at_least random this kmin kmax draws Emin Emax
                Rmin Rmax bounds k) as Hd.
  rewrite Etot in G. unfold gt in G.
  destruct (fst (randomDuration random this k)) as [|s|kd]; cbn [at_least] in Hd.
  - destruct Hd.
  - subst s. discriminate.
  - exists kd. split; [reflexivity|]. split; [lia|].
    cbn [add] in G.
    destruct (round (kt + kd) 1) as [|s|m'] eqn:E.
    + rewrite round_whole in E by lia. destruct (limit <=? _); discriminate.
    + rewrite round_whole in E by lia.
      destruct (limit <=? _); [|discriminate]. injection E as <-. discriminate.
    + cbn [lt] in G. apply Z.ltb_ge in G.
      destruct (round_whole_error (kt + kd) m' ltac:(lia) E) as (_ & _ & Herr').
      assert (T : kt + kd < 2 ^ (53 + shift ktot)).
      { destruct (Z.lt_ge_cases (kt + kd) (2 ^ (53 + shift ktot))) as [T|T]; trivial.
        pose proof (shift_nonneg ktot).
        pose proof (round_at_least (kt + kd) 1 (2 ^ (53 + shift ktot)) ltac:(lia)
                      ltac:(apply Z.pow_nonneg; lia)
                      ltac:(apply aligned_pow2; lia) ltac:(lia)) as P.
        rewrite E in P. cbn [at_least] in P.
        pose proof (shift_upper ktot ltac:(lia)). lia. }
      pose proof (shift_below (kt + kd) (shift ktot) (shift_nonneg ktot) T) as S.
      pose proof (Z.pow_le_mono_r 2 _ _ ltac:(lia) S). lia.
Qed.

Lemma accurate_time t sequence kt :
  accurate ktot t sequence -> t = Finite kt ->
  0 <= kt /\
  Z.abs (2 * (exact_sum sequence - kt)) <= Z.of_nat (List.length sequence) * B.
Proof.
  intros [[-> ->]|(x & Hx & -> & Hb & Hs)] E.
  - injection E as <-. cbn. lia.
  - destruct (round_whole_error _ _ Hx E) as (Hm & _ & Herr).
    pose proof (below_top x Hx Hb). split; [exact Hm|lia].
Qed.

Lemma accurate_step t sequence kt kd item :
  accurate ktot t sequence -> t = Finite kt -> duration item = Finite kd ->
  0 < kd -> 2 * (kt + kd) <= 2 * ktot + B ->
  accurate ktot (add t (duration item)) (sequence ++ [(t, item)]).
Proof.
  intros Ha -> Ed Hk Hb. destruct (accurate_time _ _ _ Ha eq_refl) as [Hkt Hs].
  right. exists (kt + kd). rewrite Ed. cbn [add].
  split; [lia|]. split; [reflexivity|]. split; [exact Hb|].
  rewrite exact_sum_app, length_app. cbn [snd List.length]. rewrite Ed. cbn [units].
  replace (exact_sum sequence + kd - (kt + kd)) with (exact_sum sequence - kt) by lia.
  lia.
Qed.

Lemma accurate_done t sequence :
  accurate ktot t sequence -> lt t (totalDuration this) = false ->
  Z.abs (2 * (exact_sum sequence - ktot)) <= Z.of_nat (List.length sequence) * B.
Proof.
  rewrite Etot. intros [[-> ->]|(x & Hx & -> & Hb & Hs)] G.
  - cbn in G. apply Z.ltb_ge in G. lia.
  - pose proof (below_top x Hx Hb) as Hsh.
    destruct Rtot as [_ L]. rewrite Z.abs_eq in L by lia.
    assert (Hlow : 2 * ktot - B <= 2 * x).
    { destruct (round x 1) as [|s|m] eqn:E.
      - rewrite round_whole in E by lia. destruct (limit <=? _); discriminate.
      - pose proof (round_whole_overflow _ _ Hx E). lia.
      - cbn in G. apply Z.ltb_ge in G.
        destruct (round_whole_error _ _ Hx E) as (_ & _ & Herr). lia. }
    lia.
Qed.


Lemma contiguous_from_app t sequence entry :
  contiguous_from t sequence -> fst entry = end_time t sequence ->
  contiguous_from t (sequence ++ [entry]).
Proof.
  revert t. induction sequence as [|[s it] rest IH]; intros t; cbn.
  - destruct entry as [s it]. cbn. intros _ ->. now split.
  - intros [-> H] E. split; [reflexivity|]. now apply IH.
Qed.

Lemma end_time_app t sequence entry :
  end_time t (sequence ++ [entry])
  = add (end_time t sequence) (duration (snd entry)).
Proof. unfold end_time. now rewrite fold_left_app. Qed.

Lemma sound_start : sound ktot (Finite 0) [].
Proof.
  split; [left; now split|]. split; [exact I|]. split; [reflexivity|constructor].
Qed.

Lemma sound_step k t sequence item k' :
  sound ktot t sequence -> lt t (totalDuration this) = true ->
  iteration random this k t = Returned (item, k') ->
  sound ktot (add t (duration item)) (sequence ++ [(t, item)]).
Proof.
  intros (Ha & Hc & He & Hf) G E.
  destruct t as [|s|kt]; [now rewrite Etot in G|..].
  { rewrite Etot in G. destruct s; [|discriminate].
    destruct Ha as [[_ [=]]|(x & Hx & Ex & _)].
    rewrite round_whole in Ex by trivial. destruct (limit <=? _); discriminate. }
  destruct (accurate_time _ _ _ Ha eq_refl) as [Hk _].
  assert (Hlt : 0 <= kt < ktot).
  { rewrite Etot in G. cbn in G. apply Z.ltb_lt in G. lia. }
  pose proof (iteration_duration _ _ _ _ _ _ E) as Hd.
  destruct (chosen_duration_exact k kt Hlt) as (kd & Ed & Hkd & Hb).
  rewrite <- Hd in Ed.
  split; [now apply (accurate_step _ _ kt kd)|].
  split; [apply contiguous_from_app; [exact Hc|now rewrite He]|].
  split; [rewrite end_time_app, He; reflexivity|].
  apply Forall_app. split; [exact Hf|]. repeat constructor. now exists kd.
Qed.

Lemma loop_sound fuel :
  forall k t sequence tr,
    sound ktot t sequence ->
    generateSequence_loop random this fuel k t sequence = (tr, Done) ->
    sound ktot (end_time (Finite 0) tr) tr /\
    lt (end_time (Finite 0) tr) (totalDuration this) = false.
Proof.
  induction fuel as [|fuel IH]; intros k t sequence tr Hs; cbn [generateSequence_loop].
  - destruct (lt t _) eqn:G; [discriminate|]. intros [= <-].
    destruct Hs as (Ha & Hc & He & Hf). rewrite He. repeat split; trivial.
  - destruct (lt t (totalDuration this)) eqn:G.
    + destruct (iteration random this k t) as [[item k']|e|] eqn:E; try discriminate.
      apply IH. now apply (sound_step k _ _ _ k').
    + intros [= <-]. destruct Hs as (Ha & Hc & He & Hf). rewrite He.
      repeat split; trivial.
Qed.

End Accuracy.

(** ** The index of the frame *)

Lemma nearest_even_scale n D c :
  0 < D -> 0 < c -> nearest_even (n * c) (D * c) = nearest_even n D.
Proof.
  intros HD Hc. unfold nearest_even.
  rewrite Z.div_mul_cancel_r by lia.
  rewrite Z.mul_mod_distr_r by lia.
  assert (E1 : (2 * (n mod D * c) <? D * c) = (2 * (n mod D) <? D)).
  { destruct (Z.ltb_spec (2 * (n mod D)) D), (Z.ltb_spec (2 * (n mod D * c)) (D * c));
      trivial; nia. }
  assert (E2 : (D * c <? 2 * (n mod D * c)) = (D <? 2 * (n mod D))).
  { destruct (Z.ltb_spec D (2 * (n mod D))), (Z.ltb_spec (D * c) (2 * (n mod D * c)));
      trivial; nia. }
  now rewrite E1, E2.
Qed.

Lemma round_scale n c : 0 < c -> round (n * c) c = round n 1.
Proof.
  intros Hc. unfold round, round_magnitude.
  rewrite Z.abs_mul, (Z.abs_eq c) by lia.
  rewrite Z.div_mul by lia. rewrite Z.div_1_r.
  assert (HP : 0 < 2 ^ shift (Z.abs n))
    by (apply Z.pow_pos_nonneg; [lia|apply shift_nonneg]).
  replace (c * 2 ^ shift (Z.abs n)) with (1 * 2 ^ shift (Z.abs n) * c) by ring.
  rewrite nearest_even_scale by lia.
  assert (E1 : (n * c <? 0) = (n <? 0)).
  { destruct (Z.ltb_spec n 0), (Z.ltb_spec (n * c) 0); trivial; nia. }
  assert (E2 : Z.sgn (n * c) = Z.sgn n).
  { rewrite Z.sgn_mul, (Z.sgn_pos c) by lia. lia. }
  now rewrite E1, E2.
Qed.

Lemma of_Z_exact z :
  0 <= z <= 2 ^ 53 -> of_Z z = Finite (z * one).
Proof.
  intros Hz. unfold of_Z. pose proof one_pos as Hone.
  rewrite round_whole by nia.
  assert (A : aligned (z * one)) by (apply (aligned_scaled z 1074); lia).
  pose proof (round_magnitude_exact 1 (z * one) ltac:(lia) ltac:(nia) A) as E.
  rewrite Z.mul_1_r in E. rewrite E.
  destruct (Z.leb_spec limit (z * one)) as [L|L]; trivial.
  exfalso. assert (z * one <= 2 ^ 53 * one)
    by (apply Z.mul_le_mono_nonneg_r; lia).
  assert (2 ^ 53 * one < limit) by reflexivity. lia.
Qed.

Lemma draw_below_one kr :
  aligned kr -> 0 <= kr < one -> kr <= one - 2 ^ 1021.
Proof.
  intros A H.
  assert (E1 : one = 2 ^ 53 * 2 ^ 1021) by reflexivity.
  assert (E2 : 2 ^ (52 + 1021) = 2 ^ 52 * 2 ^ 1021) by reflexivity.
  assert (HU : 0 < 2 ^ 1021) by reflexivity.
  destruct (Z.lt_ge_cases kr (2 ^ (52 + 1021))) as [L|L].
  - rewrite E1. rewrite E2 in L. revert L HU. generalize (2 ^ 1021). intros. nia.
  - destruct (aligned_divide kr 1021 ltac:(lia) A ltac:(lia) L) as [z ->].
    rewrite E1 in *. revert H HU. generalize (2 ^ 1021). intros U H HU.
    assert (z < 2 ^ 53) by nia. nia.
Qed.

Lemma scaled_draw_below kr n :
  aligned kr -> 0 <= kr < one -> 1 <= n <= 2 ^ 53 ->
  exists m, round (kr * n) 1 = Finite m /\ 0 <= m < n * one.
Proof.
  intros A Hk Hn. pose proof (draw_below_one kr A Hk) as Hr.
  assert (Hx : 0 <= kr * n) by nia.
  pose proof (Z.log2_spec n ltac:(lia)) as [Jlo Jhi].
  pose proof (Z.log2_nonneg n) as Hj.
  set (j := Z.log2 n) in *.
  assert (E1 : one = 2 ^ 53 * 2 ^ 1021) by reflexivity.
  assert (HU : 0 < 2 ^ 1021) by reflexivity.
  assert (EA : 2 ^ (53 + (j + 1021)) = 2 ^ j * one).
  { rewrite E1, <- !Z.pow_add_r by lia. f_equal. lia. }
  assert (EB : 2 ^ (53 + (j + 1022)) = 2 * (2 ^ j * one)).
  { replace (53 + (j + 1022)) with (1 + (53 + (j + 1021))) by lia.
    rewrite (Z.pow_add_r 2 1) by lia. rewrite EA. reflexivity. }
  assert (SA : 2 ^ (j + 1021) = 2 ^ j * 2 ^ 1021) by (rewrite Z.pow_add_r; lia).
  assert (SB : 2 ^ (j + 1022) = 2 * (2 ^ j * 2 ^ 1021)).
  { replace (j + 1022) with (1 + (j + 1021)) by lia.
    rewrite (Z.pow_add_r 2 1) by lia. rewrite SA. reflexivity. }
  rewrite Z.pow_succ_r in Jhi by lia.
  pose proof (round_magnitude_error (kr * n) 1 ltac:(lia) Hx) as Err.
  rewrite Z.div_1_r in Err.
  pose proof (round_magnitude_nonneg (kr * n) 1 ltac:(lia) Hx) as Hm.
  assert (Hlt : round_magnitude (kr * n) 1 < n * one).
  { destruct (Z.lt_ge_cases (kr * n) (2 ^ j * one)) as [C|C].
    - assert (S : shift (kr * n) <= j + 1021) by (apply shift_below; lia).
      pose proof (Z.pow_le_mono_r 2 _ _ ltac:(lia) S) as P. rewrite SA in P.
      rewrite E1 in *. revert Err P Hr HU C Hk. generalize (2 ^ 1021).
      generalize (2 ^ shift (kr * n)). generalize (round_magnitude (kr * n) 1).
      intros m Q U Err P Hr HU C Hk. nia.
    - assert (S : shift (kr * n) <= j + 1022).
      { apply shift_below; [lia|]. rewrite EB. nia. }
      pose proof (Z.pow_le_mono_r 2 _ _ ltac:(lia) S) as P. rewrite SB in P.
      assert (N : 2 ^ j + 1 <= n) by nia.
      rewrite E1 in *. revert Err P Hr HU C Hk N. generalize (2 ^ 1021).
      generalize (2 ^ shift (kr * n)). generalize (round_magnitude (kr * n) 1).
      generalize (2 ^ j).
      intros J m Q U Err P Hr HU C Hk N. nia. }
  rewrite round_whole by trivial.
  destruct (Z.leb_spec limit (round_magnitude (kr * n) 1)) as [L|L].
  - exfalso. assert (n * one <= 2 ^ 53 * one)
      by (apply Z.mul_le_mono_nonneg_r; lia).
    assert (2 ^ 53 * one < limit) by reflexivity. lia.
  - eexists. split; [reflexivity|]. lia.
Qed.

Lemma frame_defined (r : double) (frames : list string) :
  unit_draw r -> frames <> [] -> Z.of_nat (List.length frames) < 2 ^ 32 ->
  exists f,
    element frames (Math_floor (mul r (of_Z (Z.of_nat (List.length frames))))) = Some f
    /\ In f frames.
Proof.
  intros (kr & -> & [A _] & Hk) Hne Hlen.
  set (n := Z.of_nat (List.length frames)) in *.
  assert (Hn : 1 <= n) by (destruct frames; [congruence|cbn in n; lia]).
  rewrite of_Z_exact by lia. cbn [mul].
  replace (kr * (n * one)) with (kr * n * one) by ring.
  rewrite round_scale by apply one_pos.
  destruct (scaled_draw_below kr n A Hk ltac:(lia)) as (m & -> & Hm).
  cbn [Math_floor element]. pose proof one_pos as Hone.
  rewrite Z.mod_mul by lia. cbn [Z.eqb]. rewrite Z.div_mul by lia.
  assert (0 <= m / one < n).
  { split; [apply Z.div_pos; lia|apply Z.div_lt_upper_bound; lia]. }
  unfold array_get. destruct (Z.ltb_spec (m / one) 0); [lia|].
  destruct (nth_error frames (Z.to_nat (m / one))) as [f|] eqn:E.
  - exists f. split; trivial. now apply nth_error_In in E.
  - apply nth_error_None in E. lia.
Qed.

(** ** The loop ends *)

Lemma loop_length (random : nat -> double) (this : Sardonic) fuel :
  forall k t sequence,
    (List.length (fst (generateSequence_loop random this fuel k t sequence))
     <= List.length sequence + fuel)%nat.
Proof.
  induction fuel as [|fuel IH]; intros k t sequence; cbn [generateSequence_loop].
  - destruct (lt t _); cbn [fst]; lia.
  - destruct (lt t _); [|cbn [fst]; lia].
    destruct (iteration random this k t) as [[item k']|e|]; cbn [fst]; try lia.
    specialize (IH k' (add t (duration item)) (sequence ++ [(t, item)])).
    rewrite length_app in IH. cbn [List.length] in IH. lia.
Qed.

Section Termination.

Variable random : nat -> double.
Variable this : Sardonic.
Variables ktot kmin kmax : Z.
Hypothesis draws : forall n, unit_draw (random n).
Hypothesis some_frames : frames this <> [].
Hypothesis array_length : Z.of_nat (List.length (frames this)) < 2 ^ 32.
Hypothesis Etot : totalDuration this = Finite ktot.
Hypothesis Emin : minFrameDuration this = Finite kmin.
Hypothesis Emax : maxFrameDuration this = Finite kmax.
Hypothesis Rtot : representable ktot.
Hypothesis Rmin : representable kmin.
Hypothesis Rmax : representable kmax.
Hypothesis total_positive : 0 < ktot.
Hypothesis bounds : 0 < kmin <= kmax.
Hypothesis spacing : 2 ^ shift ktot <= kmin.

Lemma iteration_returns_item k t :
  exists item k',
    iteration random this k t = Returned (item, k') /\
    duration item = chosen_duration random this k t.
Proof.
  unfold iteration, chosen_duration. cbn [randomDuration fst].
  destruct (le _ _).
  - destruct (frame_defined (random k) (frames this) (draws k) some_frames array_length)
      as (f & E & _).
    cbv beta iota zeta. rewrite E. eexists _, _. split; reflexivity.
  - destruct (frame_defined (random (S k)) (frames this) (draws (S k)) some_frames
                array_length) as (f & E & _).
    destruct (gt _ _); cbv beta iota zeta; rewrite E; eexists _, _; split; reflexivity.
Qed.

(** The two ways an iteration ends: on the total, up to rounding, or
    at least [kmin] further and not beyond the total. *)
Lemma chosen_duration_cases k kt :
  0 <= kt < ktot ->
  exists kd, chosen_duration random this k (Finite kt) = Finite kd /\
    0 < kd /\
    ((- 2 ^ shift ktot <= 2 * (kt + kd - ktot) <= 2 ^ shift ktot) \/
     (kmin <= kd /\ exists m, round (kt + kd) 1 = Finite m /\ m <= ktot)).
Proof.
  intros Hk. unfold chosen_duration.
  destruct (remaining_exact this ktot Etot Rtot total_positive kt Hk)
    as (m & Em & Hm & _ & Herr).
  destruct (le _ _); [exists m; split; [exact Em|split; [lia|now left]]|].
  destruct (gt _ _) eqn:G; [exists m; split; [exact Em|split; [lia|now left]]|].
  pose proof (randomDuration_at_least random this kmin kmax draws Emin Emax
                Rmin Rmax bounds k) as Hd.
  rewrite Etot in G. unfold gt in G.
  destruct (fst (randomDuration random this k)) as [|s|kd]; cbn [at_least] in Hd.
  - destruct Hd.
  - subst s. discriminate.
  - exists kd. split; [reflexivity|]. split; [lia|]. right. split; [exact Hd|].
    cbn [add] in G. rewrite round_whole in G |- * by lia.
    destruct (limit <=? _); [discriminate|].
    eexists. split; [reflexivity|]. cbn [lt] in G. now apply Z.ltb_ge in G.
Qed.

Lemma aligned_gap m :
  aligned m -> 0 <= m -> 0 < ktot - m <= 2 ^ shift ktot -> aligned (ktot - m).
Proof.
  intros Am Hm Hg. destruct Rtot as [At _].
  pose proof (shift_nonneg ktot) as Hs.
  destruct (Z.eq_dec (shift ktot) 0) as [E|E].
  - rewrite E in Hg. change (2 ^ 0) with 1 in Hg. apply aligned_small.
    rewrite Z.abs_eq by lia. pose proof (Z.pow_pos_nonneg 2 53). lia.
  - destruct (shift_bounds ktot ltac:(lia)) as [L _].
    set (s := shift ktot) in *.
    assert (Es : 2 ^ s = 2 * 2 ^ (s - 1)).
    { replace s with (1 + (s - 1)) at 1 by lia. now rewrite Z.pow_add_r by lia. }
    assert (E52 : 2 ^ (52 + s) = 2 ^ 52 * 2 ^ s) by (rewrite Z.pow_add_r; lia).
    assert (E51 : 2 ^ (52 + (s - 1)) = 2 ^ 52 * 2 ^ (s - 1))
      by (rewrite Z.pow_add_r; lia).
    assert (HP : 0 < 2 ^ (s - 1)) by (apply Z.pow_pos_nonneg; lia).
    destruct (aligned_divide ktot s ltac:(lia) At Hs L) as [w Hw].
    destruct (aligned_divide m (s - 1) Hm Am ltac:(lia)) as [z Hz].
    { rewrite E51. rewrite E52, Es in L. rewrite Es in Hg.
      revert L Hg HP. generalize (2 ^ (s - 1)). intros. nia. }
    replace (ktot - m) with ((2 * w - z) * 2 ^ (s - 1)) by (rewrite Hw, Hz, Es; ring).
    apply aligned_scaled; [|lia].
    rewrite Hw, Hz, Es in Hg. revert Hg HP. generalize (2 ^ (s - 1)). intros P Hg HP.
    assert (0 < 2 * w - z <= 2) by nia. pose proof (Z.pow_pos_nonneg 2 53). lia.
Qed.

Lemma final_step k m :
  aligned m -> 0 <= m -> 0 < ktot - m <= 2 ^ shift ktot ->
  chosen_duration random this k (Finite m) = Finite (ktot - m) /\
  add (Finite m) (Finite (ktot - m)) = Finite ktot.
Proof.
  intros Am Hm Hg. pose proof (aligned_gap m Am Hm Hg) as Ag.
  destruct Rtot as [At Lt]. rewrite Z.abs_eq in Lt by lia.
  assert (Er : sub (totalDuration this) (Finite m) = Finite (ktot - m)).
  { rewrite Etot. unfold sub. cbn [opp add]. rewrite round_whole by lia.
    pose proof (round_magnitude_exact 1 (ktot - m) ltac:(lia) ltac:(lia) Ag) as E.
    rewrite Z.mul_1_r in E. replace (ktot + - m) with (ktot - m) by lia. rewrite E.
    destruct (Z.leb_spec limit (ktot - m)); [lia|reflexivity]. }
  split.
  - unfold chosen_duration. rewrite Er, Emax. cbn [le].
    destruct (Z.leb_spec (ktot - m) kmax); [reflexivity|lia].
  - cbn [add]. rewrite round_whole by lia.
    pose proof (round_magnitude_exact 1 ktot ltac:(lia) ltac:(lia) At) as E.
    rewrite Z.mul_1_r in E. replace (m + (ktot - m)) with ktot by lia. rewrite E.
    destruct (Z.leb_spec limit ktot); [lia|reflexivity].
Qed.

Lemma loop_unfold fuel k t sequence :
  generateSequence_loop random this (S fuel) k t sequence =
  if lt t (totalDuration this) then
    match iteration random this k t with
    | Returned (item, k') =>
        generateSequence_loop random this fuel k' (add t (duration item))
          (sequence ++ [(t, item)])
    | Threw e => (sequence, Failed e)
    | OutOfFuel => (sequence, Pending)
    end
  else (sequence, Done).
Proof. reflexivity. Qed.

Lemma loop_left fuel k t sequence :
  lt t (totalDuration this) = false ->
  generateSequence_loop random this fuel k t sequence = (sequence, Done).
Proof. intros G. destruct fuel; cbn [generateSequence_loop]; now rewrite G. Qed.

Lemma loop_more fuel :
  forall k t sequence tr extra,
    generateSequence_loop random this fuel k t sequence = (tr, Done) ->
    generateSequence_loop random this (fuel + extra) k t sequence = (tr, Done).
Proof.
  induction fuel as [|fuel IH]; intros k t sequence tr extra.
  - cbn [generateSequence_loop]. destruct (lt t _) eqn:G; [discriminate|].
    intros [= <-]. now apply loop_left.
  - cbn [Nat.add]. rewrite !loop_unfold. destruct (lt t _); trivial.
    destruct (iteration random this k t) as [[item k']|e|]; trivial. apply IH.
Qed.

Lemma loop_leaves n :
  forall k kt sequence,
    aligned kt -> 0 <= kt -> 2 * (ktot - kt) <= Z.of_nat n * kmin ->
    exists tr,
      generateSequence_loop random this (S (S n)) k (Finite kt) sequence = (tr, Done).
Proof.
  induction n as [|n IH]; intros k kt sequence Ak Hk Hn;
    rewrite loop_unfold; destruct (lt (Finite kt) _) eqn:G; eauto;
    rewrite Etot in G; cbn [lt] in G; apply Z.ltb_lt in G; [lia|].
  destruct (iteration_returns_item k (Finite kt)) as (item & k' & -> & Ed).
  destruct (chosen_duration_cases k kt ltac:(lia)) as (kd & Ec & Hkd & Hcase).
  destruct (chosen_duration_exact random this ktot kmin kmax draws Etot Emin Emax
              Rtot Rmin Rmax total_positive bounds k kt ltac:(lia))
    as (kd' & Ec' & _ & Hb).
  rewrite Ec in Ec'. injection Ec' as <-.
  rewrite Ed, Ec. cbn [add].
  pose proof (below_top ktot Rtot total_positive (kt + kd) ltac:(lia) Hb) as Hsh.
  destruct (round (kt + kd) 1) as [|s|m] eqn:Er.
  - rewrite round_whole in Er by lia. destruct (limit <=? _); discriminate.
  - rewrite round_whole in Er by lia.
    destruct (limit <=? _); [|discriminate]. injection Er as <-.
    eexists. apply loop_left. apply lt_infinity.
  - destruct (round_whole_error (kt + kd) m ltac:(lia) Er) as (Hm & Am & Herr).
    destruct (Z.lt_ge_cases m ktot) as [L|L].
    2:{ eexists. apply loop_left. rewrite Etot. cbn [lt]. now apply Z.ltb_ge. }
    destruct Hcase as [Hc|[Hmin _]].
    + (* the iteration ended on the total: one more at most *)
      assert (Hg : 0 < ktot - m <= 2 ^ shift ktot) by lia.
      rewrite loop_unfold.
      assert (G' : lt (Finite m) (totalDuration this) = true)
        by (rewrite Etot; cbn [lt]; now apply Z.ltb_lt).
      rewrite G'.
      destruct (iteration_returns_item k' (Finite m)) as (item' & k'' & -> & Ed').
      destruct (final_step k' m Am Hm Hg) as [Ef Ea].
      rewrite Ed', Ef, Ea. eexists. apply loop_left.
      rewrite Etot. cbn [lt]. apply Z.ltb_irrefl.
    + (* a free iteration: at least [kmin / 2] further *)
      apply IH; trivial. lia.
Qed.

End Termination.

(** ** The planner and the loop count *)

(** C1.  On doubles: for a non-empty frame list, a finite positive total
    and bounds [0 < minDur <= maxDur] with [minDur] at least the spacing
    of the doubles at the total, the planner returns within
    [iterations_bound] iterations, with at most that many items; each
    item begins at the value that [currentTime] has reached, the first at
    0; the time reached at the end
    is not below the total; every duration is finite and positive; and the
    exact sum of the durations differs from the total by at most half a
    spacing for each item.  That is within 1e-6 when the number of items
    times the spacing is at most 2e-6. *)
Theorem generateSequence_total_on_doubles
    (random : nat -> double) (this : Sardonic) (ktot kmin kmax : Z) :
  (forall n, unit_draw (random n)) ->
  frames this <> [] -> Z.of_nat (List.length (frames this)) < 2 ^ 32 ->
  totalDuration this = Finite ktot ->
  minFrameDuration this = Finite kmin ->
  maxFrameDuration this = Finite kmax ->
  representable ktot -> representable kmin -> representable kmax ->
  0 < ktot -> 0 < kmin <= kmax ->
  2 ^ shift ktot <= kmin ->
  exists tr,
    (forall fuel, (iterations_bound ktot kmin <= fuel)%nat ->
       generateSequence_timed random this fuel = (tr, Done) /\
       generateSequence random this fuel = Returned (map snd tr)) /\
    contiguous_from (Finite 0) tr /\
    lt (end_time (Finite 0) tr) (totalDuration this) = false /\
    Forall (fun entry => exists kd, duration (snd entry) = Finite kd /\ 0 < kd) tr /\
    (List.length tr <= iterations_bound ktot kmin)%nat /\
    Z.abs (2 * (exact_sum tr - ktot)) <= Z.of_nat (List.length tr) * 2 ^ shift ktot /\
    (Z.of_nat (List.length tr) * 2 ^ shift ktot * 10 ^ 6 <= 2 * one ->
     Z.abs (exact_sum tr - ktot) * 10 ^ 6 <= one).
Proof.
  intros Hd Hf Hlen Etot Emin Emax Rtot Rmin Rmax Ht Hb Hsp.
  set (n := Z.to_nat (2 * ktot / kmin + 1)).
  destruct (loop_leaves random this ktot kmin kmax Hd Hf Hlen Etot Emin Emax
              Rtot Rmin Rmax Ht Hb Hsp n 0%nat 0 []) as [tr Htr].
  - reflexivity.
  - lia.
  - subst n. rewrite Z2Nat.id by (apply Z.add_nonneg_nonneg; [apply Z.div_pos|]; lia).
    pose proof (Z.mul_succ_div_gt (2 * ktot) kmin ltac:(lia)). lia.
  - assert (Hfuel : forall fuel, (iterations_bound ktot kmin <= fuel)%nat ->
                      generateSequence_timed random this fuel = (tr, Done)).
    { intros fuel Hfu. unfold generateSequence_timed.
      replace fuel with (S (S n) + (fuel - S (S n)))%nat.
      - now apply loop_more.
      - unfold iterations_bound in Hfu. subst n.
        rewrite Z2Nat.inj_add by (try apply Z.div_pos; lia).
        change (Z.to_nat 1) with 1%nat. lia. }
    destruct (loop_sound random this ktot kmin kmax Hd Etot Emin Emax Rtot Rmin Rmax
                Ht Hb _ _ _ _ tr (sound_start ktot) Htr) as [(Ha & Hc & _ & Hpos) Hend].
    pose proof (accurate_done this ktot Etot Rtot Ht _ _ Ha Hend) as Hsum.
    exists tr.
    split; [|split; [exact Hc|split; [exact Hend|split; [exact Hpos|split; [|split]]]]].
    + intros fuel Hfu. split; [now apply Hfuel|].
      unfold generateSequence. now rewrite (Hfuel fuel Hfu).
    + pose proof (loop_length random this (iterations_bound ktot kmin) 0%nat
                    (Finite 0) []) as Hlen'.
      fold (generateSequence_timed random this (iterations_bound ktot kmin)) in Hlen'.
      rewrite (Hfuel _ (Nat.le_refl _)) in Hlen'. exact Hlen'.
    + exact Hsum.
    + intros Hn. lia.
Qed.

Lemma generateSequence_pushed random this fuel out :
  generateSequence random this fuel = Returned out -> out = pushed random this fuel.
Proof.
  unfold generateSequence, pushed.
  destruct (generateSequence_timed random this fuel) as [tr [| |]]; try discriminate.
  now intros [= <-].
Qed.

(** C6.  On doubles: with bounds [0 < minDur <= maxDur] every item that
    the loop pushes, after any number of iterations and whatever the total
    and the frames are, has a duration above zero; so has every item of a
    returned sequence. *)
Theorem generateSequence_durations_positive_on_doubles
    (random : nat -> double) (this : Sardonic) (kmin kmax : Z) :
  (forall n, unit_draw (random n)) ->
  minFrameDuration this = Finite kmin ->
  maxFrameDuration this = Finite kmax ->
  representable kmin -> representable kmax ->
  0 < kmin <= kmax ->
  forall fuel,
    Forall (fun item => positive (duration item)) (pushed random this fuel) /\
    (forall out, generateSequence random this fuel = Returned out ->
                 Forall (fun item => positive (duration item)) out).
Proof.
  intros Hd Emin Emax Rmin Rmax Hb fuel.
  assert (H : Forall (fun item => positive (duration item)) (pushed random this fuel)).
  { unfold pushed, generateSequence_timed. apply Forall_map.
    apply (loop_positive random this kmin kmax Hd Emin Emax Rmin Rmax Hb);
      [cbn; lia|constructor]. }
  split; [exact H|]. intros out Hout.
  now rewrite (generateSequence_pushed _ _ _ _ Hout).
Qed.

Lemma exact_ceiling_spec kd ktot :
  0 < ktot -> (exact_ceiling kd ktot - 1) * ktot < kd <= exact_ceiling kd ktot * ktot.
Proof.
  intros Ht. unfold exact_ceiling.
  pose proof (Z.div_mod (- kd) ktot ltac:(lia)).
  pose proof (Z.mod_pos_bound (- kd) ktot Ht). nia.
Qed.

(** C4.  On doubles: with a positive clip duration and a known positive
    target, the loop count is [Math.ceil] of the rounded quotient: a whole
    number that is the exact ceiling of target / clip or one less, and the
    exact ceiling when the clip divides the target (for ceilings up to
    [2^53]); when the target is unknown (the variable is still 0, or
    [NaN]) it is 50; 42 over 15 gives 3. *)
Theorem loopCount_rounded_ceiling (this : Sardonic) (ktot kd : Z) :
  totalDuration this = Finite ktot -> 0 < ktot -> 0 < kd ->
  exact_ceiling kd ktot <= 2 ^ 53 ->
  (exists n,
      loopCount this (Finite kd) = Finite (n * one) /\
      Math_ceil (div (Finite kd) (Finite ktot)) = Finite (n * one) /\
      exact_ceiling kd ktot - 1 <= n <= exact_ceiling kd ktot /\
      (kd mod ktot = 0 -> n = exact_ceiling kd ktot)) /\
  loopCount this (Finite 0) = of_Z 50 /\
  loopCount this NaN = of_Z 50 /\
  loopCount (clip 15) (of_Q 42) = of_Z 3.
Proof.
  intros Etot Ht Hk Hc. split; [|split; [reflexivity|split; [reflexivity|]]].
  2:{ vm_compute. reflexivity. }
  pose proof one_pos as Hone.
  pose proof (exact_ceiling_spec kd ktot Ht) as Hs.
  set (c := exact_ceiling kd ktot) in *.
  assert (Hc1 : 1 <= c) by nia.
  unfold loopCount. rewrite Etot. unfold gt. cbn [lt].
  destruct (Z.ltb_spec 0 kd); [|lia].
  cbn [div]. destruct (Z.eqb_spec ktot 0); [lia|].
  rewrite Z.sgn_pos, Z.mul_1_l, (Z.abs_eq ktot) by lia.
  assert (Alow : aligned ((c - 1) * one)) by (apply (aligned_scaled (c - 1) 1074); lia).
  assert (Aup : aligned (c * one)) by (apply (aligned_scaled c 1074); lia).
  assert (Lup : c * one < limit).
  { assert (c * one <= 2 ^ 53 * one) by (apply Z.mul_le_mono_nonneg_r; lia).
    assert (2 ^ 53 * one < limit) by reflexivity. lia. }
  destruct (round_finite (kd * one) ktot (c * one)) as (m & Em & Hm & _);
    trivial; try nia.
  pose proof (round_at_least (kd * one) ktot ((c - 1) * one) Ht ltac:(nia) Alow
                ltac:(nia)) as Hlow.
  rewrite Em in Hlow |- *. cbn [at_least] in Hlow. cbn [Math_ceil].
  assert (Hn : c - 1 <= - (- m / one) <= c).
  { pose proof (Z.div_mod (- m) one ltac:(lia)).
    pose proof (Z.mod_pos_bound (- m) one Hone). nia. }
  exists (- (- m / one)). split; [reflexivity|]. split; [reflexivity|].
  split; [exact Hn|].
  intros Hdiv. apply Z.mod_divide in Hdiv; [|lia]. destruct Hdiv as [w Hw].
  assert (w = c) by nia. subst w.
  pose proof (round_at_least (kd * one) ktot (c * one) Ht ltac:(nia) Aup
                ltac:(nia)) as Hex.
  rewrite Em in Hex. cbn [at_least] in Hex.
  assert (m = c * one) by lia. subst m.
  replace (- (c * one)) with (- c * one) by ring. rewrite Z.div_mul by lia. lia.
Qed.

(** ** Instances *)

(** The arithmetic on well known values: [0.1 + 0.2] is
    [0.30000000000000004], [2^53 + 1] is [2^53], [1.1 / 0.1] is [11],
    eight times [0.1] stays below [0.8], the largest double doubled is
    [Infinity], and half of the smallest double is 0. *)
Lemma double_examples :
  add (of_Q (1 # 10)) (of_Q (2 # 10)) = of_Q (30000000000000004 # 100000000000000000) /\
  add (of_Z (2 ^ 53)) (of_Z 1) = of_Z (2 ^ 53) /\
  div (of_Q (11 # 10)) (of_Q (1 # 10)) = of_Z 11 /\
  lt (fold_left add (repeat (of_Q (1 # 10)) 8) (Finite 0)) (of_Q (8 # 10)) = true /\
  add (Finite (limit - 2 ^ 2045)) (Finite (limit - 2 ^ 2045)) = Infinity false /\
  div (Finite 1) (of_Z 2) = Finite 0.
Proof. repeat split; vm_compute; reflexivity. Qed.

(** With a total of 0.8 and both bounds 0.1 the planner returns nine
    items, not eight: eight times 0.1 is still below 0.8. *)
Lemma nine_items :
  exists out,
    generateSequence zero_draws
      (mkSardonic ["a.png"]%string (of_Q (8 # 10)) (of_Q (1 # 10)) (of_Q (1 # 10))
         (of_Z 5)) 20 = Returned out /\
    List.length out = 9%nat.
Proof. eexists. split; vm_compute; reflexivity. Qed.

Ltac representable_value :=
  split; [vm_compute; reflexivity|vm_compute; reflexivity].

Lemma sevenths_are_draws n : unit_draw (sevenths n).
Proof.
  unfold sevenths. pose proof (Nat.mod_upper_bound n 7 ltac:(discriminate)) as H.
  destruct (n mod 7)%nat as [|[|[|[|[|[|[|r]]]]]]]; try lia;
    (eexists; split; [vm_compute; reflexivity|];
     split; [representable_value|split; [vm_compute; discriminate|vm_compute; reflexivity]]).
Qed.

Lemma zero_draws_unit n : unit_draw (zero_draws n).
Proof.
  exists 0. split; [reflexivity|]. split; [representable_value|].
  split; [lia|reflexivity].
Qed.

Lemma generateSequence_total_on_doubles_witness :
  exists tr,
    generateSequence sevenths sample 13 = Returned (map snd tr) /\
    contiguous_from (Finite 0) tr /\
    Z.abs (2 * (exact_sum tr - 5 * one))
      <= Z.of_nat (List.length tr) * 2 ^ shift (5 * one).
Proof.
  destruct (generateSequence_total_on_doubles sevenths sample (5 * one) one (2 * one))
    as (tr & Hrun & Hc & _ & _ & _ & Hsum & _).
  - exact sevenths_are_draws.
  - discriminate.
  - reflexivity.
  - vm_compute. reflexivity.
  - vm_compute. reflexivity.
  - vm_compute. reflexivity.
  - representable_value.
  - representable_value.
  - representable_value.
  - reflexivity.
  - split; [reflexivity|vm_compute; discriminate].
  - vm_compute. discriminate.
  - exists tr. split; [|split; trivial].
    apply (Hrun 13%nat). vm_compute. lia.
Defined.

Lemma generateSequence_sum_off_by_one :
  exists tr ktot,
    generateSequence_timed zero_draws large_total 5 = (tr, Done) /\
    totalDuration large_total = Finite ktot /\
    exact_sum tr = ktot + one.
Proof.
  eexists. eexists. split; [vm_compute; reflexivity|].
  split; vm_compute; reflexivity.
Qed.

Lemma generateSequence_durations_positive_on_doubles_witness :
  Forall (fun item => positive (duration item)) (pushed sevenths sample 2).
Proof.
  apply (generateSequence_durations_positive_on_doubles sevenths sample one (2 * one)).
  - exact sevenths_are_draws.
  - vm_compute. reflexivity.
  - vm_compute. reflexivity.
  - representable_value.
  - representable_value.
  - split; [reflexivity|vm_compute; discriminate].
Defined.

Lemma generateSequence_negative_duration :
  exists first rest,
    generateSequence sevenths negative_min 20 = Returned (first :: rest) /\
    duration first = Finite (- one).
Proof.
  eexists. eexists. split; vm_compute; reflexivity.
Qed.

Lemma loopCount_rounded_ceiling_witness :
  exists n,
    loopCount (clip 15) (of_Q 42) = Finite (n * one) /\
    2 <= n <= 3.
Proof.
  assert (E42 : of_Q 42 = Finite (42 * one)) by (vm_compute; reflexivity).
  destruct (loopCount_rounded_ceiling (clip 15) (15 * one) (42 * one))
    as [(n & Hn & _ & Hb & _) _].
  - vm_compute. reflexivity.
  - reflexivity.
  - reflexivity.
  - vm_compute. discriminate.
  - exists n. rewrite E42. split; [exact Hn|].
    change (exact_ceiling (42 * one) (15 * one)) with 3 in Hb. lia.
Defined.

Lemma loopCount_below_exact_ceiling :
  exists kd ktot,
    of_Q (11 # 10) = Finite kd /\ of_Q (1 # 10) = Finite ktot /\
    loopCount (clip (1 # 10)) (of_Q (11 # 10)) = of_Z 11 /\
    exact_ceiling kd ktot = 12.
Proof.
  eexists. eexists. split; [vm_compute; reflexivity|].
  split; [vm_compute; reflexivity|]. split; vm_compute; reflexivity.
Qed.

(** With one second lost in every addition the loop never ends. *)
Lemma absorbed_stays fuel :
  forall k sequence,
    snd (generateSequence_loop nine_tenths_then_zero absorbed fuel (S k)
           (Finite (36000000000000000 * one)) sequence) = Pending.
Proof.
  induction fuel as [|fuel IH]; intros k sequence.
  - reflexivity.
  - cbn [generateSequence_loop].
    change (lt (Finite (36000000000000000 * one)) (totalDuration absorbed)) with true.
    cbv beta iota.
    assert (E : iteration nine_tenths_then_zero absorbed (S k)
                  (Finite (36000000000000000 * one))
                = Returned (mkItem "a.png" (Finite one) (Finite (- (5 * one)))
                              (basename "a.png"), S (S (S (S k)))))
      by (vm_compute; reflexivity).
    rewrite E. cbn [duration].
    change (add (Finite (36000000000000000 * one)) (Finite one))
      with (Finite (36000000000000000 * one)).
    apply IH.
Qed.

Lemma absorbed_never_returns fuel :
  generateSequence nine_tenths_then_zero absorbed fuel = OutOfFuel.
Proof.
  unfold generateSequence, generateSequence_timed. destruct fuel as [|fuel].
  - reflexivity.
  - cbn [generateSequence_loop].
    change (lt (Finite 0) (totalDuration absorbed)) with true. cbv beta iota.
    assert (E : iteration nine_tenths_then_zero absorbed 0 (Finite 0)
                = Returned (mkItem "a.png" (Finite (36000000000000000 * one))
                              (Finite (- (5 * one))) (basename "a.png"), 3%nat))
      by (vm_compute; reflexivity).
    rewrite E. cbn [duration].
    change (add (Finite 0) (Finite (36000000000000000 * one)))
      with (Finite (36000000000000000 * one)).
    pose proof (absorbed_stays fuel 2 ([] ++ [(Finite 0,
      mkItem "a.png" (Finite (36000000000000000 * one)) (Finite (- (5 * one)))
        (basename "a.png"))])) as H.
    destruct (generateSequence_loop _ _ _ _ _ _) as [tr p]. cbn [snd] in H.
    now subst p.
Qed.

(** X26.  On doubles too the planner never throws once there are
    frames: for every draw in [0, 1) and an array of 1 to [2^32 - 1]
    frames the index [Math.floor(Math.random() * n)] lies inside the array
    (the rounded product never reaches [n]), so every iteration pushes an
    item whose frame is one of the frames, and no number of iterations
    ends in an exception. *)
Theorem planner_never_throws_on_doubles
    (random : nat -> double) (this : Sardonic) :
  (forall n, unit_draw (random n)) ->
  frames this <> [] -> Z.of_nat (List.length (frames this)) < 2 ^ 32 ->
  (forall k t, exists item k',
      iteration random this k t = Returned (item, k') /\
      In (frame item) (frames this)) /\
  (forall fuel e, generateSequence random this fuel <> Threw e).
Proof.
  intros Hd Hne Hlen.
  assert (Hit : forall k t, exists item k',
             iteration random this k t = Returned (item, k') /\
             In (frame item) (frames this)).
  { intros k t. unfold iteration. cbn [randomDuration fst].
    destruct (le _ _).
    - destruct (frame_defined (random k) (frames this) (Hd k) Hne Hlen)
        as (f & E & Hin).
      cbv beta iota zeta. rewrite E. eexists _, _. split; [reflexivity|exact Hin].
    - destruct (frame_defined (random (S k)) (frames this) (Hd (S k)) Hne Hlen)
        as (f & E & Hin).
      destruct (gt _ _); cbv beta iota zeta; rewrite E; eexists _, _;
        (split; [reflexivity|exact Hin]). }
  split; [exact Hit|].
  assert (Hloop : forall fuel k t sequence e,
             snd (generateSequence_loop random this fuel k t sequence) <> Failed e).
  { induction fuel as [|fuel IH]; intros k t sequence e; cbn [generateSequence_loop].
    - destruct (lt t _); discriminate.
    - destruct (lt t _); [|discriminate].
      destruct (Hit k t) as (item & k' & -> & _). apply IH. }
  intros fuel e. unfold generateSequence, generateSequence_timed.
  specialize (Hloop fuel 0%nat (Finite 0) [] e).
  destruct (generateSequence_loop _ _ _ _ _ _) as [tr [| |]]; cbn [snd] in Hloop;
    congruence.
Qed.

Lemma planner_never_throws_on_doubles_witness :
  generateSequence sevenths sample 2 <> Threw TypeError.
Proof.
  apply (planner_never_throws_on_doubles sevenths sample).
  - exact sevenths_are_draws.
  - discriminate.
  - reflexivity.
Defined.

(** X27.  On doubles, with bounds [0 < minDur <= maxDur]: an item that
    is shorter than [minDur] is always a remainder.  Every item pushed
    either lasts [minDur] at least, or its duration is the rounded
    difference of the total and the time at which it starts. *)
Theorem short_items_are_remainders
    (random : nat -> double) (this : Sardonic) (kmin kmax : Z) :
  (forall n, unit_draw (random n)) ->
  minFrameDuration this = Finite kmin ->
  maxFrameDuration this = Finite kmax ->
  representable kmin -> representable kmax ->
  0 < kmin <= kmax ->
  forall fuel,
    Forall (fun entry =>
              at_least kmin (duration (snd entry)) \/
              duration (snd entry) = sub (totalDuration this) (fst entry))
      (fst (generateSequence_timed random this fuel)).
Proof.
  intros Hd Emin Emax Rmin Rmax Hb fuel. unfold generateSequence_timed.
  assert (H : forall fuel k t sequence,
             Forall (fun entry =>
                       at_least kmin (duration (snd entry)) \/
                       duration (snd entry) = sub (totalDuration this) (fst entry))
               sequence ->
             Forall (fun entry =>
                       at_least kmin (duration (snd entry)) \/
                       duration (snd entry) = sub (totalDuration this) (fst entry))
               (fst (generateSequence_loop random this fuel k t sequence))).
  { clear fuel. induction fuel as [|fuel IH]; intros k t sequence Hs;
      cbn [generateSequence_loop].
    - destruct (lt t _); exact Hs.
    - destruct (lt t _); [|exact Hs].
      destruct (iteration random this k t) as [[item k']|e|] eqn:E; trivial.
      apply IH. apply Forall_app. split; [exact Hs|].
      constructor; [|constructor].
      cbn [fst snd]. rewrite (iteration_duration _ _ _ _ _ _ E).
      unfold chosen_duration.
      destruct (le _ _); [now right|]. destruct (gt _ _); [now right|].
      left. now apply (randomDuration_at_least random this kmin kmax). }
  apply H. constructor.
Qed.

Lemma short_items_are_remainders_witness :
  Forall (fun entry =>
            at_least one (duration (snd entry)) \/
            duration (snd entry) = sub (totalDuration sample) (fst entry))
    (fst (generateSequence_timed sevenths sample 13)).
Proof.
  apply (short_items_are_remainders sevenths sample one (2 * one)).
  - exact sevenths_are_draws.
  - vm_compute. reflexivity.
  - vm_compute. reflexivity.
  - representable_value.
  - representable_value.
  - split; [reflexivity|vm_compute; discriminate].
Defined.

End DoubleFacts.
